(** * Czech inflection engine of the caption generator

    A shallow embedding of the [Inflection] class (constructor tables,
    [inflect], [match], [breakAccents], [fixAccents], [capitalize]) and of
    the lines of [formatAttorneyText] that call it, then of the functions
    of the main script that assemble the caption and of the version check
    of the popup, followed by the properties established about them.

    JavaScript strings are sequences of UTF-16 code units; they are modelled
    as lists of code units.  [undefined] values and array holes are [None],
    the [-1] sentinels of [match] and [indexOf] are [None] as well, and a
    raised exception is the [Threw] outcome. *)

From Stdlib Require Import List NArith Bool Arith Lia Ascii.
From Stdlib Require String DecimalString DecimalN.
Import ListNotations String.StringSyntax.
Local Open Scope string_scope.

(* ================================================================= *)
(** * Strings *)

Module JsString.

(** A UTF-16 code unit. *)
Definition unit16 := N.

(** A JavaScript string. *)
Definition jsstring := list unit16.




Definition bytes_of (s : String.string) : list N :=
  map N_of_ascii (String.list_ascii_of_string s).

(** Source text is UTF-8; the engine sees UTF-16.  One, two and three byte
    sequences give one code unit, four byte sequences a surrogate pair. *)
Fixpoint utf16_of_utf8 (bs : list N) : jsstring :=
  match bs with
  | [] => []
  | b0 :: r0 =>
    if (b0 <? 0x80)%N then b0 :: utf16_of_utf8 r0
    else match r0 with
    | [] => [b0]
    | b1 :: r1 =>
      if (b0 <? 0xE0)%N
      then ((b0 mod 0x20) * 0x40 + b1 mod 0x40)%N :: utf16_of_utf8 r1
      else match r1 with
      | [] => [b0; b1]
      | b2 :: r2 =>
        if (b0 <? 0xF0)%N
        then ((b0 mod 0x10) * 0x1000 + (b1 mod 0x40) * 0x40 + b2 mod 0x40)%N
               :: utf16_of_utf8 r2
        else match r2 with
        | [] => [b0; b1; b2]
        | b3 :: r3 =>
          let cp := ((b0 mod 0x08) * 0x40000 + (b1 mod 0x40) * 0x1000
                     + (b2 mod 0x40) * 0x40 + b3 mod 0x40 - 0x10000)%N in
          (0xD800 + cp / 0x400)%N :: (0xDC00 + cp mod 0x400)%N
            :: utf16_of_utf8 r3
        end
      end
    end
  end.

(** [u "text"] is the JavaScript string written [text] in the source. *)
Definition u (s : String.string) : jsstring := utf16_of_utf8 (bytes_of s).

(** The code unit of a one-character literal. *)
Definition ch (s : String.string) : unit16 := hd 0%N (u s).

(** [===] on strings. *)
Fixpoint eqs (a b : jsstring) : bool :=
  match a, b with
  | [], [] => true
  | x :: a', y :: b' => (x =? y)%N && eqs a' b'
  | _, _ => false
  end.

(** [hay.startsWith(key)]. *)
Fixpoint startsWith (key hay : jsstring) : bool :=
  match key, hay with
  | [], _ => true
  | k :: key', h :: hay' => (k =? h)%N && startsWith key' hay'
  | _ :: _, [] => false
  end.

(** [s.slice(0, n)] and [s.slice(n)] for [0 <= n]. *)
Definition slice_to (n : nat) (s : jsstring) : jsstring := firstn n s.
Definition slice_from (n : nat) (s : jsstring) : jsstring := skipn n s.

(** [s.indexOf(c)] for a one-unit needle; [None] stands for [-1]. *)
Fixpoint indexOf (c : unit16) (s : jsstring) : option nat :=
  match s with
  | [] => None
  | x :: r => if (x =? c)%N then Some 0
              else option_map S (indexOf c r)
  end.

(** [s.replace(key, by_)] with a string [key]: only the first occurrence is
    replaced.  ([by_] is always a captured letter here, so the [$] patterns
    of replacement strings do not arise.) *)
Fixpoint replace_first (key by_ s : jsstring) : jsstring :=
  if startsWith key s then by_ ++ skipn (length key) s
  else match s with
       | [] => []
       | c :: r => c :: replace_first key by_ r
       end.

(** [s.split(' ')]. *)
Fixpoint split (sep : unit16) (s : jsstring) : list jsstring :=
  match s with
  | [] => [[]]
  | c :: r =>
    if (c =? sep)%N then [] :: split sep r
    else match split sep r with
         | w :: ws => (c :: w) :: ws
         | [] => [[c]]
         end
  end.

(** [parts.join(' ')]; [undefined] elements read as the empty string. *)
Fixpoint join (sep : unit16) (parts : list (option jsstring)) : jsstring :=
  match parts with
  | [] => []
  | [p] => match p with Some s => s | None => [] end
  | p :: rest =>
    match p with Some s => s | None => [] end ++ sep :: join sep rest
  end.

(** [hay.includes(needle)] on strings. *)
Fixpoint has_substring (needle hay : jsstring) : bool :=
  startsWith needle hay
  || match hay with
     | [] => false
     | _ :: r => has_substring needle r
     end.

(** [list.includes(w)]. *)
Definition includes (l : list jsstring) (w : jsstring) : bool :=
  existsb (eqs w) l.

(** [String(i)] for an array index. *)
Definition index_key (i : nat) : jsstring :=
  u (DecimalString.NilEmpty.string_of_uint (Nat.to_uint i)).

(** ** Case conversion

    [toUpperCase], [toLowerCase] and the simple case folding used by
    [RegExp] with the [iu] flags are tabulated for U+0000 to U+017F (Basic
    Latin, Latin-1 Supplement, Latin Extended-A: every letter of the tables
    below and of Czech text) and for the three letters outside that range
    that convert into it (KELVIN SIGN, ANGSTROM SIGN, capital sharp s).
    Every other code unit is left unchanged. *)

(** Letters of Latin Extended-A come in pairs capital, small; in
    U+0139..U+0148 and U+0179..U+017E the capital is odd, elsewhere even. *)
Definition ext_a_capital (c : unit16) : bool :=
  ((0x100 <=? c) && (c <=? 0x12F) && N.even c
   || (0x132 <=? c) && (c <=? 0x137) && N.even c
   || (0x139 <=? c) && (c <=? 0x148) && N.odd c
   || (0x14A <=? c) && (c <=? 0x177) && N.even c
   || (0x179 <=? c) && (c <=? 0x17E) && N.odd c)%N.

Definition ext_a_small (c : unit16) : bool :=
  ((0x100 <=? c) && (c <=? 0x12F) && N.odd c
   || (0x132 <=? c) && (c <=? 0x137) && N.odd c
   || (0x139 <=? c) && (c <=? 0x148) && N.even c
   || (0x14A <=? c) && (c <=? 0x177) && N.odd c
   || (0x179 <=? c) && (c <=? 0x17E) && N.even c)%N.

Definition latin1_capital (c : unit16) : bool :=
  ((0x41 <=? c) && (c <=? 0x5A)
   || (0xC0 <=? c) && (c <=? 0xDE) && negb (c =? 0xD7))%N.

Definition latin1_small (c : unit16) : bool :=
  ((0x61 <=? c) && (c <=? 0x7A)
   || (0xE0 <=? c) && (c <=? 0xFE) && negb (c =? 0xF7))%N.

Definition lower_unit (c : unit16) : jsstring :=
  if latin1_capital c then [c + 0x20]%N
  else if ext_a_capital c then [c + 1]%N
  else if (c =? 0x130)%N then [0x69; 0x307]%N
  else if (c =? 0x178)%N then [0xFF]%N
  else if (c =? 0x1E9E)%N then [0xDF]%N
  else if (c =? 0x212A)%N then [0x6B]%N
  else if (c =? 0x212B)%N then [0xE5]%N
  else [c].

Definition upper_unit (c : unit16) : jsstring :=
  if latin1_small c then [c - 0x20]%N
  else if ext_a_small c then [c - 1]%N
  else if (c =? 0xB5)%N then [0x39C]%N
  else if (c =? 0xDF)%N then [0x53; 0x53]%N
  else if (c =? 0xFF)%N then [0x178]%N
  else if (c =? 0x131)%N then [0x49]%N
  else if (c =? 0x149)%N then [0x2BC; 0x4E]%N
  else if (c =? 0x17F)%N then [0x53]%N
  else [c].

Definition toLowerCase (s : jsstring) : jsstring := flat_map lower_unit s.
Definition toUpperCase (s : jsstring) : jsstring := flat_map upper_unit s.

(** [Canonicalize] of a [RegExp] with the [i] and [u] flags. *)
Definition fold_unit (c : unit16) : unit16 :=
  if latin1_capital c then (c + 0x20)%N
  else if ext_a_capital c then (c + 1)%N
  else if (c =? 0xB5)%N then 0x3BC%N
  else if (c =? 0x178)%N then 0xFF%N
  else if (c =? 0x17F)%N then 0x73%N
  else if (c =? 0x1E9E)%N then 0xDF%N
  else if (c =? 0x212A)%N then 0x6B%N
  else if (c =? 0x212B)%N then 0xE5%N
  else c.

End JsString.

(* ================================================================= *)
(** * The [Inflection] class *)

Module Inflection.
Import JsString.

(** ** Tables of the constructor *)

(** A row of a table is an array of strings; [at_ row i] is [row[i]].
    Every row of [patterns] has 15 entries and every row of [exceptions]
    has 3 (see [patterns_rows] and [exceptions_rows]), so no access of the
    engine falls outside a row. *)
Definition row := list jsstring.
Definition at_ (r : row) (i : nat) : jsstring := nth i r [].

Local Abbreviation E := String.EmptyString.

(** [this.patterns]: gender, match specification, forms 2 to 14. *)
Definition patterns : list row := Eval vm_compute in map (map u) [
    ["m"; "-ký"; "kého"; "kému"; "ký/kého"; "ký"; "kém"; "kým"; "ké/cí"; "kých"; "kým"; "ké"; "ké/cí"; "kých"; "kými"];
    ["m"; "-rý"; "rého"; "rému"; "rý/rého"; "rý"; "rém"; "rým"; "ré/ří"; "rých"; "rým"; "ré"; "ré/ří"; "rých"; "rými"];
    ["m"; "-chý"; "chého"; "chému"; "chý/chého"; "chý"; "chém"; "chým"; "ché/ší"; "chých"; "chým"; "ché"; "ché/ší"; "chých"; "chými"];
    ["m"; "-hý"; "hého"; "hému"; "hý/hého"; "hý"; "hém"; "hým"; "hé/zí"; "hých"; "hým"; "hé"; "hé/zí"; "hých"; "hými"];
    ["m"; "-ý"; "ého"; "ému"; "ý/ého"; "ý"; "ém"; "ým"; "é/í"; "ých"; "ým"; "é"; "é/í"; "ých"; "ými"];
    ["m"; "-([aeěií])cí"; "0cího"; "0címu"; "0cí/0cího"; "0cí"; "0cím"; "0cím"; "0cí"; "0cích"; "0cím"; "0cí"; "0cí"; "0cích"; "0cími"];
    ["f"; "-([aeěií])cí"; "0cí"; "0cí"; "0cí"; "0cí"; "0cí"; "0cí"; "0cí"; "0cích"; "0cím"; "0cí"; "0cí"; "0cích"; "0cími"];
    ["s"; "-([aeěií])cí"; "0cího"; "0címu"; "0cí/0cího"; "0cí"; "0cím"; "0cím"; "0cí"; "0cích"; "0cím"; "0cí"; "0cí"; "0cích"; "0cími"];
    ["m"; "-([bcčdhklmnprsštvzž])ní"; "0ního"; "0nímu"; "0ní/0ního"; "0ní"; "0ním"; "0ním"; "0ní"; "0ních"; "0ním"; "0ní"; "0ní"; "0ních"; "0ními"];
    ["f"; "-([bcčdhklmnprsštvzž])ní"; "0ní"; "0ní"; "0ní"; "0ní"; "0ní"; "0ní"; "0ní"; "0ních"; "0ním"; "0ní"; "0ní"; "0ních"; "0ními"];
    ["s"; "-([bcčdhklmnprsštvzž])ní"; "0ního"; "0nímu"; "0ní/0ního"; "0ní"; "0ním"; "0ním"; "0ní"; "0ních"; "0ním"; "0ní"; "0ní"; "0ních"; "0ními"];
    ["m"; "-([i])tel"; "0tele"; "0teli"; "0tele"; "0teli"; "0teli"; "0telem"; "0telé"; "0telů"; "0telům"; "0tele"; "0telé"; "0telích"; "0teli"];
    ["m"; "-([í])tel"; "0tele"; "0teli"; "0tele"; "0teli"; "0teli"; "0telem"; "átelé"; "átel"; "átelům"; "átele"; "átelé"; "átelích"; "áteli"];
    ["m"; "-([c])el"; "0ela"; "0elovi"; "0ela"; "0eli"; "0elovi"; "0elem"; "celové"; "celů"; "celům"; "cely"; "celové"; "celích"; "cely"];
    ["m"; "-([i])el"; "0ela"; "0elovi"; "0ela"; "0eli"; "0elovi"; "0elem"; "ielové"; "ielů"; "ielům"; "iely"; "ielové"; "ielích"; "iely"];
    ["m"; "-([o])is"; "0ise"; "0isovi"; "0ise"; "0isi"; "0isovi"; "0isem"; "isové"; "isů"; "isům"; "isovy"; "isové"; "isích"; "isi"];
    ["m"; "-([o])děk"; "0ďka"; "0ďkovi"; "0ďka"; "0ďku"; "0ďkovi"; "0ďkem"; "ďkové"; "ďků"; "ďkům"; "ďky"; "ďkové"; "ďcích"; "ďky"];
    ["s"; "-é"; "ého"; "ému"; "é"; "é"; "ém"; "ým"; "á"; "ých"; "ým"; "á"; "á"; "ých"; "ými"];
    ["f"; "-á"; "é"; "é"; "ou"; "á"; "é"; "ou"; "é"; "ých"; "ým"; "é"; "é"; "ých"; "ými"];
    ["-"; "já"; "mne"; "mně"; "mne/mě"; "já"; "mně"; "mnou"; "my"; "nás"; "nám"; "nás"; "my"; "nás"; "námi"];
    ["-"; "ty"; "tebe"; "tobě"; "tě/tebe"; "ty"; "tobě"; "tebou"; "vy"; "vás"; "vám"; "vás"; "vy"; "vás"; "vámi"];
    ["-"; "my"; E; E; E; E; E; E; "my"; "nás"; "nám"; "nás"; "my"; "nás"; "námi"];
    ["-"; "vy"; E; E; E; E; E; E; "vy"; "vás"; "vám"; "vás"; "vy"; "vás"; "vámi"];
    ["m"; "on"; "něho"; "mu/jemu/němu"; "ho/jej"; "on"; "něm"; "ním"; "oni"; "nich"; "nim"; "je"; "oni"; "nich"; "jimi/nimi"];
    ["m"; "oni"; E; E; E; E; E; E; "oni"; "nich"; "nim"; "je"; "oni"; "nich"; "jimi/nimi"];
    ["f"; "ony"; E; E; E; E; E; E; "ony"; "nich"; "nim"; "je"; "ony"; "nich"; "jimi/nimi"];
    ["s"; "ono"; "něho"; "mu/jemu/němu"; "ho/jej"; "ono"; "něm"; "ním"; "ona"; "nich"; "nim"; "je"; "ony"; "nich"; "jimi/nimi"];
    ["f"; "ona"; "ní"; "ní"; "ji"; "ona"; "ní"; "ní"; "ony"; "nich"; "nim"; "je"; "ony"; "nich"; "jimi/nimi"];
    ["m"; "ten"; "toho"; "tomu"; "toho"; "ten"; "tom"; "tím"; "ti"; "těch"; "těm"; "ty"; "ti"; "těch"; "těmi"];
    ["f"; "ta"; "té"; "té"; "tu"; "ta"; "té"; "tou"; "ty"; "těch"; "těm"; "ty"; "ty"; "těch"; "těmi"];
    ["s"; "to"; "toho"; "tomu"; "toho"; "to"; "tom"; "tím"; "ta"; "těch"; "těm"; "ta"; "ta"; "těch"; "těmi"];
    ["m"; "můj"; "mého"; "mému"; "mého"; "můj"; "mém"; "mým"; "mí"; "mých"; "mým"; "mé"; "mí"; "mých"; "mými"];
    ["f"; "má"; "mé"; "mé"; "mou"; "má"; "mé"; "mou"; "mé"; "mých"; "mým"; "mé"; "mé"; "mých"; "mými"];
    ["f"; "moje"; "mé"; "mé"; "mou"; "má"; "mé"; "mou"; "moje"; "mých"; "mým"; "mé"; "mé"; "mých"; "mými"];
    ["s"; "mé"; "mého"; "mému"; "mé"; "moje"; "mém"; "mým"; "mé"; "mých"; "mým"; "má"; "má"; "mých"; "mými"];
    ["s"; "moje"; "mého"; "mému"; "moje"; "moje"; "mém"; "mým"; "moje"; "mých"; "mým"; "má"; "má"; "mých"; "mými"];
    ["m"; "tvůj"; "tvého"; "tvému"; "tvého"; "tvůj"; "tvém"; "tvým"; "tví"; "tvých"; "tvým"; "tvé"; "tví"; "tvých"; "tvými"];
    ["f"; "tvá"; "tvé"; "tvé"; "tvou"; "tvá"; "tvé"; "tvou"; "tvé"; "tvých"; "tvým"; "tvé"; "tvé"; "tvých"; "tvými"];
    ["f"; "tvoje"; "tvé"; "tvé"; "tvou"; "tvá"; "tvé"; "tvou"; "tvé"; "tvých"; "tvým"; "tvé"; "tvé"; "tvých"; "tvými"];
    ["s"; "tvé"; "tvého"; "tvému"; "tvého"; "tvůj"; "tvém"; "tvým"; "tvá"; "tvých"; "tvým"; "tvé"; "tvá"; "tvých"; "tvými"];
    ["s"; "tvoje"; "tvého"; "tvému"; "tvého"; "tvůj"; "tvém"; "tvým"; "tvá"; "tvých"; "tvým"; "tvé"; "tvá"; "tvých"; "tvými"];
    ["m"; "náš"; "našeho"; "našemu"; "našeho"; "náš"; "našem"; "našim"; "naši"; "našich"; "našim"; "naše"; "naši"; "našich"; "našimi"];
    ["f"; "naše"; "naší"; "naší"; "naši"; "naše"; "naší"; "naší"; "naše"; "našich"; "našim"; "naše"; "naše"; "našich"; "našimi"];
    ["s"; "naše"; "našeho"; "našemu"; "našeho"; "naše"; "našem"; "našim"; "naše"; "našich"; "našim"; "naše"; "naše"; "našich"; "našimi"];
    ["m"; "váš"; "vašeho"; "vašemu"; "vašeho"; "váš"; "vašem"; "vašim"; "vaši"; "vašich"; "vašim"; "vaše"; "vaši"; "vašich"; "vašimi"];
    ["f"; "vaše"; "vaší"; "vaší"; "vaši"; "vaše"; "vaší"; "vaší"; "vaše"; "vašich"; "vašim"; "vaše"; "vaše"; "vašich"; "vašimi"];
    ["s"; "vaše"; "vašeho"; "vašemu"; "vašeho"; "vaše"; "vašem"; "vašim"; "vaše"; "vašich"; "vašim"; "vaše"; "vaše"; "vašich"; "vašimi"];
    ["m"; "jeho"; "jeho"; "jeho"; "jeho"; "jeho"; "jeho"; "jeho"; "jeho"; "jeho"; "jeho"; "jeho"; "jeho"; "jeho"; "jeho"];
    ["f"; "jeho"; "jeho"; "jeho"; "jeho"; "jeho"; "jeho"; "jeho"; "jeho"; "jeho"; "jeho"; "jeho"; "jeho"; "jeho"; "jeho"];
    ["s"; "jeho"; "jeho"; "jeho"; "jeho"; "jeho"; "jeho"; "jeho"; "jeho"; "jeho"; "jeho"; "jeho"; "jeho"; "jeho"; "jeho"];
    ["m"; "její"; "jejího"; "jejímu"; "jejího"; "její"; "jejím"; "jejím"; "její"; "jejích"; "jejím"; "její"; "její"; "jejích"; "jejími"];
    ["s"; "její"; "jejího"; "jejímu"; "jejího"; "její"; "jejím"; "jejím"; "její"; "jejích"; "jejím"; "její"; "její"; "jejích"; "jejími"];
    ["f"; "její"; "její"; "její"; "její"; "její"; "její"; "její"; "její"; "jejích"; "jejím"; "její"; "její"; "jejích"; "jejími"];
    ["m"; "jejich"; "jejich"; "jejich"; "jejich"; "jejich"; "jejich"; "jejich"; "jejich"; "jejich"; "jejich"; "jejich"; "jejich"; "jejich"; "jejich"];
    ["s"; "jejich"; "jejich"; "jejich"; "jejich"; "jejich"; "jejich"; "jejich"; "jejich"; "jejich"; "jejich"; "jejich"; "jejich"; "jejich"; "jejich"];
    ["f"; "jejich"; "jejich"; "jejich"; "jejich"; "jejich"; "jejich"; "jejich"; "jejich"; "jejich"; "jejich"; "jejich"; "jejich"; "jejich"; "jejich"];
    ["m"; "-bůh"; "boha"; "bohu"; "boha"; "bože"; "bohovi"; "bohem"; "bozi/bohové"; "bohů"; "bohům"; "bohy"; "bozi/bohové"; "bozích"; "bohy"];
    ["m"; "-pan"; "pana"; "panu"; "pana"; "pane"; "panu"; "panem"; "páni/pánové"; "pánů"; "pánům"; "pány"; "páni/pánové"; "pánech"; "pány"];
    ["s"; "moře"; "moře"; "moři"; "moře"; "moře"; "moři"; "mořem"; "moře"; "moří"; "mořím"; "moře"; "moře"; "mořích"; "moři"];
    ["-"; "dveře"; E; E; E; E; E; E; "dveře"; "dveří"; "dveřím"; "dveře"; "dveře"; "dveřích"; "dveřmi"];
    ["-"; "housle"; E; E; E; E; E; E; "housle"; "houslí"; "houslím"; "housle"; "housle"; "houslích"; "houslemi"];
    ["-"; "šle"; E; E; E; E; E; E; "šle"; "šlí"; "šlím"; "šle"; "šle"; "šlích"; "šlemi"];
    ["-"; "muka"; E; E; E; E; E; E; "muka"; "muk"; "mukám"; "muka"; "muka"; "mukách"; "mukami"];
    ["s"; "ovoce"; "ovoce"; "ovoci"; "ovoce"; "ovoce"; "ovoci"; "ovocem"; E; E; E; E; E; E; E];
    ["m"; "humus"; "humusu"; "humusu"; "humus"; "humuse"; "humusu"; "humusem"; "humusy"; "humusů"; "humusům"; "humusy"; "humusy"; "humusech"; "humusy"];
    ["m"; "-vztek"; "vzteku"; "vzteku"; "vztek"; "vzteku"; "vzteku"; "vztekem"; "vzteky"; "vzteků"; "vztekům"; "vzteky"; "vzteky"; "vztecích"; "vzteky"];
    ["m"; "-dotek"; "doteku"; "doteku"; "dotek"; "doteku"; "doteku"; "dotekem"; "doteky"; "doteků"; "dotekům"; "doteky"; "doteky"; "dotecích"; "doteky"];
    ["f"; "-hra"; "hry"; "hře"; "hru"; "hro"; "hře"; "hrou"; "hry"; "her"; "hrám"; "hry"; "hry"; "hrách"; "hrami"];
    ["m"; "zeus"; "dia"; "diovi"; "dia"; "die"; "diovi"; "diem"; "diové"; "diů"; "diům"; E; "diové"; E; E];
    ["f"; "nikol"; "nikol"; "nikol"; "nikol"; "nikol"; "nikol"; "nikol"; "nikol"; "nikol"; "nikol"; "nikol"; "nikol"; "nikol"; "nikol"];
    ["-"; "-tdva"; "tidvou"; "tidvoum"; "tdva"; "tdva"; "tidvou"; "tidvěmi"; E; E; E; E; E; E; E];
    ["-"; "-tdvě"; "tidvou"; "tidvěma"; "tdva"; "tdva"; "tidvou"; "tidvěmi"; E; E; E; E; E; E; E];
    ["-"; "-ttři"; "titří"; "titřem"; "ttři"; "ttři"; "titřech"; "titřemi"; E; E; E; E; E; E; E];
    ["-"; "-tčtyři"; "tičtyřech"; "tičtyřem"; "tčtyři"; "tčtyři"; "tičtyřech"; "tičtyřmi"; E; E; E; E; E; E; E];
    ["-"; "-tpět"; "tipěti"; "tipěti"; "tpět"; "tpět"; "tipěti"; "tipěti"; E; E; E; E; E; E; E];
    ["-"; "-tšest"; "tišesti"; "tišesti"; "tšest"; "tšest"; "tišesti"; "tišesti"; E; E; E; E; E; E; E];
    ["-"; "-tsedm"; "tisedmi"; "tisedmi"; "tsedm"; "tsedm"; "tisedmi"; "tisedmi"; E; E; E; E; E; E; E];
    ["-"; "-tosm"; "tiosmi"; "tiosmi"; "tosm"; "tosm"; "tiosmi"; "tiosmi"; E; E; E; E; E; E; E];
    ["-"; "-tdevět"; "tidevíti"; "tidevíti"; "tdevět"; "tdevět"; "tidevíti"; "tidevíti"; E; E; E; E; E; E; E];
    ["f"; "-jedna"; "jedné"; "jedné"; "jednu"; "jedno"; "jedné"; "jednou"; E; E; E; E; E; E; E];
    ["m"; "-jeden"; "jednoho"; "jednomu"; "jednoho"; "jeden"; "jednom"; "jedním"; E; E; E; E; E; E; E];
    ["s"; "-jedno"; "jednoho"; "jednomu"; "jednoho"; "jedno"; "jednom"; "jedním"; E; E; E; E; E; E; E];
    ["-"; "-dva"; "dvou"; "dvoum"; "dva"; "dva"; "dvou"; "dvěmi"; E; E; E; E; E; E; E];
    ["-"; "-dvě"; "dvou"; "dvoum"; "dva"; "dva"; "dvou"; "dvěmi"; E; E; E; E; E; E; E];
    ["-"; "-tři"; "tří"; "třem"; "tři"; "tři"; "třech"; "třemi"; E; E; E; E; E; E; E];
    ["-"; "-čtyři"; "čtyřech"; "čtyřem"; "čtyři"; "čtyři"; "čtyřech"; "čtyřmi"; E; E; E; E; E; E; E];
    ["-"; "-pět"; "pěti"; "pěti"; "pět"; "pět"; "pěti"; "pěti"; E; E; E; E; E; E; E];
    ["-"; "-šest"; "šesti"; "šesti"; "šest"; "šest"; "šesti"; "šesti"; E; E; E; E; E; E; E];
    ["-"; "-sedm"; "sedmi"; "sedmi"; "sedm"; "sedm"; "sedmi"; "sedmi"; E; E; E; E; E; E; E];
    ["-"; "-osm"; "osmi"; "osmi"; "osm"; "osm"; "osmi"; "osmi"; E; E; E; E; E; E; E];
    ["-"; "-devět"; "devíti"; "devíti"; "devět"; "devět"; "devíti"; "devíti"; E; E; E; E; E; E; E];
    ["-"; "deset"; "deseti"; "deseti"; "deset"; "deset"; "deseti"; "deseti"; E; E; E; E; E; E; E];
    ["-"; "-ná([cs])t"; "ná0ti"; "ná0ti"; "ná0t"; "náct"; "ná0ti"; "ná0ti"; E; E; E; E; E; E; E];
    ["-"; "-dvacet"; "dvaceti"; "dvaceti"; "dvacet"; "dvacet"; "dvaceti"; "dvaceti"; E; E; E; E; E; E; E];
    ["-"; "-třicet"; "třiceti"; "třiceti"; "třicet"; "třicet"; "třiceti"; "třiceti"; E; E; E; E; E; E; E];
    ["-"; "-čtyřicet"; "čtyřiceti"; "čtyřiceti"; "čtyřicet"; "čtyřicet"; "čtyřiceti"; "čtyřiceti"; E; E; E; E; E; E; E];
    ["-"; "-desát"; "desáti"; "desáti"; "desát"; "desát"; "desáti"; "desáti"; E; E; E; E; E; E; E];
    ["m"; "-([i])sta"; "0sty"; "0stovi"; "0stu"; "0sto"; "0stovi"; "0stou"; "0sté"; "0stů"; "0stům"; "0sty"; "0sté"; "0stech"; "0sty"];
    ["m"; "-([o])sta"; "0sty"; "0stovi"; "0stu"; "0sto"; "0stovi"; "0stou"; "0stové"; "0stů"; "0stům"; "0sty"; "0sté"; "0stech"; "0sty"];
    ["m"; "-předseda"; "předsedy"; "předsedovi"; "předsedu"; "předsedo"; "předsedovi"; "předsedou"; "předsedové"; "předsedů"; "předsedům"; "předsedy"; "předsedové"; "předsedech"; "předsedy"];
    ["m"; "-srdce"; "srdce"; "srdi"; "sdrce"; "srdce"; "srdci"; "srdcem"; "srdce"; "srdcí"; "srdcím"; "srdce"; "srdce"; "srdcích"; "srdcemi"];
    ["m"; "-([db])ce"; "0ce"; "0ci"; "0ce"; "0če"; "0ci"; "0cem"; "0ci/0cové"; "0ců"; "0cům"; "0ce"; "0ci/0cové"; "0cích"; "0ci"];
    ["m"; "-([jň])ev"; "0evu"; "0evu"; "0ev"; "0eve"; "0evu"; "0evem"; "0evy"; "0evů"; "0evům"; "0evy"; "0evy"; "0evech"; "0evy"];
    ["m"; "-([lř])ev"; "0evu/0va"; "0evu/0vovi"; "0ev/0va"; "0eve/0ve"; "0evu/0vovi"; "0evem/0vem"; "0evy/0vové"; "0evů/0vů"; "0evům/0vům"; "0evy/0vy"; "0evy/0vové"; "0evech/0vech"; "0evy/0vy"];
    ["m"; "-ů([lz])"; "o0u/o0a"; "o0u/o0ovi"; "ů0/o0a"; "o0e"; "o0u"; "o0em"; "o0y/o0ové"; "o0ů"; "o0ům"; "o0y"; "o0y/o0ové"; "o0ech"; "o0y"];
    ["m"; "nůž"; "nože"; "noži"; "nůž"; "noži"; "noži"; "nožem"; "nože"; "nožů"; "nožům"; "nože"; "nože"; "nožích"; "noži"];
    ["s"; "-([bcčdghksštvzž])lo"; "0la"; "0lu"; "0lo"; "0lo"; "0lu"; "0lem"; "0la"; "0el"; "0lům"; "0la"; "0la"; "0lech"; "0ly"];
    ["s"; "-([bcčdnsštvzž])ko"; "0ka"; "0ku"; "0ko"; "0ko"; "0ku"; "0kem"; "0ka"; "0ek"; "0kům"; "0ka"; "0ka"; "0cích/0kách"; "0ky"];
    ["s"; "-([bcčdksštvzž])no"; "0na"; "0nu"; "0no"; "0no"; "0nu"; "0nem"; "0na"; "0en"; "0nům"; "0na"; "0na"; "0nech/0nách"; "0ny"];
    ["s"; "-o"; "a"; "u"; "o"; "o"; "u"; "em"; "a"; E; "ům"; "a"; "a"; "ech"; "y"];
    ["s"; "-í"; "í"; "í"; "í"; "í"; "í"; "ím"; "í"; "í"; "ím"; "í"; "í"; "ích"; "ími"];
    ["s"; "-([čďť])([e])"; "10te"; "10ti"; "10"; "10"; "10ti"; "10tem"; "1ata"; "1at"; "1atům"; "1ata"; "1ata"; "1atech"; "1aty"];
    ["f"; "-([aeiouyáéíóúý])ka"; "0ky"; "0ce"; "0ku"; "0ko"; "0ce"; "0kou"; "0ky"; "0k"; "0kám"; "0ky"; "0ky"; "0kách"; "0kami"];
    ["f"; "-ka"; "ky"; "ce"; "ku"; "ko"; "ce"; "kou"; "ky"; "ek"; "kám"; "ky"; "ky"; "kách"; "kami"];
    ["f"; "-([bdghkmnptvz])ra"; "0ry"; "0ře"; "0ru"; "0ro"; "0ře"; "0rou"; "0ry"; "0er"; "0rám"; "0ry"; "0ry"; "0rách"; "0rami"];
    ["f"; "-ra"; "ry"; "ře"; "ru"; "ro"; "ře"; "rou"; "ry"; "r"; "rám"; "ry"; "ry"; "rách"; "rami"];
    ["f"; "-([tdbnvmp])a"; "0y"; "0ě"; "0u"; "0o"; "0ě"; "0ou"; "0y"; "0"; "0ám"; "0y"; "0y"; "0ách"; "0ami"];
    ["f"; "-cha"; "chy"; "še"; "chu"; "cho"; "še"; "chou"; "chy"; "ch"; "chám"; "chy"; "chy"; "chách"; "chami"];
    ["f"; "-([gh])a"; "0y"; "ze"; "0u"; "0o"; "ze"; "0ou"; "0y"; "0"; "0ám"; "0y"; "0y"; "0ách"; "0ami"];
    ["f"; "-ňa"; "ni"; "ně"; "ňou"; "ňo"; "ni"; "ňou"; "ně/ničky"; "ň"; "ňám"; "ně/ničky"; "ně/ničky"; "ňách"; "ňami"];
    ["f"; "-([šč])a"; "0i"; "0e"; "0u"; "0o"; "0e"; "0ou"; "0e/0i"; "0"; "0ám"; "0e/0i"; "0e/0i"; "0ách"; "0ami"];
    ["f"; "-a"; "y"; "e"; "u"; "o"; "e"; "ou"; "y"; E; "ám"; "y"; "y"; "ách"; "ami"];
    ["f"; "-eň"; "ně"; "ni"; "eň"; "ni"; "ni"; "ní"; "ně"; "ní"; "ním"; "ně"; "ně"; "ních"; "němi"];
    ["f"; "-oň"; "oně"; "oni"; "oň"; "oni"; "oni"; "oní"; "oně"; "oní"; "oním"; "oně"; "oně"; "oních"; "oněmi"];
    ["f"; "-([ě])j"; "0je"; "0ji"; "0j"; "0ji"; "0ji"; "0jí"; "0je"; "0jí"; "0jím"; "0je"; "0je"; "0jích"; "0jemi"];
    ["f"; "-ev"; "ve"; "vi"; "ev"; "vi"; "vi"; "ví"; "ve"; "ví"; "vím"; "ve"; "ve"; "vích"; "vemi"];
    ["f"; "-ice"; "ice"; "ici"; "ici"; "ice"; "ici"; "icí"; "ice"; "ic"; "icím"; "ice"; "ice"; "icích"; "icemi"];
    ["f"; "-e"; "e"; "i"; "i"; "e"; "i"; "í"; "e"; "í"; "ím"; "e"; "e"; "ích"; "emi"];
    ["f"; "-([eaá])([jžň])"; "10e/10i"; "10i"; "10"; "10i"; "10i"; "10í"; "10e/10i"; "10í"; "10ím"; "10e"; "10e"; "10ích"; "10emi"];
    ["f"; "-([eayo])([š])"; "10e/10i"; "10i"; "10"; "10i"; "10i"; "10í"; "10e/10i"; "10í"; "10ím"; "10e"; "10e"; "10ích"; "10emi"];
    ["f"; "-([íy])ň"; "0ně"; "0ni"; "0ň"; "0ni"; "0ni"; "0ní"; "0ně"; "0ní"; "0ním"; "0ně"; "0ně"; "0ních"; "0němi"];
    ["f"; "-([íyý])ňe"; "0ně"; "0ni"; "0ň"; "0ni"; "0ni"; "0ní"; "0ně"; "0ní"; "0ním"; "0ně"; "0ně"; "0ních"; "0němi"];
    ["f"; "-([ťďž])"; "0e"; "0i"; "0"; "0i"; "0i"; "0í"; "0e"; "0í"; "0ím"; "0e"; "0e"; "0ích"; "0emi"];
    ["f"; "-toř"; "toře"; "toři"; "toř"; "toři"; "toři"; "toří"; "toře"; "toří"; "tořím"; "toře"; "toře"; "tořích"; "tořemi"];
    ["f"; "-ep"; "epi"; "epi"; "ep"; "epi"; "epi"; "epí"; "epi"; "epí"; "epím"; "epi"; "epi"; "epích"; "epmi"];
    ["f"; "-st"; "sti"; "sti"; "st"; "sti"; "sti"; "stí"; "sti"; "stí"; "stem"; "sti"; "sti"; "stech"; "stmi"];
    ["f"; "ves"; "vsi"; "vsi"; "ves"; "vsi"; "vsi"; "vsí"; "vsi"; "vsí"; "vsem"; "vsi"; "vsi"; "vsech"; "vsemi"];
    ["m"; "-([e])us"; "0a"; "0u/0ovi"; "0a"; "0e"; "0u/0ovi"; "0em"; "0ové"; "0ů"; "0ům"; "0y"; "0ové"; "0ích"; "0y"];
    ["m"; "-([i])us"; "0a"; "0u/0ovi"; "0a"; "0e"; "0u/0ovi"; "0em"; "0ové"; "0ů"; "0ům"; "0usy"; "0ové"; "0ích"; "0usy"];
    ["m"; "-([i])s"; "0se"; "0su/0sovi"; "0se"; "0se/0si"; "0su/0sovi"; "0sem"; "0sy/0sové"; "0sů"; "0sům"; "0sy"; "0sy/0ové"; "0ech"; "0sy"];
    ["m"; "výtrus"; "výtrusu"; "výtrusu"; "výtrus"; "výtruse"; "výtrusu"; "výtrusem"; "výtrusy"; "výtrusů"; "výtrusům"; "výtrusy"; "výtrusy"; "výtrusech"; "výtrusy"];
    ["m"; "trus"; "trusu"; "trusu"; "trus"; "truse"; "trusu"; "trusem"; "trusy"; "trusů"; "trusům"; "trusy"; "trusy"; "trusech"; "trusy"];
    ["m"; "-([aeioumpts])([lnmrktp])us"; "10u/10a"; "10u/10ovi"; "10us/10a"; "10e"; "10u/10ovi"; "10em"; "10y/10ové"; "10ů"; "10ům"; "10y"; "10y/10ové"; "10ech"; "10y"];
    ["s"; "-([l])um"; "0a"; "0u"; "0um"; "0um"; "0u"; "0em"; "0a"; "0"; "0ům"; "0a"; "0a"; "0ech"; "0y"];
    ["s"; "-([k])um"; "0a"; "0u"; "0um"; "0um"; "0u"; "0em"; "0a"; "0"; "0ům"; "0a"; "0a"; "0cích"; "0y"];
    ["s"; "-([i])um"; "0a"; "0u"; "0um"; "0um"; "0u"; "0em"; "0a"; "0í"; "0ům"; "0a"; "0a"; "0iích"; "0y"];
    ["s"; "-io"; "0a"; "0u"; "0"; "0"; "0u"; "0em"; "0a"; "0í"; "0ům"; "0a"; "0a"; "0iích"; "0y"];
    ["m"; "-([aeiouyáéíóúý])r"; "0ru/0ra"; "0ru/0rovi"; "0r/0ra"; "0re"; "0ru/0rovi"; "0rem"; "0ry/0rové"; "0rů"; "0rům"; "0ry"; "0ry/0rové"; "0rech"; "0ry"];
    ["m"; "-r"; "ru/ra"; "ru/rovi"; "r/ra"; "ře"; "ru/rovi"; "rem"; "ry/rové"; "rů"; "rům"; "ry"; "ry/rové"; "rech"; "ry"];
    ["m"; "-([mnp])en"; "0enu/0ena"; "0enu/0enovi"; "0en/0na"; "0ene"; "0enu/0enovi"; "0enem"; "0eny/0enové"; "0enů"; "0enům"; "0eny"; "0eny/0enové"; "0enech"; "0eny"];
    ["m"; "-([bcčdstvz])en"; "0nu/0na"; "0nu/0novi"; "0en/0na"; "0ne"; "0nu/0novi"; "0nem"; "0ny/0nové"; "0nů"; "0nům"; "0ny"; "0ny/0nové"; "0nech"; "0ny"];
    ["m"; "-([dglmnpbtvzs])"; "0u/0a"; "0u/0ovi"; "0/0a"; "0e"; "0u/0ovi"; "0em"; "0y/0ové"; "0ů"; "0ům"; "0y"; "0y/0ové"; "0ech"; "0y"];
    ["m"; "-([x])"; "0u/0e"; "0u/0ovi"; "0/0e"; "0i"; "0u/0ovi"; "0em"; "0y/0ové"; "0ů"; "0ům"; "0y"; "0y/0ové"; "0ech"; "0y"];
    ["m"; "sek"; "seku/seka"; "seku/sekovi"; "sek/seka"; "seku"; "seku/sekovi"; "sekem"; "seky/sekové"; "seků"; "sekům"; "seky"; "seky/sekové"; "secích"; "seky"];
    ["m"; "výsek"; "výseku/výseka"; "výseku/výsekovi"; "výsek/výseka"; "výseku"; "výseku/výsekovi"; "výsekem"; "výseky/výsekové"; "výseků"; "výsekům"; "výseky"; "výseky/výsekové"; "výsecích"; "výseky"];
    ["m"; "zásek"; "záseku/záseka"; "záseku/zásekovi"; "zásek/záseka"; "záseku"; "záseku/zásekovi"; "zásekem"; "záseky/zásekové"; "záseků"; "zásekům"; "záseky"; "záseky/zásekové"; "zásecích"; "záseky"];
    ["m"; "průsek"; "průseku/průseka"; "průseku/průsekovi"; "průsek/průseka"; "průseku"; "průseku/průsekovi"; "průsekem"; "průseky/průsekové"; "průseků"; "výsekům"; "průseky"; "průseky/průsekové"; "průsecích"; "průseky"];
    ["m"; "-([cčšždnňmpbrstvz])ek"; "0ku/0ka"; "0ku/0kovi"; "0ek/0ka"; "0ku"; "0ku/0kovi"; "0kem"; "0ky/0kové"; "0ků"; "0kům"; "0ky"; "0ky/0kové"; "0cích"; "0ky"];
    ["m"; "-([k])"; "0u/0a"; "0u/0ovi"; "0/0a"; "0u"; "0u/0ovi"; "0em"; "0y/0ové"; "0ů"; "0ům"; "0y"; "0y/0ové"; "cích"; "0y"];
    ["m"; "-ch"; "chu/cha"; "chu/chovi"; "ch/cha"; "chu/cha"; "chu/chovi"; "chem"; "chy/chové"; "chů"; "chům"; "chy"; "chy/chové"; "ších"; "chy"];
    ["m"; "-([h])"; "0u/0a"; "0u/0ovi"; "0/0a"; "0u"; "0u/0ovi"; "0em"; "0y/0ové"; "0ů"; "0ům"; "0y"; "0y/0ové"; "zích"; "0y"];
    ["m"; "-e([mnz])"; "0u/0a"; "0u/0ovi"; "e0/e0a"; "0e"; "0u/0ovi"; "0em"; "0y/0ové"; "0ů"; "0ům"; "0y"; "0y/0ové"; "0ech"; "0y"];
    ["m"; "-ec"; "ce"; "ci/covi"; "ec/ce"; "če"; "ci/covi"; "cem"; "ce/cové"; "ců"; "cům"; "ce"; "ce/cové"; "cích"; "ci"];
    ["m"; "-([cčďšňřťž])"; "0e"; "0i/0ovi"; "0e"; "0i"; "0i/0ovi"; "0em"; "0e/0ové"; "0ů"; "0ům"; "0e"; "0e/0ové"; "0ích"; "0i"];
    ["m"; "-oj"; "oje"; "oji/ojovi"; "oj/oje"; "oji"; "oji/ojovi"; "ojem"; "oje/ojové"; "ojů"; "ojům"; "oje"; "oje/ojové"; "ojích"; "oji"];
    ["m"; "-([gh])a"; "0y"; "0ovi"; "0u"; "0o"; "0ovi"; "0ou"; "0ové"; "0ů"; "0ům"; "0y"; "0ové"; "zích"; "0y"];
    ["m"; "-([k])a"; "0y"; "0ovi"; "0u"; "0o"; "0ovi"; "0ou"; "0ové"; "0ů"; "0ům"; "0y"; "0ové"; "cích"; "0y"];
    ["m"; "-a"; "y"; "ovi"; "u"; "o"; "ovi"; "ou"; "ové"; "ů"; "ům"; "y"; "ové"; "ech"; "y"];
    ["f"; "-l"; "le"; "li"; "l"; "li"; "li"; "lí"; "le"; "lí"; "lím"; "le"; "le"; "lích"; "lemi"];
    ["f"; "-í"; "í"; "í"; "í"; "í"; "í"; "í"; "í"; "ích"; "ím"; "í"; "í"; "ích"; "ími"];
    ["f"; "-([jř])"; "0e"; "0i"; "0"; "0i"; "0i"; "0í"; "0e"; "0í"; "0ím"; "0e"; "0e"; "0ích"; "0emi"];
    ["f"; "-([č])"; "0i"; "0i"; "0"; "0i"; "0i"; "0í"; "0i"; "0í"; "0ím"; "0i"; "0i"; "0ích"; "0mi"];
    ["f"; "-([š])"; "0i"; "0i"; "0"; "0i"; "0i"; "0í"; "0i"; "0í"; "0ím"; "0i"; "0i"; "0ích"; "0emi"];
    ["s"; "-([sljřň])e"; "0ete"; "0eti"; "0e"; "0e"; "0eti"; "0etem"; "0ata"; "0at"; "0atům"; "0ata"; "0ata"; "0atech"; "0aty"];
    ["m"; "-j"; "je"; "ji"; "j"; "ji"; "ji"; "jem"; "je/jové"; "jů"; "jům"; "je"; "je/jové"; "jích"; "ji"];
    ["m"; "-f"; "fa"; "fu/fovi"; "f/fa"; "fe"; "fu/fovi"; "fem"; "fy/fové"; "fů"; "fům"; "fy"; "fy/fové"; "fech"; "fy"];
    ["m"; "-í"; "ího"; "ímu"; "ího"; "í"; "ímu"; "ím"; "í"; "ích"; "ím"; "í"; "í"; "ích"; "ími"];
    ["m"; "-go"; "a"; "govi"; "ga"; "ga"; "govi"; "gem"; "gové"; "gů"; "gům"; "gy"; "gové"; "zích"; "gy"];
    ["m"; "-o"; "a"; "ovi"; "a"; "o"; "ovi"; "em"; "ové"; "ů"; "ům"; "y"; "ové"; "ech"; "y"];
    [E; "-([tp])y"; E; E; E; E; E; E; "0y"; "0"; "0ům"; "0y"; "0y"; "0ech"; "0ami"];
    [E; "-([k])y"; E; E; E; E; E; E; "0y"; "e0"; "0ám"; "0y"; "0y"; "0ách"; "0ami"];
    ["f"; "-ar"; "ary"; "aře"; "ar"; "ar"; "ar"; "ar"; "ary"; "ar"; "arám"; "ary"; "ary"; "arách"; "arami"];
    ["f"; "-am"; "am"; "am"; "am"; "am"; "am"; "am"; "am"; "am"; "am"; "am"; "am"; "am"; "am"];
    ["f"; "-er"; "er"; "er"; "er"; "er"; "er"; "er"; "ery"; "er"; "erám"; "ery"; "ery"; "erách"; "erami"];
    ["m"; "-oe"; "oema"; "oemovi"; "oema"; "oeme"; "emovi"; "emem"; "oemové"; "oemů"; "oemům"; "oemy"; "oemové"; "oemech"; "oemy"];
    ["f"; "-a"; "y"; "ě"; "u"; "o"; "ě"; "ou"; "y"; E; "ám"; "y"; "y"; "ách"; "ami"]  ].

(** [this.exceptions]: word, stem, form 4. *)
Definition exceptions : list row := Eval vm_compute in map (map u) [
    ["bořek"; "bořk"; "bořka"];
    ["bořek"; "bořk"; "bořka"];
    ["chleba"; "chleb"; "chleba"];
    ["chléb"; "chleb"; "chleba"];
    ["cyklus"; "cykl"; "cyklus"];
    ["dvůr"; "dvor"; "dvůr"];
    ["déšť"; "dešť"; "déšť"];
    ["důl"; "dol"; "důl"];
    ["havel"; "havl"; "havla"];
    ["hnůj"; "hnoj"; "hnůj"];
    ["hůl"; "hole"; "hůl"];
    ["karel"; "karl"; "karla"];
    ["kel"; "kl"; "kel"];
    ["kotel"; "kotl"; "kotel"];
    ["kůň"; "koň"; "koně"];
    ["luděk"; "luďk"; "luďka"];
    ["líh"; "lih"; "líh"];
    ["mráz"; "mraz"; "mráz"];
    ["myš"; "myše"; "myš"];
    ["nehet"; "neht"; "nehet"];
    ["ocet"; "oct"; "octa"];
    ["osel"; "osl"; "osla"];
    ["pavel"; "pavl"; "pavla"];
    ["pes"; "ps"; "psa"];
    ["peň"; "pň"; "peň"];
    ["posel"; "posl"; "posla"];
    ["prsten"; "prstýnek"; "prstýnku"];
    ["pytel"; "pytl"; "pytel"];
    ["půl"; "půle"; "půli"];
    ["skrýš"; "skrýše"; "skrýš"];
    ["smrt"; "smrť"; "smrt"];
    ["sníh"; "sněh"; "sníh"];
    ["sopel"; "sopl"; "sopel"];
    ["stupeň"; "stupň"; "stupeň"];
    ["stůl"; "stol"; "stůl"];
    ["svatozář"; "svatozáře"; "svatozář"];
    ["sůl"; "sole"; "sůl"];
    ["tůň"; "tůňe"; "tůň"];
    ["veš"; "vš"; "veš"];
    ["vítr"; "větr"; "vítr"];
    ["vůl"; "vol"; "vola"];
    ["zeď"; "zď"; "zeď"];
    ["zář"; "záře"; "zář"];
    ["účet"; "účt"; "účet"]  ].

Definition forceM : list jsstring := Eval vm_compute in map u [
    "alexej"; "aleš"; "alois"; "ambrož"; "ametyst"; "andrej"; "arest"; "azbest"; "bartoloměj";
    "bruno"; "chlast"; "chřest"; "čaj"; "čaroďej"; "darmoďej"; "dešť"; "displej"; "dobroďej";
    "drákula"; "ďeda"; "ďej"; "host"; "hranostaj"; "hugo"; "háj"; "ilja"; "ivo"; "jirka";
    "jiří"; "kolega"; "koloďej"; "komoří"; "kontest"; "koň"; "kvido"; "kříž"; "lanýž"; "lukáš";
    "maťej"; "mikoláš"; "mikuláš"; "mluvka"; "most"; "motorest"; "moula"; "muž"; "noe";
    "ondřej"; "oto"; "otto"; "papež"; "pepa"; "peň"; "plast"; "podkoní"; "polda"; "prodej";
    "protest"; "rest"; "saša"; "sleď"; "slouha"; "sluha"; "sprej"; "strejda"; "stupeň";
    "sťežeň"; "šmoula"; "termoplast"; "test"; "tobiáš"; "tomáš"; "trest"; "táta"; "velmož";
    "výdej"; "výprodej"; "vězeň"; "zeť"; "zloďej"; "žokej"  ].

Definition forceF : list jsstring := Eval vm_compute in map u [
    "dagmar"; "dešť"; "digestoř"; "ester"; "kancelář"; "kleč"; "konzervatoř"; "koudel";
    "koupel"; "křeč"; "maštal"; "miriam"; "neteř"; "obec"; "ocel"; "oratoř"; "otep"; "postel";
    "prdel"; "rozkoš"; "řeč"; "sbeř"; "trofej"; "ves"; "výstroj"; "výzbroj"; "vš"; "zbroj";
    "zteč"; "zvěř"; "závěj"  ].

Definition forceS : list jsstring := Eval vm_compute in map u [
    "house"; "kuře"; "kůzle"; "nemluvňe"; "osle"; "prase"; "sele"; "slůně"; "tele"; "vejce";
    "zvíře"  ].

(** ** Instance state *)

(** [this.replacements], an array; [None] is a hole.  The constructor sets
    it to the empty array. *)
Definition replacements := list (option jsstring).

Definition fresh : replacements := [].

(** [arr[i] = v]: writing past the end extends the array with holes. *)
Fixpoint array_set (i : nat) (v : jsstring) (arr : replacements)
  : replacements :=
  match i, arr with
  | O, [] => [Some v]
  | O, _ :: r => Some v :: r
  | S i', [] => None :: array_set i' v []
  | S i', x :: r => x :: array_set i' v r
  end.

(** ** Regular expressions of the match specifications

    After the leading [-] a specification is a sequence of letters and of
    groups [([...])] holding one character class. *)
Inductive atom :=
| Lit (c : unit16)
| Group (cls : list unit16).

(** Reads a specification; [cls] holds the class being read, reversed. *)
Fixpoint compile (cls : option (list unit16)) (src : jsstring) : list atom :=
  match src with
  | [] => []
  | c :: r =>
    match cls with
    | Some acc =>
      if (c =? ch "]")%N then Group (rev acc) :: compile None r
      else compile (Some (c :: acc)) r
    | None =>
      if (c =? ch "(")%N then compile None r
      else if (c =? ch ")")%N then compile None r
      else if (c =? ch "[")%N then compile (Some []) r
      else Lit c :: compile None r
    end
  end.

(** The source text of a compiled specification. *)
Definition source (atoms : list atom) : jsstring :=
  flat_map (fun a => match a with
                     | Lit c => [c]
                     | Group cls => u "([" ++ cls ++ u "])"
                     end) atoms.

(** With the [iu] flags letters are compared after case folding. *)
Definition atom_matches (a : atom) (c : unit16) : bool :=
  match a with
  | Lit x => (fold_unit x =? fold_unit c)%N
  | Group cls => existsb (fun x => (fold_unit x =? fold_unit c)%N) cls
  end.

(** The atoms followed by [$] against the whole of [s]; the result lists
    the captured groups. *)
Fixpoint match_here (atoms : list atom) (s : jsstring)
  : option (list jsstring) :=
  match atoms, s with
  | [], [] => Some []
  | a :: atoms', c :: s' =>
    if atom_matches a c then
      match match_here atoms' s' with
      | Some caps => Some match a with
                          | Group _ => [c] :: caps
                          | Lit _ => caps
                          end
      | None => None
      end
    else None
  | _, _ => None
  end.

(** [word.match(regex)]: the leftmost start that matches; the result is the
    array [[matches[0]; matches[1]; ...]].  (With the [u] flag a start
    inside a surrogate pair is not tried; none could match, the atoms being
    Latin letters.) *)
Fixpoint exec (atoms : list atom) (word : jsstring)
  : option (list jsstring) :=
  match match_here atoms word with
  | Some caps => Some (word :: caps)
  | None => match word with
            | [] => None
            | _ :: r => exec atoms r
            end
  end.

(** The loop [for (i = matches.length - 1; i > 0; i--)
    this.replacements[i - 1] = matches[matches.length - i]]. *)
Fixpoint store (matches : list jsstring) (i : nat) (reps : replacements)
  : replacements :=
  match i with
  | O => reps
  | S i' =>
    store matches i' (array_set i' (nth (length matches - i) matches []) reps)
  end.

(** [match(pattern, word)]: the split point, [None] for [-1], and the
    replacements after the call. *)
Definition match_ (reps : replacements) (pattern word : jsstring)
  : option nat * replacements :=
  if negb (startsWith (u "-") pattern) then
    (if eqs (toLowerCase pattern) (toLowerCase word) then Some 0 else None,
     reps)
  else
    match exec (compile None (slice_from 1 pattern)) word with
    | Some matches =>
      (Some (length word - length (nth 0 matches [])),
       store matches (length matches - 1) reps)
    | None => (None, reps)
    end.

(** ** Accents *)

(** [word.replace(/a|b|.../g, m => table[m])] for two-letter alternatives:
    left to right, without overlap. *)
Fixpoint replace_pairs (table : list (jsstring * jsstring)) (word : jsstring)
  : jsstring :=
  match word with
  | c1 :: (c2 :: rest) as tl =>
    match find (fun kv => eqs (fst kv) [c1; c2]) table with
    | Some kv => snd kv ++ replace_pairs table rest
    | None => c1 :: replace_pairs table tl
    end
  | _ => word
  end.

Definition broken : list (jsstring * jsstring) := Eval vm_compute in
  map (fun kv => (u (fst kv), u (snd kv)))
    [("di", "ďi"); ("ti", "ťi"); ("ni", "ňi");
     ("dě", "ďe"); ("tě", "ťe"); ("ně", "ňe")].

Definition breakAccents (word : jsstring) : jsstring :=
  replace_pairs broken word.

Definition fixAccents (word : jsstring) : jsstring :=
  replace_pairs (map (fun kv => (snd kv, fst kv)) broken) word.

Definition capitalize (word : jsstring) : jsstring :=
  toUpperCase (slice_to 1 word) ++ slice_from 1 word.

(** ** [inflect] *)

Inductive error := TypeError.

Inductive outcome (A : Type) :=
| Returned (a : A)
| Threw (e : error).
Arguments Returned {A} a.
Arguments Threw {A} e.

(** An object keyed by small integers, such as [inflectedWord]: position
    [k] holds the value of key [k], [None] where the key is absent. *)
Definition entry := list (option jsstring).

Definition get (o : entry) (k : nat) : option jsstring := nth k o None.

(** Truthiness of a string or [null]/[undefined] value. *)
Definition truthy (v : option jsstring) : bool :=
  match v with
  | Some (_ :: _) => true
  | _ => false
  end.

(** [if (gender === null) { forceM ... forceF ... forceS }]. *)
Definition force (gender : option jsstring) (wordLower : jsstring)
  : option jsstring :=
  match gender with
  | None =>
    if includes forceM wordLower then Some (u "m")
    else if includes forceF wordLower then Some (u "f")
    else if includes forceS wordLower then Some (u "s")
    else None
  | Some _ => gender
  end.

(** [this.exceptions.find(e => e[0] === this.breakAccents(wordLower))]. *)
Definition find_exception (wordLower : jsstring) : option row :=
  find (fun e => eqs (at_ e 0) (breakAccents wordLower)) exceptions.

(** [gender && pattern[0] !== gender]: the pattern is passed over. *)
Definition skipped (gender : option jsstring) (p : row) : bool :=
  match gender with
  | Some g => truthy gender && negb (eqs (at_ p 0) g)
  | None => false
  end.

(** The search of the pattern loop: the first pattern that is not passed
    over and matches, with its split point. *)
Fixpoint first_match (gender : option jsstring) (baseWord : jsstring)
    (ps : list row) (reps : replacements)
  : option (row * nat) * replacements :=
  match ps with
  | [] => (None, reps)
  | p :: rest =>
    if skipped gender p then first_match gender baseWord rest reps
    else match match_ reps (at_ p 1) baseWord with
         | (Some left_, reps') => (Some (p, left_), reps')
         | (None, reps') => first_match gender baseWord rest reps'
         end
  end.

(** [for (let i in this.replacements)
    postfix = postfix.replace(i, this.replacements[i])], from key [i] on. *)
Fixpoint substitute (i : nat) (reps : replacements) (postfix : jsstring)
  : jsstring :=
  match reps with
  | [] => postfix
  | r :: rest =>
    substitute (S i) rest
      match r with
      | Some v => replace_first (index_key i) v postfix
      | None => postfix
      end
  end.

(** The choice at the first [/] of a template. *)
Definition alternative (animate : bool) (postfix : jsstring) : jsstring :=
  match indexOf (ch "/") postfix with
  | Some posSlash =>
    if animate then slice_from (posSlash + 1) postfix
    else slice_to posSlash postfix
  | None => postfix
  end.

(** The body of the loop over [caseIndex]. *)
Definition form (animate isUpper : bool) (exception : option row)
    (pattern : row) (prefix : jsstring) (reps : replacements)
    (caseIndex : nat) : jsstring :=
  match exception, (caseIndex =? 4)%nat with
  | Some e, true => capitalize (at_ e 2)
  | _, _ =>
    let postfix := substitute 0 reps (at_ pattern caseIndex) in
    let postfix := alternative animate postfix in
    let result := fixAccents (prefix ++ postfix) in
    if isUpper then capitalize result else result
  end.

(** [{ ...Array(14).fill(word) }]: keys 0 to 13. *)
Definition passthrough (word : jsstring) : entry := repeat (Some word) 14.

(** The variables that live across the loop over the words. *)
Record loop_state := {
  gender : option jsstring;
  inflected : list entry;
  reps : replacements
}.

(** The body of the loop over the words.  On the empty word [word[0]] is
    [undefined] and [word[0].toUpperCase()] raises. *)
Definition inflect_word (animate : bool) (st : loop_state)
    (original : jsstring) : outcome loop_state :=
  match original with
  | [] => Threw TypeError
  | c0 :: _ =>
    let isUpper := eqs [c0] (toUpperCase [c0]) in
    let word := breakAccents original in
    let wordLower := toLowerCase word in
    let gender := force (gender st) wordLower in
    let exception := find_exception wordLower in
    let baseWord := match exception with
                    | Some e => at_ e 1
                    | None => word
                    end in
    match first_match gender baseWord patterns (reps st) with
    | (Some (pattern, left_), reps') =>
      let prefix := slice_to left_ baseWord in
      let inflectedWord :=
        None :: Some original
          :: map (fun caseIndex =>
                    Some (form animate isUpper exception pattern prefix
                            reps' caseIndex))
                 (seq 2 13) in
      let pushed := inflected st ++ [inflectedWord] in
      Returned {|
        gender := Some (at_ pattern 0);
        inflected := if truthy (get inflectedWord 2) then pushed
                     else pushed ++ [passthrough word];
        reps := reps' |}
    | (None, reps') =>
      Returned {|
        gender := gender;
        inflected := inflected st ++ [passthrough word];
        reps := reps' |}
    end
  end.

(** The loop over the words; an exception leaves the replacements as they
    were when it was raised. *)
Fixpoint inflect_words (animate : bool) (words : list jsstring)
    (st : loop_state) : outcome loop_state * replacements :=
  match words with
  | [] => (Returned st, reps st)
  | word :: rest =>
    match inflect_word animate st word with
    | Returned st' => inflect_words animate rest st'
    | Threw e => (Threw e, reps st)
    end
  end.

(** The assembly of the result: an array whose index 0 is a hole and whose
    indices 1 to 14 hold the joined forms. *)
Definition assemble (inflected : list entry) : entry :=
  let reversed := rev inflected in
  None :: map (fun caseIndex =>
                 Some (join (ch " ")
                         (map (fun word => get word caseIndex) reversed)))
              (seq 1 14).

(** [inflect(text, animate)] on an instance whose replacements are [r]:
    the outcome and the replacements left behind. *)
Definition inflect_on (r : replacements) (text : jsstring) (animate : bool)
  : outcome entry * replacements :=
  let words := rev (split (ch " ") text) in
  match inflect_words animate words
          {| gender := None; inflected := []; reps := r |} with
  | (Returned st, r') => (Returned (assemble (inflected st)), r')
  | (Threw e, r') => (Threw e, r')
  end.

(** [new Inflection().inflect(text, animate)]. *)
Definition inflect (text : jsstring) (animate : bool) : outcome entry :=
  fst (inflect_on fresh text animate).

(** The form of slot [k] when the call returned. *)
Definition slot (o : outcome entry) (k : nat) : option jsstring :=
  match o with
  | Returned r => get r k
  | Threw _ => None
  end.

(** The pattern the loop body selects for a word, if any, when the gender
    variable holds [g]. *)
Definition selected (g : option jsstring) (original : jsstring)
  : option row :=
  let word := breakAccents original in
  let wordLower := toLowerCase word in
  let exception := find_exception wordLower in
  let baseWord := match exception with
                  | Some e => at_ e 1
                  | None => word
                  end in
  option_map fst
    (fst (first_match (force g wordLower) baseWord patterns fresh)).

(** The replacements of an instance that has served the calls of
    [history], oldest first. *)
Definition instance_after (history : list (jsstring * bool)) : replacements :=
  fold_left (fun r call => snd (inflect_on r (fst call) (snd call)))
            history fresh.

(** The markers [breakAccents] introduces. *)
Definition markers : list jsstring := map snd broken.

Definition marker_free (s : jsstring) : bool :=
  forallb (fun m => negb (has_substring m s)) markers.

(** ** The caller

    The lines of [formatAttorneyText] that use the engine: one instance
    serves both names, [animate] is left to its default [false], and index
    7 of each result is read. *)
Definition attorney_names (firstName lastName : jsstring)
  : outcome (option jsstring * option jsstring) :=
  let inflector := fresh in
  match inflect_on inflector firstName false with
  | (Threw e, _) => Threw e
  | (Returned inflectedFirstName, inflector) =>
    match inflect_on inflector lastName false with
    | (Threw e, _) => Threw e
    | (Returned inflectedLastName, _) =>
      Returned (get inflectedFirstName 7, get inflectedLastName 7)
    end
  end.

End Inflection.

(* ================================================================= *)
(** * Checks on the pattern table *)

Module Table.
Import JsString Inflection.

Definition has_unit (c : unit16) (s : jsstring) : bool :=
  existsb (N.eqb c) s.

Definition is_regex (p : row) : bool := startsWith (u "-") (at_ p 1).

(** The compiled specification of a row. *)
Definition atoms_of (p : row) : list atom :=
  compile None (slice_from 1 (at_ p 1)).

Definition is_group (a : atom) : bool :=
  match a with
  | Group _ => true
  | Lit _ => false
  end.

(** The number of groups, hence of captures, of a specification. *)
Definition groups (atoms : list atom) : nat :=
  length (filter is_group atoms).

(** The number of replacements a match of the row stores. *)
Definition stored (p : row) : nat :=
  if is_regex p then groups (atoms_of p) else 0.

(** No letter of a class folds to the digit [d]. *)
Definition classes_avoid (d : unit16) (atoms : list atom) : bool :=
  forallb (fun a => match a with
                    | Group cls =>
                      forallb (fun x => negb (fold_unit x =? d)%N) cls
                    | Lit _ => true
                    end) atoms.

(** The keys "0" and "1" that a row does not capture do not occur in it,
    and a captured letter is not the digit 1: replacements left by an
    earlier match find nothing to replace in the templates of the row. *)
Definition row_ok (p : row) : bool :=
  match stored p with
  | 0 => forallb (fun t => negb (has_unit 48%N t) && negb (has_unit 49%N t)) p
  | 1 => forallb (fun t => negb (has_unit 49%N t)) p
         && classes_avoid 49%N (atoms_of p)
  | 2 => true
  | _ => false
  end.

Definition atom_eqb (a b : atom) : bool :=
  match a, b with
  | Lit x, Lit y => (x =? y)%N
  | Group c, Group d => eqs c d
  | _, _ => false
  end.

Fixpoint atoms_eqb (a b : list atom) : bool :=
  match a, b with
  | [], [] => true
  | x :: a', y :: b' => atom_eqb x y && atoms_eqb a' b'
  | _, _ => false
  end.

(** [q] shadows [p]: same gender, and the specification of [q] is the end
    of the specification of [p], so [q] matches every word [p] matches. *)
Definition shadows (q p : row) : bool :=
  eqs (at_ q 0) (at_ p 0) && is_regex q && is_regex p
  && existsb (fun k => atoms_eqb (skipn k (atoms_of p)) (atoms_of q))
             (seq 0 (S (length (atoms_of p)))).

(** Every row is [row_ok] or shadowed by a row before it; [seen] lists the
    rows before, last first. *)
Fixpoint rows_ok (seen ps : list row) : bool :=
  match ps with
  | [] => true
  | p :: rest =>
    (row_ok p || existsb (fun q => shadows q p) seen)
    && (stored p <=? 2)
    && rows_ok (p :: seen) rest
  end.

(** Two states of the loop over the words that differ in the replacements
    only, which hold at most the two keys a match stores. *)
Definition alike (a b : loop_state) : Prop :=
  gender a = gender b /\ inflected a = inflected b
  /\ length (reps a) <= 2 /\ length (reps b) <= 2.

End Table.

(* ================================================================= *)
(** * Vocabulary for the accent tables *)

Module Pairs.
Import JsString Inflection.

(** The two letters [c1 c2] are a key of [table]. *)
Definition is_key (table : list (jsstring * jsstring)) (c1 c2 : unit16)
  : bool :=
  existsb (fun kv => eqs (fst kv) [c1; c2]) table.

(** No two neighbouring letters of [s] are a key of [table]. *)
Fixpoint free_of (table : list (jsstring * jsstring)) (s : jsstring) : bool :=
  match s with
  | c1 :: (c2 :: _) as tl => negb (is_key table c1 c2) && free_of table tl
  | _ => true
  end.

(** [c] is the first letter of a key of [table]. *)
Definition opens (table : list (jsstring * jsstring)) (c : unit16) : bool :=
  existsb (fun kv => match fst kv with
                     | x :: _ => (x =? c)%N
                     | [] => false
                     end) table.

(** [c] is the second letter of a key of [table]. *)
Definition closes (table : list (jsstring * jsstring)) (c : unit16) : bool :=
  existsb (fun kv => match fst kv with
                     | _ :: y :: _ => (y =? c)%N
                     | _ => false
                     end) table.

(** A table of two-letter keys and values in which no letter of a value can
    begin a key and no first letter of a value can end one: what
    [replace_pairs] writes never takes part in a key. *)
Definition inert (table : list (jsstring * jsstring)) : bool :=
  forallb (fun kv =>
             match fst kv, snd kv with
             | [_; _], [x; y] =>
               negb (opens table x) && negb (opens table y)
               && negb (closes table x)
             | _, _ => false
             end) table.

(** [back] undoes [table]: it maps each value of [table] to its key. *)
Definition undoes (back table : list (jsstring * jsstring)) : bool :=
  forallb (fun kv =>
             match find (fun vk => eqs (fst vk) (snd kv)) back with
             | Some vk => eqs (snd vk) (fst kv)
             | None => false
             end) table.

(** The first letters of the values of [table] end no key of [back], and
    keys and values have two letters. *)
Definition apart (back table : list (jsstring * jsstring)) : bool :=
  forallb (fun kv =>
             match fst kv, snd kv with
             | [_; _], [x; _] => negb (closes back x)
             | _, _ => false
             end) table.

(** [s] contains no key of [table]. *)
Definition avoids (table : list (jsstring * jsstring)) (s : jsstring) : bool :=
  forallb (fun kv => negb (has_substring (fst kv) s)) table.

(** The table of [fixAccents]. *)
Definition fixed : list (jsstring * jsstring) :=
  map (fun kv => (snd kv, fst kv)) broken.

End Pairs.

(* ================================================================= *)
(** * Runs of the loop over the words *)

Module Run.
Import JsString Inflection.

(** The state of the loop over the words at the start of [inflect] on an
    instance whose replacements are [r]. *)
Definition start (r : replacements) : loop_state :=
  {| gender := None; inflected := []; reps := r |}.

(** Every word of [words], processed in this order from the state [st],
    is declined by a pattern and adds one entry. *)
Fixpoint all_declined (animate : bool) (words : list jsstring)
    (st : loop_state) : bool :=
  match words with
  | [] => true
  | word :: rest =>
    match inflect_word animate st word with
    | Returned st' =>
      match selected (gender st) word with
      | Some _ => true
      | None => false
      end
      && (length (inflected st') =? S (length (inflected st)))
      && all_declined animate rest st'
    | Threw _ => false
    end
  end.

End Run.

(* ================================================================= *)
(** * The caption

    The functions of the main script that assemble the caption from the
    extracted data.  The extraction itself reads the page and is not
    modelled: the functions below take the objects it builds. *)

Module Caption.
Import JsString Inflection.

Local Abbreviation E := String.EmptyString.

(** A value read from a property: a string, or [None] for [undefined]
    (and for [null], in the two places where one is stored and only its
    truthiness is read: [formattedBirthdate] and the common attributes). *)
Definition value := option jsstring.

(** The string a value contributes to a template literal or a [+]. *)
Definition str (v : value) : jsstring :=
  match v with
  | Some s => s
  | None => u "undefined"
  end.

(** [a === b] and [a !== b]. *)
Definition same (a b : value) : bool :=
  match a, b with
  | Some x, Some y => eqs x y
  | None, None => true
  | _, _ => false
  end.

Definition differs (a : value) (s : String.string) : bool :=
  negb (same a (Some (u s))).

(** [v || ''] for a string or [undefined]. *)
Definition or_empty (v : value) : jsstring :=
  if truthy v then str v else [].

(** What a call completes with: a value, or an exception. *)
Inductive thrown := TypeErr | ReferenceErr.

Inductive completion (A : Type) :=
| Normal (a : A)
| Throw (e : thrown).
Arguments Normal {A} a.
Arguments Throw {A} e.

(** The properties the caption reads from the details of a person, as
    [fetchPhysicalPersonDetails], [fetchLegalPersonDetails] and
    [fetchOnePersonAuthorityDetails] build them; a property an object does
    not have reads as [undefined]. *)
Record details := {
  firstName : value;
  lastName : value;
  formattedBirthdate : value;
  nationality : value;
  address : value;
  titlesBefore : value;
  titlesAfter : value;
  name : value;
  registrationState : value;
  finalType : value
}.

(** A person as [extractPersonDetails] builds it:
    [{ label, type, ...personDetails, attorney }]. *)
Record person := {
  label : value;
  own : details;
  attorney : details
}.

(** [{ commonNationality, commonAttorney }]; [None] is [null] or
    [undefined]. *)
Record common := {
  commonNationality : value;
  commonAttorney : option details
}.

(** [{ date, ref, defendant, caseNumber }], all strings. *)
Record decision := {
  date : jsstring;
  ref : jsstring;
  defendant : jsstring;
  caseNumber : jsstring
}.

Record court := {
  lowerCourtDecisionRef : jsstring;
  lowerCourtName : jsstring;
  lowerCourtDecisionDate : jsstring;
  lowerCourtDecisionForm : jsstring
}.

Record parties := {
  plaintiffs : list person;
  defendants : list person;
  complainants : list person;
  interestedParties : list person
}.

(** ** [trim] *)

(** White space and line terminators. *)
Definition is_space (c : unit16) : bool :=
  ((9 <=? c) && (c <=? 13) || (c =? 32) || (c =? 0xA0) || (c =? 0x1680)
   || (0x2000 <=? c) && (c <=? 0x200A) || (c =? 0x2028) || (c =? 0x2029)
   || (c =? 0x202F) || (c =? 0x205F) || (c =? 0x3000) || (c =? 0xFEFF))%N.

Fixpoint trimStart (s : jsstring) : jsstring :=
  match s with
  | c :: r => if is_space c then trimStart r else s
  | [] => []
  end.

Definition trimEnd (s : jsstring) : jsstring := rev (trimStart (rev s)).

Definition trim (s : jsstring) : jsstring := trimEnd (trimStart s).

(** [s.endsWith(c)] for a one-letter [c]. *)
Definition endsWith (c : unit16) (s : jsstring) : bool :=
  match rev s with
  | x :: _ => (x =? c)%N
  | [] => false
  end.

(** [list.join(sep)] for a list of strings. *)
Fixpoint join_with (sep : jsstring) (parts : list jsstring) : jsstring :=
  match parts with
  | [] => []
  | [p] => p
  | p :: rest => p ++ sep ++ join_with sep rest
  end.

(** ** The attorney *)

(** A name [inflect] raises on: [undefined], or a text with an empty
    word. *)
Definition unusable (text : value) : bool :=
  match text with
  | Some t => existsb (fun w => match w with
                                | [] => true
                                | _ :: _ => false
                                end) (split (ch " ") t)
  | None => true
  end.

(** [inflector.inflect(text)] for a property that may be [undefined]:
    [text.split] raises on [undefined]. *)
Definition inflect_value (r : replacements) (text : value)
  : outcome entry * replacements :=
  match text with
  | Some t => inflect_on r t false
  | None => (Threw TypeError, r)
  end.

Section Settings.

(** The global [inflectText], set from the message of the popup. *)
Variable inflectText : bool.

(** [calculateAge] reads the clock; the caption is stated for whatever it
    returns, a number of years or [None] for [NaN]. *)
Variable calculateAge : jsstring -> option nat.

(** The template literal that ends [formatAttorneyText]. *)
Definition attorney_text (attorney : details) (firstName lastName : value)
  : jsstring :=
  (if truthy (titlesBefore attorney)
   then str (titlesBefore attorney) ++ u " " else [])
  ++ str firstName ++ u " " ++ str lastName
  ++ (if truthy (titlesAfter attorney)
      then u ", " ++ str (titlesAfter attorney) else [])
  ++ u ", advokátem se sídlem " ++ str (address attorney).

(** [formatAttorneyText(attorney)].  The class [Inflection] is declared in
    the same script, so [typeof Inflection !== 'undefined'] holds. *)
Definition formatAttorneyText (attorney : details) : completion jsstring :=
  if inflectText then
    let inflector := fresh in
    match inflect_value inflector (firstName attorney) with
    | (Threw _, _) => Throw TypeErr
    | (Returned inflectedFirstName, inflector) =>
      match inflect_value inflector (lastName attorney) with
      | (Threw _, _) => Throw TypeErr
      | (Returned inflectedLastName, _) =>
        Normal (attorney_text attorney (get inflectedFirstName 7)
                  (get inflectedLastName 7))
      end
    end
  else Normal (attorney_text attorney (firstName attorney)
                 (lastName attorney)).

(** ** Persons *)

(** [if (!commonAttorney && person.attorney.firstName)
    text += `, zast. ${formatAttorneyText(person.attorney)}`]. *)
Definition with_attorney (no_common : bool) (p : person) (text : value)
  : completion value :=
  if no_common && truthy (firstName (attorney p)) then
    match formatAttorneyText (attorney p) with
    | Normal a => Normal (Some (str text ++ u ", zast. " ++ a))
    | Throw e => Throw e
    end
  else Normal text.

(** [if (person.address && person.address !== 'adresa neznámá')
    text += `, <word> ${person.address}`]. *)
Definition with_address (word : String.string) (p : person) (text : value)
  : value :=
  if truthy (address (own p)) && differs (address (own p)) "adresa neznámá"
  then Some (str text ++ u ", " ++ u word ++ u " " ++ str (address (own p)))
  else text.

Definition is_object (o : option details) : bool :=
  match o with
  | Some _ => true
  | None => false
  end.

Definition formatPhysicalPersonText (p : person) (commonNationality : value)
    (commonAttorney : option details) : completion value :=
  let text :=
    if truthy (titlesBefore (own p))
    then str (titlesBefore (own p)) ++ u " " else [] in
  let text := text ++ str (firstName (own p)) ++ u " "
                   ++ str (lastName (own p)) in
  let text := text ++ if truthy (titlesAfter (own p))
                      then u ", " ++ str (titlesAfter (own p)) else [] in
  let age := if truthy (formattedBirthdate (own p))
             then Some (calculateAge (str (formattedBirthdate (own p))))
             else None in
  let minor := match age with
               | Some (Some years) => years <? 18
               | _ => false
               end in
  let foreign := truthy (nationality (own p))
                 && differs (nationality (own p)) "Česká republika" in
  let text :=
    if (minor || foreign) && truthy (formattedBirthdate (own p))
    then text ++ u ", nar. " ++ str (formattedBirthdate (own p))
    else text in
  let text :=
    if foreign && negb (truthy commonNationality)
    then text ++ u ", státní příslušnost " ++ str (nationality (own p))
    else text in
  let text := with_address "bytem" p (Some text) in
  with_attorney (negb (is_object commonAttorney)) p text.

Definition formatLegalPersonText (p : person) (commonNationality : value)
    (commonAttorney : option details) : completion value :=
  let text := name (own p) in
  let text :=
    if truthy (registrationState (own p))
       && differs (registrationState (own p)) "Česká republika"
       && negb (truthy commonNationality)
    then Some (str text ++ u ", stát registrace "
                 ++ str (registrationState (own p)))
    else text in
  let text := with_address "se sídlem" p text in
  with_attorney (negb (is_object commonAttorney)) p text.

(** [formatOnePersonAuthorityText(person, commonAttorney)] has two
    parameters; its body names [commonNationality], which is bound neither
    in the function nor at the top level of the script, so evaluating it
    raises a [ReferenceError]. *)
Definition formatOnePersonAuthorityText (p : person) (commonAttorney : value)
  : completion value :=
  let text := name (own p) in
  if truthy (registrationState (own p))
     && differs (registrationState (own p)) "Česká republika"
  then Throw ReferenceErr
  else
    let text := with_address "se sídlem" p text in
    with_attorney (negb (truthy commonAttorney)) p text.

(** [text += f(...)] on a string [text]. *)
Definition append (text : jsstring) (c : completion value)
  : completion jsstring :=
  match c with
  | Normal v => Normal (text ++ str v)
  | Throw e => Throw e
  end.

(** [formatPersonText(person, commonAttributes = {})].  The third argument
    of the call of [formatOnePersonAuthorityText] is dropped and its second
    parameter receives [commonNationality]. *)
Definition formatPersonText (p : person) (commonAttributes : common)
  : completion jsstring :=
  let commonNationality := commonNationality commonAttributes in
  let commonAttorney := commonAttorney commonAttributes in
  if same (finalType (own p)) (Some (u "physical")) then
    append [] (formatPhysicalPersonText p commonNationality commonAttorney)
  else if same (finalType (own p)) (Some (u "legal")) then
    append [] (formatLegalPersonText p commonNationality commonAttorney)
  else if same (finalType (own p)) (Some (u "onepersonauthority")) then
    append [] (formatOnePersonAuthorityText p commonNationality)
  else Normal [].

(** The default [{}] of [commonAttributes]. *)
Definition no_common : common :=
  {| commonNationality := None; commonAttorney := None |}.

(** ** Parties *)

(** [getCommonAttributes(parties)]; [parties[0]] of an empty array is
    [undefined] and reading its property raises. *)
Definition getCommonAttributes (parties : list person) : completion common :=
  match parties with
  | [] => Throw TypeErr
  | first :: _ =>
    Normal {|
      commonNationality :=
        if forallb (fun p => same (nationality (own p))
                                  (nationality (own first))) parties
        then nationality (own first) else None;
      commonAttorney :=
        if forallb (fun p =>
                      same (firstName (attorney p)) (firstName (attorney first))
                      && same (lastName (attorney p))
                              (lastName (attorney first))
                      && differs (firstName (attorney p)) E) parties
        then Some (attorney first) else None |}
  end.

(** [partyCount === 2 ? 'oba' : 'všichni']. *)
Definition both_or_all (partyCount : nat) : jsstring :=
  if partyCount =? 2 then u "oba" else u "všichni".

Definition formatCommonAttributes (commonAttributes : common)
    (partyCount : nat) : completion jsstring :=
  let result := [] in
  let result :=
    if truthy (commonNationality commonAttributes)
       && differs (commonNationality commonAttributes) "Česká republika"
    then result ++ u ", " ++ both_or_all partyCount
                ++ u " státní příslušnost "
                ++ str (commonNationality commonAttributes)
    else result in
  match commonAttorney commonAttributes with
  | Some attorney =>
    if differs (firstName attorney) E then
      match formatAttorneyText attorney with
      | Normal a =>
        Normal (result ++ u ", " ++ both_or_all partyCount ++ u " zast. " ++ a)
      | Throw e => Throw e
      end
    else Normal result
  | None => Normal result
  end.

(** [String.fromCharCode(97 + index)]. *)
Definition letter (index : nat) : jsstring :=
  [((97 + N.of_nat index) mod 65536)%N].

(** The [forEach] of [formatMultipleParties], from [index] on; [count] is
    [parties.length]. *)
Fixpoint list_parties (commonAttributes : common) (count index : nat)
    (parties : list person) (result : jsstring) : completion jsstring :=
  match parties with
  | [] => Normal result
  | party :: rest =>
    match formatPersonText party commonAttributes with
    | Throw e => Throw e
    | Normal text =>
      let result := result ++ letter index ++ u ") " ++ text in
      let result := if S index <? count then result ++ u ", " else result in
      list_parties commonAttributes count (S index) rest result
    end
  end.

Definition formatMultipleParties (parties : list person) (role : jsstring)
  : completion jsstring :=
  match getCommonAttributes parties with
  | Throw e => Throw e
  | Normal commonAttributes =>
    match list_parties commonAttributes (length parties) 0 parties
            (role ++ u ": ") with
    | Throw e => Throw e
    | Normal result =>
      match formatCommonAttributes commonAttributes (length parties) with
      | Throw e => Throw e
      | Normal tail => Normal (result ++ tail)
      end
    end
  end.

(** [formatSingleParty(party, role)]; [party] is [undefined] when the
    array of parties is empty, and reading its [finalType] raises. *)
Definition formatSingleParty (party : option person) (role : jsstring)
  : completion jsstring :=
  match party with
  | None => Throw TypeErr
  | Some p =>
    match formatPersonText p no_common with
    | Throw e => Throw e
    | Normal text => Normal (role ++ u ": " ++ text)
    end
  end.

Definition formatParties (parties : list person)
    (pluralRole singularRole : jsstring) : completion jsstring :=
  if 1 <? length parties then formatMultipleParties parties pluralRole
  else formatSingleParty (hd_error parties) singularRole.

(** The [map] of [formatInterestedParties]. *)
Fixpoint interested_texts (interestedParties : list person)
  : completion (list jsstring) :=
  match interestedParties with
  | [] => Normal []
  | party :: rest =>
    match formatPersonText party no_common with
    | Throw e => Throw e
    | Normal text =>
      let formattedText :=
        if truthy (label party) then str (label party) ++ u " " ++ text
        else text in
      match interested_texts rest with
      | Throw e => Throw e
      | Normal texts => Normal (trim formattedText :: texts)
      end
    end
  end.

Definition formatInterestedParties (interestedParties : list person)
  : completion jsstring :=
  match interested_texts interestedParties with
  | Throw e => Throw e
  | Normal texts => Normal (join_with (u ", ") texts)
  end.

(** ** Decisions of the defendants *)

(** [caseNumberPart]: [`sp. zn. ${decision.caseNumber}, `] unless the case
    number is "nevyplněno", else the empty string. *)
Definition caseNumberPart (d : decision) : jsstring :=
  if negb (eqs (caseNumber d) (u "nevyplněno"))
  then u "sp. zn. " ++ caseNumber d ++ u ", " else [].

Definition groupDecisionsByDefendant (defendantDecisions : list decision)
    (defendants : list person) : list (person * list decision) :=
  map (fun who =>
         (who,
          filter (fun d => same (Some (defendant d)) (name (own who)))
                 defendantDecisions))
      defendants.

(** The [map] of [formatDefendantDecisionGroup], from [index] on; [count]
    is [array.length]. *)
Fixpoint decision_texts (prefixFormat : jsstring) (count index : nat)
    (decisions : list decision) : list jsstring :=
  match decisions with
  | [] => []
  | d :: rest =>
    ((if (S index =? count) && (1 <? count) then u "a ze dne "
      else u "ze dne ")
     ++ date d ++ u ", " ++ caseNumberPart d ++ prefixFormat ++ u " "
     ++ ref d)
    :: decision_texts prefixFormat count (S index) rest
  end.

Definition formatDefendantDecisionGroup
    (decisionGroup : person * list decision) (prefixFormat : jsstring)
  : jsstring :=
  let defendantLabel := u "žalovaného " ++ str (label (fst decisionGroup)) in
  let decisions :=
    join_with (u ", ")
      (decision_texts prefixFormat (length (snd decisionGroup)) 0
         (snd decisionGroup)) in
  u " " ++ defendantLabel ++ u " " ++ decisions.

(** The [forEach] of [formatMultipleDefendantDecisions]. *)
Fixpoint group_texts (prefixFormat : jsstring)
    (groups : list (person * list decision)) (result : jsstring) : jsstring :=
  match groups with
  | [] => result
  | g :: rest =>
    let result := result ++ formatDefendantDecisionGroup g prefixFormat in
    let result := match rest with
                  | [] => result
                  | _ :: _ => result ++ u ", a"
                  end in
    group_texts prefixFormat rest result
  end.

Definition formatMultipleDefendantDecisions
    (defendantDecisions : list decision) (defendants : list person)
    (prefixFormat : jsstring) : jsstring :=
  let decisionsByDefendants :=
    groupDecisionsByDefendant defendantDecisions defendants in
  group_texts prefixFormat decisionsByDefendants (u ", proti rozhodnutím")
  ++ u ",".

(** [defendants.length > 1 ? ` ${defendant.label}` : ''], where
    [defendant] is what [find] returned. *)
Definition defendant_label (defendants : list person)
    (found : option person) : completion jsstring :=
  if 1 <? length defendants then
    match found with
    | Some d => Normal (u " " ++ str (label d))
    | None => Throw TypeErr
    end
  else Normal [].

Definition formatDefendantDecisions (defendantDecisions : list decision)
    (defendants : list person) (prefixFormat : jsstring)
  : completion jsstring :=
  match defendantDecisions with
  | [d] =>
    let found :=
      find (fun p => same (name (own p)) (Some (defendant d))) defendants in
    match defendant_label defendants found with
    | Throw e => Throw e
    | Normal lbl =>
      if has_substring (u "zásah") (ref d) then
        Normal (u ", o žalobě na ochranu před nezákonným zásahem žalovaného"
                  ++ lbl ++ u ",")
      else if has_substring (u "nečin") (ref d) then
        Normal (u ", ve věci ochrany proti nečinnosti žalovaného"
                  ++ lbl ++ u ",")
      else
        Normal (u ", proti rozhodnutí žalovaného" ++ lbl ++ u " ze dne "
                  ++ date d ++ u ", " ++ caseNumberPart d ++ prefixFormat
                  ++ u " " ++ ref d ++ u ",")
    end
  | _ =>
    Normal (formatMultipleDefendantDecisions defendantDecisions defendants
              prefixFormat)
  end.

(** ** The complainants *)

(** [complainantNames.includes(p.name)]. *)
Definition is_complainant (complainantNames : list value) (p : person)
  : bool :=
  existsb (same (name (own p))) complainantNames.

(** The inner function [formatComplainants]. *)
Definition formatComplainants (complainants : list person)
    (totalParties : nat) (singularForm pluralForm : jsstring) : jsstring :=
  match complainants with
  | [] => []
  | [c] => trim (singularForm ++ u " " ++ or_empty (label c))
  | _ =>
    if length complainants =? totalParties then pluralForm
    else trim (pluralForm ++ u " "
               ++ join_with (u ", ")
                    (filter (fun l => match l with
                                      | [] => false
                                      | _ :: _ => true
                                      end)
                            (map (fun c => or_empty (label c)) complainants)))
  end.

Definition getComplainantRole (complainants plaintiffs defendants
    interestedParties : list person) (useNavrhovatel : bool) : jsstring :=
  let complainantNames := map (fun c => name (own c)) complainants in
  let plaintiffComplainants :=
    filter (is_complainant complainantNames) plaintiffs in
  let defendantComplainants :=
    filter (is_complainant complainantNames) defendants in
  let interestedPartyComplainants :=
    filter (is_complainant complainantNames) interestedParties in
  let singularPlaintiffRole :=
    if useNavrhovatel then u "navrhovatele" else u "žalobce" in
  let pluralPlaintiffRole :=
    if useNavrhovatel then u "navrhovatelů" else u "žalobců" in
  let singularDefendantRole :=
    if useNavrhovatel then u "odpůrce" else u "žalovaného" in
  let pluralDefendantRole :=
    if useNavrhovatel then u "odpůrců" else u "žalovaných" in
  let complainantRole :=
    if 0 <? length plaintiffComplainants then
      formatComplainants plaintiffComplainants (length plaintiffs)
        singularPlaintiffRole pluralPlaintiffRole
    else if 0 <? length defendantComplainants then
      formatComplainants defendantComplainants (length defendants)
        singularDefendantRole pluralDefendantRole
    else if 0 <? length interestedPartyComplainants then
      formatComplainants interestedPartyComplainants
        (length interestedParties) (u "osoby zúčastněné na řízení")
        (u "osob zúčastněných na řízení")
    else [] in
  trim complainantRole.

(** ** The caption *)

Definition formatInformation (courtDecision : court) (ps : parties)
    (defendantDecisions : list decision) (includeVRizeni : bool)
    (prefixFormat : jsstring) (useNavrhovatel : bool)
  : completion jsstring :=
  let formattedText := u "v právní věci " in
  let plaintiffRole :=
    if useNavrhovatel then u "navrhovatelů" else u "žalobců" in
  let defendantRole :=
    if useNavrhovatel then u "odpůrcům" else u "žalovaným" in
  let singularPlaintiffRole :=
    if useNavrhovatel then u "navrhovatele" else u "žalobce" in
  let singularDefendantRole :=
    if useNavrhovatel then u "odpůrci" else u "žalovanému" in
  match formatParties (plaintiffs ps) plaintiffRole singularPlaintiffRole with
  | Throw e => Throw e
  | Normal text =>
    let formattedText := formattedText ++ text in
    match formatParties (defendants ps) defendantRole
            singularDefendantRole with
    | Throw e => Throw e
    | Normal text =>
      let formattedText := formattedText ++ u ", proti " ++ text in
      match
        (if 0 <? length (interestedParties ps) then
           match formatInterestedParties (interestedParties ps) with
           | Throw e => Throw e
           | Normal text =>
             Normal (formattedText ++ u ", za účasti "
                       ++ (if 1 <? length (interestedParties ps)
                           then u "osob zúčastněných na řízení"
                           else u "osoby zúčastněné na řízení")
                       ++ u ": " ++ text)
           end
         else Normal formattedText)
      with
      | Throw e => Throw e
      | Normal formattedText =>
        match formatDefendantDecisions defendantDecisions (defendants ps)
                prefixFormat with
        | Throw e => Throw e
        | Normal text =>
          let formattedText := formattedText ++ text in
          let complainantRole :=
            getComplainantRole (complainants ps) (plaintiffs ps)
              (defendants ps) (interestedParties ps) useNavrhovatel in
          let complainantRole := trim complainantRole in
          Normal (formattedText
                    ++ (if includeVRizeni then u " v řízení" else [])
                    ++ u " o kasační stížnosti " ++ complainantRole
                    ++ u " proti " ++ lowerCourtDecisionForm courtDecision
                    ++ u " " ++ lowerCourtName courtDecision
                    ++ u " ze dne " ++ lowerCourtDecisionDate courtDecision
                    ++ u ", " ++ prefixFormat ++ u " "
                    ++ lowerCourtDecisionRef courtDecision ++ u ",")
        end
      end
    end
  end.

End Settings.

(** ** Labels and dates *)

(** [formatPersonLabel(row)], as a function of the [innerText] of the
    first cell of the row. *)
Definition formatPersonLabel (innerText : jsstring) : jsstring :=
  let label := trim innerText in
  if truthy (Some label) && negb (endsWith (ch ")") label)
  then label ++ u ")" else label.

(** A number as [parseInt] returns it: [NaN], or an integer with its sign
    (so that [-0] is told from [0]). *)
Inductive number :=
| NaN
| Int (negative : bool) (n : N).

Definition decimal_digit (c : unit16)
  : option (Decimal.uint -> Decimal.uint) :=
  if (c =? 48)%N then Some Decimal.D0
  else if (c =? 49)%N then Some Decimal.D1
  else if (c =? 50)%N then Some Decimal.D2
  else if (c =? 51)%N then Some Decimal.D3
  else if (c =? 52)%N then Some Decimal.D4
  else if (c =? 53)%N then Some Decimal.D5
  else if (c =? 54)%N then Some Decimal.D6
  else if (c =? 55)%N then Some Decimal.D7
  else if (c =? 56)%N then Some Decimal.D8
  else if (c =? 57)%N then Some Decimal.D9
  else None.

(** The longest prefix of decimal digits. *)
Fixpoint decimal_prefix (s : jsstring) : Decimal.uint :=
  match s with
  | c :: r =>
    match decimal_digit c with
    | Some d => d (decimal_prefix r)
    | None => Decimal.Nil
    end
  | [] => Decimal.Nil
  end.

Definition hexadecimal_digit (c : unit16)
  : option (Hexadecimal.uint -> Hexadecimal.uint) :=
  if (c =? 48)%N then Some Hexadecimal.D0
  else if (c =? 49)%N then Some Hexadecimal.D1
  else if (c =? 50)%N then Some Hexadecimal.D2
  else if (c =? 51)%N then Some Hexadecimal.D3
  else if (c =? 52)%N then Some Hexadecimal.D4
  else if (c =? 53)%N then Some Hexadecimal.D5
  else if (c =? 54)%N then Some Hexadecimal.D6
  else if (c =? 55)%N then Some Hexadecimal.D7
  else if (c =? 56)%N then Some Hexadecimal.D8
  else if (c =? 57)%N then Some Hexadecimal.D9
  else if (c =? 97)%N || (c =? 65)%N then Some Hexadecimal.Da
  else if (c =? 98)%N || (c =? 66)%N then Some Hexadecimal.Db
  else if (c =? 99)%N || (c =? 67)%N then Some Hexadecimal.Dc
  else if (c =? 100)%N || (c =? 68)%N then Some Hexadecimal.Dd
  else if (c =? 101)%N || (c =? 69)%N then Some Hexadecimal.De
  else if (c =? 102)%N || (c =? 70)%N then Some Hexadecimal.Df
  else None.

Fixpoint hexadecimal_prefix (s : jsstring) : Hexadecimal.uint :=
  match s with
  | c :: r =>
    match hexadecimal_digit c with
    | Some d => d (hexadecimal_prefix r)
    | None => Hexadecimal.Nil
    end
  | [] => Hexadecimal.Nil
  end.

(** [parseInt(text)] without a radix: leading white space is dropped, a
    sign is read, the prefix [0x] or [0X] selects base 16, and the digits
    are read up to the first letter that is none; without a digit the
    result is [NaN]. *)
Definition parseInt (text : value) : number :=
  let S := trimStart (str text) in
  let negative := match S with
                  | c :: _ => (c =? ch "-")%N
                  | [] => false
                  end in
  let S := match S with
           | c :: r => if (c =? ch "+")%N || (c =? ch "-")%N then r else S
           | [] => S
           end in
  match S with
  | c0 :: c1 :: r =>
    if (c0 =? ch "0")%N && ((c1 =? ch "x")%N || (c1 =? ch "X")%N) then
      match hexadecimal_prefix r with
      | Hexadecimal.Nil => NaN
      | digits => Int negative (N.of_hex_uint digits)
      end
    else
      match decimal_prefix S with
      | Decimal.Nil => NaN
      | digits => Int negative (N.of_uint digits)
      end
  | _ =>
    match decimal_prefix S with
    | Decimal.Nil => NaN
    | digits => Int negative (N.of_uint digits)
    end
  end.

Fixpoint units_of_uint (d : Decimal.uint) : jsstring :=
  match d with
  | Decimal.Nil => []
  | Decimal.D0 r => 48%N :: units_of_uint r
  | Decimal.D1 r => 49%N :: units_of_uint r
  | Decimal.D2 r => 50%N :: units_of_uint r
  | Decimal.D3 r => 51%N :: units_of_uint r
  | Decimal.D4 r => 52%N :: units_of_uint r
  | Decimal.D5 r => 53%N :: units_of_uint r
  | Decimal.D6 r => 54%N :: units_of_uint r
  | Decimal.D7 r => 55%N :: units_of_uint r
  | Decimal.D8 r => 56%N :: units_of_uint r
  | Decimal.D9 r => 57%N :: units_of_uint r
  end.

(** The text of a number in a template literal.  An integer of
    [parseInt] is a double; below 2^53 it is exact and its text is its
    decimal writing.  Larger ones are rounded and are left out: [None]. *)
Definition number_text (x : number) : option jsstring :=
  match x with
  | NaN => Some (u "NaN")
  | Int negative n =>
    if (n <? 2 ^ 53)%N then
      Some ((if negative && negb (n =? 0)%N then u "-" else [])
            ++ units_of_uint (N.to_uint n))
    else None
  end.

(** [formatDate(dateString)]. *)
Definition formatDate (dateString : jsstring) : option jsstring :=
  let parts := split (ch ".") dateString in
  let day := nth_error parts 0 in
  let month := nth_error parts 1 in
  let year := nth_error parts 2 in
  match number_text (parseInt day), number_text (parseInt month) with
  | Some d, Some m => Some (d ++ u ". " ++ m ++ u ". " ++ str year)
  | _, _ => None
  end.

(** A decimal writing without its leading zeros; the last digit stays. *)
Fixpoint strip_zeros (s : jsstring) : jsstring :=
  match s with
  | c :: (_ :: _) as r => if (c =? 48)%N then strip_zeros r else s
  | _ => s
  end.

Definition all_digits (s : jsstring) : bool :=
  forallb (fun c => (48 <=? c)%N && (c <=? 57)%N) s.

(** ** Vocabulary of the statements *)

(** A string without white space at either end. *)
Definition tidy (s : jsstring) : Prop :=
  match s with
  | [] => True
  | c :: _ => is_space c = false /\ is_space (last s c) = false
  end.

(** An attorney [formatAttorneyText] is not called for, or whose names
    [inflect] accepts. *)
Definition declinable (inflectText : bool) (a : details) : bool :=
  negb inflectText
  || same (firstName a) (Some [])
  || negb (unusable (firstName a) || unusable (lastName a)).

(** A one-person authority registered outside "Česká republika". *)
Definition foreign_authority (p : person) : bool :=
  same (finalType (own p)) (Some (u "onepersonauthority"))
  && truthy (registrationState (own p))
  && differs (registrationState (own p)) "Česká republika".

Definition printable (inflectText : bool) (p : person) : bool :=
  negb (foreign_authority p) && declinable inflectText (attorney p).

(** The decisions [groupDecisionsByDefendant] puts in a group. *)
Definition matched (defendants : list person) (d : decision) : bool :=
  existsb (fun who => same (Some (defendant d)) (name (own who))) defendants.

End Caption.

(* ================================================================= *)
(** * The decision of the lower court *)

Module Court.
Import JsString Inflection Caption.

(** The value [extractCourtDecision()] gives to [lowerCourtName], as a
    function of the [innerText] of the cell it reads the name from. *)
Definition courtName (innerText : jsstring) : jsstring :=
  let lowerCourtName := trim innerText in
  let lowerCourtName :=
    if has_substring (u "Krajský") lowerCourtName then
      replace_first (u "Krajský") (u "Krajského") lowerCourtName
    else if has_substring (u "Městský") lowerCourtName then
      replace_first (u "Městský") (u "Městského") lowerCourtName
    else if has_substring (u "Okresní") lowerCourtName then
      replace_first (u "Okresní") (u "Okresního") lowerCourtName
    else lowerCourtName in
  if has_substring (u " soud ") lowerCourtName then
    replace_first (u " soud ") (u " soudu ") lowerCourtName
  else lowerCourtName.

(** The adjectives [courtName] puts in the genitive, in the order in which
    it looks for them. *)
Definition adjectives : list (jsstring * jsstring) :=
  [(u "Krajský", u "Krajského"); (u "Městský", u "Městského");
   (u "Okresní", u "Okresního")].

End Court.

(* ================================================================= *)
(** * The popup: is there a newer version? *)

Module Popup.

(** A part of a version after [split('.').map(Number)]: [None] is [NaN],
    [Some n] the integer [n].  (Parts that [Number] reads as a negative,
    infinite or fractional number are not modelled.) *)
Definition part := option N.

(** [currentParts[i] || 0]: a missing part, [NaN] and [0] all give 0. *)
Definition or_zero (currentParts : list part) (i : nat) : N :=
  match nth_error currentParts i with
  | Some (Some n) => n
  | _ => 0%N
  end.

(** The loop of [isNewerVersion], from index [i] on; [rest] holds
    [latestParts[i]], [latestParts[i + 1]], ...  A comparison with [NaN]
    is false both ways. *)
Fixpoint newer_from (currentParts : list part) (i : nat) (rest : list part)
  : bool :=
  match rest with
  | [] => false
  | latest :: rest' =>
    match latest with
    | Some l =>
      if (or_zero currentParts i <? l)%N then true
      else if (l <? or_zero currentParts i)%N then false
      else newer_from currentParts (S i) rest'
    | None => newer_from currentParts (S i) rest'
    end
  end.

Definition isNewerVersion (currentParts latestParts : list part) : bool :=
  newer_from currentParts 0 latestParts.

End Popup.

(* ================================================================= *)
(** * A case

    The objects of a small case, as the extraction would build them: one
    plaintiff with an attorney, a ministry as the defendant, one decision
    of the ministry. *)

Module Sample.
Import JsString Inflection Caption.

(** What [fetchAttorney] returns when a person has no attorney. *)
Definition nobody : details :=
  {| firstName := Some []; lastName := Some []; formattedBirthdate := None;
     nationality := None; address := Some [];
     titlesBefore := Some []; titlesAfter := Some [];
     name := None; registrationState := None; finalType := None |}.

Definition physical (first last : String.string) : details :=
  {| firstName := Some (u first); lastName := Some (u last);
     formattedBirthdate := Some (u "1. 2. 1980");
     nationality := Some (u "Česká republika");
     address := Some (u "Praha"); titlesBefore := Some [];
     titlesAfter := Some []; name := None; registrationState := None;
     finalType := Some (u "physical") |}.

Definition advocate : details :=
  {| firstName := Some (u "Petr"); lastName := Some (u "Svoboda");
     formattedBirthdate := None; nationality := Some [];
     address := Some (u "Brno"); titlesBefore := Some (u "Mgr.");
     titlesAfter := Some []; name := None; registrationState := None;
     finalType := Some (u "physical") |}.

Definition jan : person :=
  {| label := Some []; own := physical "Jan" "Novák"; attorney := advocate |}.

Definition eva : person :=
  {| label := Some (u "b)"); own := physical "Eva" "Malá";
     attorney := nobody |}.

Definition office : person :=
  {| label := Some [];
     own := {| firstName := None; lastName := None;
               formattedBirthdate := None; nationality := None;
               address := Some (u "Praha 7"); titlesBefore := None;
               titlesAfter := None; name := Some (u "Ministerstvo vnitra");
               registrationState := Some [];
               finalType := Some (u "legal") |};
     attorney := nobody |}.

(** A one-person authority registered abroad. *)
Definition minister : person :=
  {| label := Some [];
     own := {| firstName := None; lastName := None;
               formattedBirthdate := None; nationality := None;
               address := Some (u "Bratislava"); titlesBefore := None;
               titlesAfter := None; name := Some (u "ministr vnitra");
               registrationState := Some (u "Slovensko");
               finalType := Some (u "onepersonauthority") |};
     attorney := nobody |}.

(** A one-person authority with the attorney of [jan]. *)
Definition mayor : person :=
  {| label := Some [];
     own := {| firstName := None; lastName := None;
               formattedBirthdate := None; nationality := None;
               address := Some (u "Lhota 1"); titlesBefore := None;
               titlesAfter := None; name := Some (u "starosta obce Lhota");
               registrationState := Some [];
               finalType := Some (u "onepersonauthority") |};
     attorney := advocate |}.

Definition case : parties :=
  {| plaintiffs := [jan]; defendants := [office]; complainants := [jan];
     interestedParties := [] |}.

Definition courtDecision : court :=
  {| lowerCourtDecisionRef := u "10 A 1/2020 - 30";
     lowerCourtName := u "Městského soudu v Praze";
     lowerCourtDecisionDate := u "5. 3. 2021";
     lowerCourtDecisionForm := u "rozsudku" |}.

Definition decided : decision :=
  {| date := u "1. 2. 2020"; ref := u "MV-1/2020";
     defendant := u "Ministerstvo vnitra"; caseNumber := u "nevyplněno" |}.

(** [calculateAge] at a time when every person of the case is 40. *)
Definition age (birthdate : jsstring) : option nat := Some 40.

End Sample.

(* ================================================================= *)
(** * Declension under a gender

    What the loop body does with a word once the gender variable holds a
    gender, read off its lines: the search restricted to the patterns of
    that gender, and the entry written for the pattern found. *)

Module Agreement.
Import JsString Inflection.

(** [baseWord] for the word [original]: the stem of its exception, or the
    accent-broken word. *)
Definition base_of (original : jsstring) : jsstring :=
  let word := breakAccents original in
  match find_exception (toLowerCase word) with
  | Some e => at_ e 1
  | None => word
  end.

(** The first pattern of [ps] whose gender is [g] and which matches
    [baseWord], with the index [match] returns for it. *)
Fixpoint first_of_gender (g : jsstring) (baseWord : jsstring)
    (ps : list row) : option (row * nat) :=
  match ps with
  | [] => None
  | p :: rest =>
    if eqs (at_ p 0) g then
      match fst (match_ fresh (at_ p 1) baseWord) with
      | Some left_ => Some (p, left_)
      | None => first_of_gender g baseWord rest
      end
    else first_of_gender g baseWord rest
  end.

(** [inflectedWord] as the loop over [caseIndex] fills it when [pattern]
    has matched with index [left_], on an instance that held the
    replacements [r] before the match. *)
Definition declined_by (animate : bool) (r : replacements)
    (original : jsstring) (pattern : row) (left_ : nat) : entry :=
  let isUpper := eqs (slice_to 1 original)
                     (toUpperCase (slice_to 1 original)) in
  let exception := find_exception (toLowerCase (breakAccents original)) in
  let baseWord := base_of original in
  let prefix := slice_to left_ baseWord in
  let reps' := snd (match_ r (at_ pattern 1) baseWord) in
  None :: Some original
    :: map (fun caseIndex =>
              Some (form animate isUpper exception pattern prefix reps'
                      caseIndex))
           (seq 2 13).

(** What the loop body pushes for [original] when the gender is [g]: the
    entry of the first pattern of gender [g] that matches, followed by the
    fallback entry when form 2 of that entry is empty; the fallback entry
    alone when no pattern of gender [g] matches. *)
Definition pushed_under (animate : bool) (r : replacements) (g : jsstring)
    (original : jsstring) : list entry :=
  match first_of_gender g (base_of original) patterns with
  | Some (pattern, left_) =>
    let inflectedWord := declined_by animate r original pattern left_ in
    if truthy (get inflectedWord 2) then [inflectedWord]
    else [inflectedWord; passthrough (breakAccents original)]
  | None => [passthrough (breakAccents original)]
  end.

End Agreement.

(* ================================================================= *)
(** * Properties *)

Import JsString Inflection Table.

(** ** Shape of the tables *)

Lemma patterns_rows : forallb (fun p : row => length p =? 15) patterns = true.
Proof. vm_compute. reflexivity. Qed.

Lemma exceptions_rows :
  forallb (fun e : row => length e =? 3) exceptions = true.
Proof. vm_compute. reflexivity. Qed.

(** Every match specification that is a regular expression is read back
    from its compiled form letter for letter. *)
Lemma compile_source :
  forallb (fun p : row =>
             negb (startsWith (u "-") (at_ p 1))
             || eqs (source (compile None (slice_from 1 (at_ p 1))))
                    (slice_from 1 (at_ p 1)))
          patterns = true.
Proof. vm_compute. reflexivity. Qed.

(** Only the row of "-io" fails [row_ok]; the row of "-o" for the same
    gender stands before it. *)
Lemma patterns_ok : rows_ok [] patterns = true.
Proof. vm_compute. reflexivity. Qed.

Lemma io_row_shadowed :
  filter (fun p => negb (row_ok p)) patterns
  = filter (fun p => eqs (at_ p 1) (u "-io")) patterns.
Proof. vm_compute. reflexivity. Qed.

(** ** Evaluations *)

(** C1, as stated: slot 8 of [inflect("Novák")] is the nominative plural
    "Nováky"; the instrumental "Novákem" is not in slot 8. *)
Lemma C1_slot_8_is_nominative_plural :
  slot (inflect (u "Novák") false) 8 = Some (u "Nováky")
  /\ slot (inflect (u "Novák") false) 8 <> Some (u "Novákem")
  /\ slot (inflect (u "pes") false) 8 <> Some (u "psem").
Proof. vm_compute. repeat split; discriminate. Qed.

(** C1, amended: the instrumental case is slot 7, the index that
    [formatAttorneyText] reads.  [inflect("Novák")] with [animate = false]
    has "Novákem" there and [inflect("pes")] has "psem", built from the
    exception stem "ps"; slot 8 holds the nominative plurals "Nováky" and
    "psy". *)
Theorem C1_instrumental_is_slot_7 :
  slot (inflect (u "Novák") false) 7 = Some (u "Novákem")
  /\ slot (inflect (u "Novák") false) 8 = Some (u "Nováky")
  /\ find_exception (u "pes") = Some [u "pes"; u "ps"; u "psa"]
  /\ slot (inflect (u "pes") false) 7 = Some (u "psem")
  /\ slot (inflect (u "pes") false) 8 = Some (u "psy")
  /\ attorney_names (u "Jan") (u "Novák")
     = Returned (Some (u "Janem"), Some (u "Novákem")).
Proof. vm_compute. repeat split. Qed.

(** On the empty string [inflect] raises a [TypeError] instead of
    returning. *)
Lemma inflect_empty_string_throws :
  inflect [] false = Threw TypeError
  /\ ~ exists forms, inflect [] false = Returned forms.
Proof.
  split; [reflexivity|].
  intros [forms H]. discriminate H.
Qed.

(** C3: "Billy" and "Martinu" match no pattern, yet slot 14 is the empty
    string, and the other slots of "Martinu" hold its accent-broken form
    "Marťinu" rather than the word. *)
Theorem C3_passthrough_is_not_the_word :
  selected None (u "Billy") = None
  /\ slot (inflect (u "Billy") false) 13 = Some (u "Billy")
  /\ slot (inflect (u "Billy") false) 14 = Some []
  /\ selected None (u "Martinu") = None
  /\ Forall (fun k => slot (inflect (u "Martinu") false) k
                      = Some (u "Marťinu")) (seq 1 13)
  /\ slot (inflect (u "Martinu") false) 14 = Some [].
Proof. vm_compute. repeat split; repeat constructor. Qed.

(** C4: slot 1 of [inflect("Martinu")] is "Marťinu" and slot 1 of
    [inflect("my")] is "my my"; neither is the input. *)
Theorem C4_slot_1_differs_from_input :
  slot (inflect (u "Martinu") false) 1 = Some (u "Marťinu")
  /\ slot (inflect (u "Martinu") true) 1 = Some (u "Marťinu")
  /\ slot (inflect (u "Martinu") false) 1 <> Some (u "Martinu")
  /\ slot (inflect (u "my") false) 1 = Some (u "my my")
  /\ slot (inflect (u "my") false) 1 <> Some (u "my").
Proof. vm_compute. repeat split; discriminate. Qed.

(** C5: "Martinu" contains the digraph "ti"; slots 1 to 13 of its result
    contain the marker "ťi". *)
Theorem C5_marker_left_in_passthrough :
  has_substring (u "ti") (u "Martinu") = true
  /\ slot (inflect (u "Martinu") false) 2 = Some (u "Marťinu")
  /\ forallb (fun k => match slot (inflect (u "Martinu") false) k with
                       | Some s => has_substring (u "ťi") s
                                   && negb (marker_free s)
                       | None => false
                       end) (seq 1 13) = true.
Proof. vm_compute. repeat split. Qed.

(** C7: the exception ("luděk", "luďk", "luďka") is never found, because
    the looked-up word is accent-broken ("luďek") and the key is not; the
    forms of "luděk" are built on the prefix "luďe" of the word, not on the
    stem "luďk". *)
Theorem C7_exception_ludek_not_applied :
  In [u "luděk"; u "luďk"; u "luďka"] exceptions
  /\ find_exception (toLowerCase (breakAccents (u "luděk"))) = None
  /\ find_exception (toLowerCase (breakAccents (u "Luděk"))) = None
  /\ slot (inflect (u "luděk") false) 2 = Some (u "luděku")
  /\ slot (inflect (u "luděk") false) 7 = Some (u "luděkem")
  /\ slot (inflect (u "Luděk") false) 7 = Some (u "Luděkem").
Proof.
  split; [|vm_compute; repeat split].
  unfold exceptions. repeat (first [left; reflexivity | right]).
Qed.

(** C8: the pattern of "Novák" has the template "0y/0ové" for slot 8.  With
    [animate = false] the form is "Nováky"; with [animate = true] the
    alternative after the marker keeps its back-reference unreplaced and
    the form is "Nová0ové". *)
Theorem C8_animate_alternative_keeps_placeholder :
  (exists p, selected None (u "Novák") = Some p
             /\ at_ p 1 = u "-([k])" /\ at_ p 8 = u "0y/0ové")
  /\ slot (inflect (u "Novák") false) 8 = Some (u "Nováky")
  /\ slot (inflect (u "Novák") true) 8 = Some (u "Nová0ové")
  /\ slot (inflect (u "Novák") true) 2 = Some (u "Nová0a")
  /\ replace_first (index_key 0) (u "k") (u "0y/0ové") = u "ky/0ové".
Proof.
  split; [eexists; split; [vm_compute; reflexivity|]|]; vm_compute;
    repeat split.
Qed.

(** C10: "luděk" is in the exception table with override "luďka" and its
    stem "luďk" matches a pattern, yet slot 4 of [inflect("luděk")] is
    "luděk", not "Luďka"; for "pes" slot 4 is "Psa". *)
Theorem C10_ludek_slot_4_not_overridden :
  In [u "luděk"; u "luďk"; u "luďka"] exceptions
  /\ (exists p left_,
        fst (first_match None (u "luďk") patterns fresh) = Some (p, left_))
  /\ capitalize (u "luďka") = u "Luďka"
  /\ slot (inflect (u "luděk") false) 4 = Some (u "luděk")
  /\ slot (inflect (u "luděk") false) 4 <> Some (u "Luďka")
  /\ slot (inflect (u "pes") false) 4 = Some (u "Psa").
Proof.
  split; [unfold exceptions; repeat (first [left; reflexivity | right])|].
  split; [do 2 eexists; vm_compute; reflexivity|].
  vm_compute. repeat split. discriminate.
Qed.

(** ** Strings *)

Lemma eqs_eq (a b : jsstring) : eqs a b = true <-> a = b.
Proof.
  revert b. induction a as [|x a IH]; intros [|y b]; simpl;
    try (split; [discriminate | discriminate]); [tauto|].
  rewrite andb_true_iff, N.eqb_eq, IH.
  split; [intros [-> ->]; reflexivity | intros H; inversion H; auto].
Qed.

(** ** Returning and raising *)

Lemma inflect_word_returns animate st c w :
  exists st', inflect_word animate st (c :: w) = Returned st'.
Proof.
  unfold inflect_word.
  destruct (first_match _ _ _ _) as [[[p l]|] r']; eexists; reflexivity.
Qed.

Lemma inflect_words_returns animate words :
  ~ In [] words ->
  forall st, exists st', fst (inflect_words animate words st) = Returned st'.
Proof.
  induction words as [|w words IH]; intros Hne st; simpl.
  - eexists; reflexivity.
  - destruct w as [|c w]; [exfalso; apply Hne; left; reflexivity|].
    destruct (inflect_word_returns animate st c w) as [st1 ->].
    apply IH. intros H; apply Hne; right; exact H.
Qed.

Lemma inflect_words_throws animate words :
  In [] words ->
  forall st, fst (inflect_words animate words st) = Threw TypeError.
Proof.
  induction words as [|w words IH]; intros Hin st; simpl; [destruct Hin|].
  destruct w as [|c w]; [reflexivity|].
  destruct (inflect_word_returns animate st c w) as [st1 ->].
  apply IH. destruct Hin as [H|H]; [discriminate H | exact H].
Qed.

Lemma assemble_length inflected : length (assemble inflected) = 15.
Proof. reflexivity. Qed.

Lemma assemble_get inflected k :
  1 <= k <= 14 ->
  get (assemble inflected) k
  = Some (join (ch " ") (map (fun word => get word k) (rev inflected))).
Proof.
  intros Hk. unfold assemble, get.
  do 15 (destruct k as [|k]; [try reflexivity; lia|]). lia.
Qed.

(** [inflect] returns, without raising, for every input none of whose
    space-separated words is empty, whether or not its words match a
    pattern; the result has a hole at index 0 and a string in each of the
    slots 1 to 14. *)
Lemma inflect_returns_without_empty_word r text animate :
  ~ In [] (split (ch " ") text) ->
  exists forms,
    fst (inflect_on r text animate) = Returned forms
    /\ length forms = 15
    /\ get forms 0 = None
    /\ forall k, 1 <= k <= 14 -> exists s, get forms k = Some s.
Proof.
  intros Hne. unfold inflect_on.
  destruct (inflect_words_returns animate (rev (split (ch " ") text)))
    with (st := {| gender := None; inflected := []; reps := r |})
    as [st' Hst'].
  { rewrite <- in_rev. exact Hne. }
  destruct (inflect_words _ _ _) as [o r']. simpl in Hst'. subst o. simpl.
  eexists. split; [reflexivity|]. split; [reflexivity|].
  split; [reflexivity|].
  intros k Hk. rewrite assemble_get by exact Hk. eexists; reflexivity.
Qed.

Lemma inflect_returns_Jan_Novak :
  ~ In [] (split (ch " ") (u "Jan Novák"))
  /\ exists forms,
       fst (inflect_on fresh (u "Jan Novák") false) = Returned forms
       /\ length forms = 15
       /\ get forms 0 = None
       /\ forall k, 1 <= k <= 14 -> exists s, get forms k = Some s.
Proof.
  assert (H : ~ In [] (split (ch " ") (u "Jan Novák"))).
  { vm_compute. intros [H|[H|[]]]; discriminate H. }
  split; [exact H|].
  exact (inflect_returns_without_empty_word fresh (u "Jan Novák") false H).
Defined.

(** The other direction: an empty word, as in the empty string or next to
    a leading, trailing or doubled space, makes [inflect] raise. *)
Lemma inflect_throws_on_empty_word r text animate :
  In [] (split (ch " ") text) ->
  fst (inflect_on r text animate) = Threw TypeError.
Proof.
  intros Hin. unfold inflect_on.
  pose proof (inflect_words_throws animate (rev (split (ch " ") text)))
    as H.
  specialize (H (proj1 (in_rev _ _) Hin)
                {| gender := None; inflected := []; reps := r |}).
  destruct (inflect_words _ _ _) as [o r']. simpl in H. subst o. reflexivity.
Qed.

(** ** The search of the pattern loop *)

Section Search.

Variables (g : option jsstring) (baseWord : jsstring).

(** What [match] returns does not depend on the replacements. *)
Lemma match_fst r r' pattern word :
  fst (match_ r pattern word) = fst (match_ r' pattern word).
Proof.
  unfold match_. destruct (negb _); [reflexivity|].
  destruct (exec _ _); reflexivity.
Qed.

(** A failed [match] leaves the replacements alone. *)
Lemma match_failed r pattern word :
  fst (match_ r pattern word) = None -> snd (match_ r pattern word) = r.
Proof.
  unfold match_. destruct (negb _); [reflexivity|].
  destruct (exec _ _); [discriminate | reflexivity].
Qed.

Lemma first_match_fst ps r r' :
  fst (first_match g baseWord ps r) = fst (first_match g baseWord ps r').
Proof.
  revert r r'. induction ps as [|p ps IH]; intros r r'; simpl; [reflexivity|].
  destruct (skipped g p); [apply IH|].
  pose proof (match_fst r r' (at_ p 1) baseWord) as Hf.
  pose proof (match_failed r (at_ p 1) baseWord) as H1.
  pose proof (match_failed r' (at_ p 1) baseWord) as H2.
  destruct (match_ r _ _) as [[l|] r1], (match_ r' _ _) as [[l'|] r1'];
    simpl in *; try discriminate.
  - congruence.
  - rewrite H1, H2 by reflexivity. apply IH.
Qed.

(** The replacements after the search are those the selected pattern
    stored, or the old ones when no pattern matched. *)
Lemma first_match_snd ps r :
  snd (first_match g baseWord ps r)
  = match fst (first_match g baseWord ps r) with
    | Some (p, _) => snd (match_ r (at_ p 1) baseWord)
    | None => r
    end.
Proof.
  induction ps as [|p ps IH]; simpl; [reflexivity|].
  destruct (skipped g p); [apply IH|].
  pose proof (match_failed r (at_ p 1) baseWord) as H1.
  destruct (match_ r _ _) as [[l|] r1] eqn:Hm; simpl in *.
  - rewrite Hm. reflexivity.
  - rewrite H1 by reflexivity. apply IH.
Qed.

(** The selected pattern is in the table, is not passed over and
    matches. *)
Lemma first_match_sound ps r p left_ :
  fst (first_match g baseWord ps r) = Some (p, left_) ->
  In p ps /\ skipped g p = false
  /\ fst (match_ fresh (at_ p 1) baseWord) = Some left_.
Proof.
  revert r. induction ps as [|q ps IH]; intros r; simpl; [discriminate|].
  destruct (skipped g q) eqn:Hs.
  - intros H. destruct (IH _ H) as (? & ? & ?). auto.
  - pose proof (match_fst r fresh (at_ q 1) baseWord) as Hf.
    pose proof (match_failed r (at_ q 1) baseWord) as H1.
    destruct (match_ r _ _) as [[l|] r1]; simpl in *.
    + intros H. inversion H; subst. auto.
    + intros H. destruct (IH _ H) as (? & ? & ?). auto.
Qed.

End Search.

(** ** Gender *)

Lemma skipped_established g p :
  g <> [] -> skipped (Some g) p = false -> at_ p 0 = g.
Proof.
  intros Hg. unfold skipped, truthy.
  destruct g as [|c g]; [contradiction|]. simpl.
  intros H. apply negb_false_iff, eqs_eq in H. exact H.
Qed.

Lemma inflect_word_keeps_gender animate st word st' g :
  gender st = Some g -> g <> [] ->
  inflect_word animate st word = Returned st' ->
  gender st' = Some g.
Proof.
  intros Hg Hne. unfold inflect_word.
  destruct word as [|c0 word]; [discriminate|].
  rewrite Hg. simpl force.
  destruct (first_match _ _ _ _) as [[[p l]|] r'] eqn:Hfm;
    intros H; injection H as <-; cbn [gender]; [|reflexivity].
  apply (f_equal fst) in Hfm. cbn [fst] in Hfm.
  apply first_match_sound in Hfm. destruct Hfm as (_ & Hs & _).
  rewrite (skipped_established g p Hne Hs). reflexivity.
Qed.

Lemma inflect_words_keep_gender animate words :
  forall st st' r g,
    gender st = Some g -> g <> [] ->
    inflect_words animate words st = (Returned st', r) ->
    gender st' = Some g.
Proof.
  induction words as [|w words IH]; intros st st' r g Hg Hne; simpl.
  - intros H. inversion H; subst. exact Hg.
  - destruct (inflect_word animate st w) as [st1|e] eqn:Hw; [|discriminate].
    apply IH with (g := g); [|exact Hne].
    exact (inflect_word_keeps_gender animate st w st1 g Hg Hne Hw).
Qed.


(** Once the gender variable holds a gender [g] (set by a word further
    right, which is processed first), it still holds [g] after any number
    of further words, and the pattern selected for each remaining word has
    gender [g].  The empty tag of the two plural-only patterns is no
    gender: it is falsy and constrains nothing. *)
Lemma gender_kept_by_remaining_words
    animate (st st' : loop_state) (between : list jsstring)
    (word : jsstring) r g :
  gender st = Some g -> g <> [] ->
  inflect_words animate between st = (Returned st', r) ->
  gender st' = Some g
  /\ (forall p, selected (gender st') word = Some p -> at_ p 0 = g)
  /\ (forall st'', inflect_word animate st' word = Returned st'' ->
                   gender st'' = Some g).
Proof.
  intros Hg Hne Hrun.
  assert (Hg' : gender st' = Some g)
    by exact (inflect_words_keep_gender animate between st st' r g Hg Hne Hrun).
  split; [exact Hg'|]. split.
  - intros p. rewrite Hg'. unfold selected. simpl force.
    destruct (first_match _ _ _ _) as [[[q l]|] r'] eqn:Hfm; [|discriminate].
    cbn [fst option_map]. intros H; injection H as ->.
    apply (f_equal fst) in Hfm. cbn [fst] in Hfm.
    apply first_match_sound in Hfm. destruct Hfm as (_ & Hs & _).
    exact (skipped_established g p Hne Hs).
  - intros st'' Hw.
    exact (inflect_word_keeps_gender animate st' word st'' g Hg' Hne Hw).
Qed.

(** In "Jana Nováková" the word "Nováková" is processed first and sets the
    gender to "f"; the pattern then selected for "Jana" is a feminine
    one. *)
Lemma gender_kept_Jana_Novakova :
  let init := {| gender := None; inflected := []; reps := fresh |} in
  rev (split (ch " ") (u "Jana Nováková")) = [u "Nováková"; u "Jana"]
  /\ exists st r,
       inflect_words false [u "Nováková"] init = (Returned st, r)
       /\ gender st = Some (u "f")
       /\ (exists p, selected (gender st) (u "Jana") = Some p
                     /\ at_ p 1 = u "-([tdbnvmp])a")
       /\ (forall p, selected (gender st) (u "Jana") = Some p ->
                     at_ p 0 = u "f")
       /\ (forall st'', inflect_word false st (u "Jana") = Returned st'' ->
                        gender st'' = Some (u "f")).
Proof.
  intros init. split; [vm_compute; reflexivity|].
  pose (run := inflect_words false [u "Nováková"] init).
  pose (st := match fst run with Returned st => st | Threw _ => init end).
  assert (Hg : gender st = Some (u "f")) by (vm_compute; reflexivity).
  assert (Hne : u "f" <> []) by (vm_compute; discriminate).
  exists st, (snd run).
  split; [vm_compute; reflexivity|]. split; [exact Hg|].
  split; [eexists; split; vm_compute; reflexivity|].
  destruct (gender_kept_by_remaining_words
              false st st [] (u "Jana") (reps st) (u "f") Hg Hne eq_refl)
    as (_ & H1 & H2).
  split; [exact H1 | exact H2].
Defined.

(** ** Replacing and capturing *)

Lemma index_key_0 : index_key 0 = [48%N].
Proof. reflexivity. Qed.

Lemma index_key_1 : index_key 1 = [49%N].
Proof. reflexivity. Qed.

Lemma replace_first_absent d v s :
  has_unit d s = false -> replace_first [d] v s = s.
Proof.
  induction s as [|c s IH]; simpl; [reflexivity|].
  intros H. apply orb_false_iff in H. destruct H as [Hc Hs].
  rewrite Hc. simpl. rewrite IH by exact Hs. reflexivity.
Qed.

Lemma has_unit_app d a b :
  has_unit d (a ++ b) = has_unit d a || has_unit d b.
Proof. apply existsb_app. Qed.

Lemma has_unit_skipn d n s :
  has_unit d (skipn n s) = true -> has_unit d s = true.
Proof.
  revert s. induction n as [|n IH]; intros [|c s]; simpl; auto.
  intros H. rewrite (IH _ H). apply orb_true_r.
Qed.

Lemma has_unit_replace_first d key v s :
  has_unit d (replace_first key v s) = true ->
  has_unit d v = true \/ has_unit d s = true.
Proof.
  induction s as [|c s IH].
  - simpl. destruct (startsWith key []); [|discriminate].
    rewrite has_unit_app. intros H. apply orb_true_iff in H.
    destruct H as [H|H]; [left; exact H|].
    right. exact (has_unit_skipn _ _ _ H).
  - simpl. destruct (startsWith key (c :: s)).
    + rewrite has_unit_app. intros H. apply orb_true_iff in H.
      destruct H as [H|H]; [left; exact H|].
      right. exact (has_unit_skipn d (length key) (c :: s) H).
    + simpl. intros H. apply orb_true_iff in H.
      destruct H as [H|H]; [right; rewrite H; reflexivity|].
      destruct (IH H) as [H'|H']; [left; exact H'|].
      right. rewrite H'. apply orb_true_r.
Qed.

(** Captures *)
Lemma match_here_caps atoms : forall s caps,
  match_here atoms s = Some caps ->
  length caps = groups atoms
  /\ Forall (fun cap => exists c cls, cap = [c] /\ In (Group cls) atoms
                                     /\ atom_matches (Group cls) c = true) caps.
Proof.
  induction atoms as [|a atoms IH]; intros [|c s] caps; simpl;
    try discriminate.
  - intros H; injection H as <-. split; [reflexivity | constructor].
  - destruct (atom_matches a c) eqn:Hm; [|discriminate].
    destruct (match_here atoms s) as [caps'|] eqn:Hh; [|discriminate].
    destruct (IH _ _ Hh) as [Hl Hf].
    assert (Hf' : Forall (fun cap => exists c cls, cap = [c]
                   /\ In (Group cls) (a :: atoms)
                   /\ atom_matches (Group cls) c = true) caps').
    { eapply Forall_impl; [|exact Hf].
      intros cap (c' & cls & ? & ? & ?). exists c', cls.
      repeat split; auto. right; assumption. }
    intros H; injection H as <-.
    destruct a as [x|cls]; unfold groups in *; simpl.
    + split; [exact Hl | exact Hf'].
    + split; [rewrite Hl; reflexivity|].
      constructor; [|exact Hf'].
      exists c, cls. split; [reflexivity|].
      split; [left; reflexivity | exact Hm].
Qed.

(** exec finds the match at an end of the word. *)
Lemma exec_sound atoms : forall word matches,
  exec atoms word = Some matches ->
  exists pre s caps, word = pre ++ s /\ matches = s :: caps
                     /\ match_here atoms s = Some caps.
Proof.
  induction word as [|c word IH]; intros matches; simpl.
  - destruct (match_here atoms []) as [caps|] eqn:Hh; [|discriminate].
    intros H; injection H as <-. exists [], [], caps. auto.
  - destruct (match_here atoms (c :: word)) as [caps|] eqn:Hh.
    + intros H; injection H as <-. exists [], (c :: word), caps. auto.
    + intros H. destruct (IH _ H) as (pre & s & caps & -> & -> & Hm).
      exists (c :: pre), s, caps. auto.
Qed.

Lemma exec_complete atoms : forall pre s caps,
  match_here atoms s = Some caps -> exec atoms (pre ++ s) <> None.
Proof.
  induction pre as [|c pre IH]; intros s caps Hm.
  - simpl. destruct s; simpl; rewrite Hm; discriminate.
  - simpl. destruct (match_here atoms (c :: pre ++ s)); [discriminate|].
    exact (IH _ _ Hm).
Qed.

Lemma match_here_skipn k : forall atoms s caps,
  match_here atoms s = Some caps ->
  exists caps', match_here (skipn k atoms) (skipn k s) = Some caps'.
Proof.
  induction k as [|k IH]; intros atoms s caps H; [eexists; exact H|].
  destruct atoms as [|a atoms], s as [|c s]; simpl in *; try discriminate.
  - eexists; reflexivity.
  - destruct (atom_matches a c); [|discriminate].
    destruct (match_here atoms s) as [caps0|] eqn:Hh; [|discriminate].
    exact (IH _ _ _ Hh).
Qed.

Lemma exec_skipn k atoms word :
  exec atoms word <> None -> exec (skipn k atoms) word <> None.
Proof.
  destruct (exec atoms word) as [matches|] eqn:He; [|congruence].
  intros _. destruct (exec_sound _ _ _ He) as (pre & s & caps & -> & _ & Hm).
  destruct (match_here_skipn k _ _ _ Hm) as [caps' Hm'].
  rewrite <- (firstn_skipn k s), app_assoc.
  exact (exec_complete _ _ _ _ Hm').
Qed.

Lemma at_units d (p : row) k :
  forallb (fun t => negb (has_unit d t)) p = true ->
  has_unit d (at_ p k) = false.
Proof.
  intros H. unfold at_.
  destruct (nth_in_or_default k p []) as [Hin|Heq]; [|rewrite Heq; reflexivity].
  rewrite forallb_forall in H. apply negb_true_iff, H, Hin.
Qed.

(** Replacements whose keys do not occur replace nothing. *)
Lemma substitute_absent r t :
  length r <= 2 ->
  has_unit 48%N t = false -> has_unit 49%N t = false ->
  substitute 0 r t = t.
Proof.
  intros Hr H0 H1.
  destruct r as [|[v|] [|[v'|] [|z r]]]; try (simpl in Hr; lia);
    cbn [substitute];
    rewrite ?index_key_0, ?index_key_1, ?(replace_first_absent _ _ _ H0),
      ?(replace_first_absent _ _ _ H1);
    reflexivity.
Qed.

Lemma captured_not_digit_1 atoms c cls :
  classes_avoid 49%N atoms = true ->
  In (Group cls) atoms -> atom_matches (Group cls) c = true ->
  has_unit 49%N [c] = false.
Proof.
  intros Hc Hin Hm. unfold classes_avoid in Hc.
  rewrite forallb_forall in Hc. specialize (Hc _ Hin). simpl in Hc.
  rewrite forallb_forall in Hc.
  simpl in Hm. apply existsb_exists in Hm. destruct Hm as (x & Hx & Hf).
  specialize (Hc _ Hx). apply negb_true_iff in Hc.
  unfold has_unit. cbn [existsb]. rewrite orb_false_r.
  apply N.eqb_neq. intros <-.
  apply N.eqb_eq in Hf. apply N.eqb_neq in Hc. apply Hc. rewrite Hf.
  reflexivity.
Qed.

(** What [store] leaves, by number of captures. *)
Lemma store_0 s r : store [s] 0 r = r.
Proof. reflexivity. Qed.

Lemma store_1 s c1 r : store [s; c1] 1 r = Some c1 :: tl r.
Proof. destruct r; reflexivity. Qed.

Lemma store_2 s c1 c2 r :
  store [s; c1; c2] 2 r = Some c2 :: Some c1 :: tl (tl r).
Proof. destruct r as [|x [|y r]]; reflexivity. Qed.

(** The templates of a row that is [row_ok] read the same forms from the
    replacements after a match whatever was stored before. *)
Lemma match_stale p w r left_ :
  row_ok p = true -> length r <= 2 ->
  fst (match_ r (at_ p 1) w) = Some left_ ->
  length (snd (match_ r (at_ p 1) w)) <= 2
  /\ forall k,
       substitute 0 (snd (match_ r (at_ p 1) w)) (at_ p k)
       = substitute 0 (snd (match_ fresh (at_ p 1) w)) (at_ p k).
Proof.
  unfold row_ok, stored, is_regex, atoms_of, match_.
  destruct (startsWith (u "-") (at_ p 1)); cbn [negb].
  2:{ intros Hok Hr _. cbn [snd]. split; [exact Hr|]. intros k.
      rewrite forallb_forall in Hok.
      assert (H0 : has_unit 48%N (at_ p k) = false).
      { apply at_units, forallb_forall. intros t Ht.
        specialize (Hok t Ht). apply andb_true_iff in Hok. tauto. }
      assert (H1 : has_unit 49%N (at_ p k) = false).
      { apply at_units, forallb_forall. intros t Ht.
        specialize (Hok t Ht). apply andb_true_iff in Hok. tauto. }
      rewrite (substitute_absent r _ Hr H0 H1).
      rewrite (substitute_absent fresh _ (Nat.le_0_l 2) H0 H1). reflexivity. }
  destruct (exec _ w) as [matches|] eqn:He; [|discriminate].
  destruct (exec_sound _ _ _ He) as (pre & s & caps & _ & -> & Hm).
  destruct (match_here_caps _ _ _ Hm) as [Hlen Hcaps].
  rewrite <- Hlen. cbn [snd length].
  replace (S (length caps) - 1) with (length caps) by lia.
  destruct caps as [|c1 [|c2 [|c3 caps]]]; cbn [length];
    intros Hok Hr _; [| | |discriminate].
  - rewrite !store_0. split; [exact Hr|]. intros k.
    rewrite forallb_forall in Hok.
    assert (H0 : has_unit 48%N (at_ p k) = false).
    { apply at_units, forallb_forall. intros t Ht.
      specialize (Hok t Ht). apply andb_true_iff in Hok. tauto. }
    assert (H1 : has_unit 49%N (at_ p k) = false).
    { apply at_units, forallb_forall. intros t Ht.
      specialize (Hok t Ht). apply andb_true_iff in Hok. tauto. }
    rewrite (substitute_absent r _ Hr H0 H1).
    rewrite (substitute_absent fresh _ (Nat.le_0_l 2) H0 H1). reflexivity.
  - rewrite !store_1. apply andb_true_iff in Hok. destruct Hok as [Hok Hcl].
    split; [destruct r as [|x [|y [|z r]]]; simpl in *; lia|].
    intros k.
    destruct r as [|x [|y [|z r]]]; [reflexivity|reflexivity| |simpl in Hr; lia].
    cbn [tl substitute fresh]. destruct y as [v|]; [|reflexivity].
    rewrite index_key_1. apply replace_first_absent.
    destruct (has_unit 49%N (replace_first _ c1 _)) eqn:Hu; [|reflexivity].
    apply has_unit_replace_first in Hu. inversion Hcaps as [|? ? Hc1 _]; subst.
    destruct Hc1 as (c & cls & -> & Hin & Hma).
    rewrite (captured_not_digit_1 _ c cls Hcl Hin Hma) in Hu.
    rewrite (at_units 49%N p k Hok) in Hu. destruct Hu; discriminate.
  - rewrite !store_2. split; [destruct r as [|x [|y [|z r]]]; simpl in *; lia|].
    intros k. destruct r as [|x [|y [|z r]]]; [reflexivity..|simpl in Hr; lia].
Qed.

(** ** Shadowed rows *)

Lemma atom_eqb_eq a b : atom_eqb a b = true -> a = b.
Proof.
  destruct a as [x|c], b as [y|d]; simpl; try discriminate.
  - intros H. apply N.eqb_eq in H. congruence.
  - intros H. apply eqs_eq in H. congruence.
Qed.

Lemma atoms_eqb_eq a : forall b, atoms_eqb a b = true -> a = b.
Proof.
  induction a as [|x a IH]; intros [|y b]; simpl; try discriminate;
    [reflexivity|].
  intros H. apply andb_true_iff in H. destruct H as [H1 H2].
  rewrite (atom_eqb_eq _ _ H1), (IH _ H2). reflexivity.
Qed.

(** A regular expression row matches when [exec] finds a match. *)
Lemma match_regex p w :
  is_regex p = true ->
  fst (match_ fresh (at_ p 1) w) = None <-> exec (atoms_of p) w = None.
Proof.
  unfold is_regex, match_, atoms_of. intros ->. cbn [negb].
  destruct (exec _ w); cbn [fst]; split; congruence.
Qed.

Lemma skipped_same_gender g q p :
  at_ q 0 = at_ p 0 -> skipped g q = skipped g p.
Proof. unfold skipped. intros ->. reflexivity. Qed.

(** A row that shadows another is passed over with it and matches every
    word it matches. *)
Lemma shadows_spec g w q p :
  shadows q p = true ->
  skipped g q = skipped g p
  /\ (fst (match_ fresh (at_ q 1) w) = None ->
      fst (match_ fresh (at_ p 1) w) = None).
Proof.
  unfold shadows. rewrite !andb_true_iff.
  intros [[[Hg Hq] Hp] Hs]. apply eqs_eq in Hg.
  split; [exact (skipped_same_gender g q p Hg)|].
  rewrite (match_regex q w Hq), (match_regex p w Hp).
  apply existsb_exists in Hs. destruct Hs as (k & _ & Hk).
  apply atoms_eqb_eq in Hk. rewrite <- Hk. intros Hn.
  destruct (exec (atoms_of p) w) eqn:He; [|reflexivity].
  exfalso. apply (exec_skipn k (atoms_of p) w); [congruence | exact Hn].
Qed.

(** The pattern the search selects in a table that is [rows_ok] is
    [row_ok] and stores at most two replacements. *)
Lemma rows_ok_selected g w : forall ps seen r p left_,
  rows_ok seen ps = true ->
  (forall q, In q seen ->
             skipped g q = true \/ fst (match_ fresh (at_ q 1) w) = None) ->
  fst (first_match g w ps r) = Some (p, left_) ->
  row_ok p = true.
Proof.
  induction ps as [|p0 ps IH]; intros seen r p left_; simpl; [discriminate|].
  rewrite !andb_true_iff. intros [[Hp0 _] Hrest] Hseen.
  assert (Hstep : skipped g p0 = true
                  \/ fst (match_ fresh (at_ p0 1) w) = None ->
                  forall q, In q (p0 :: seen) ->
                    skipped g q = true
                    \/ fst (match_ fresh (at_ q 1) w) = None).
  { intros H q [<-|Hq]; [exact H | exact (Hseen q Hq)]. }
  destruct (skipped g p0) eqn:Hs.
  - apply (IH _ _ _ _ Hrest). apply Hstep. left; reflexivity.
  - pose proof (match_fst r fresh (at_ p0 1) w) as Hf.
    pose proof (match_failed r (at_ p0 1) w) as Hfail.
    destruct (match_ r (at_ p0 1) w) as [[l|] r1]; cbn [fst snd] in *.
    + intros H; injection H as <- <-.
      apply orb_true_iff in Hp0. destruct Hp0 as [Hok|Hsh]; [exact Hok|].
      exfalso. apply existsb_exists in Hsh. destruct Hsh as (q & Hq & Hsh).
      destruct (shadows_spec g w q p0 Hsh) as [Hsk Hma].
      destruct (Hseen q Hq) as [H|H].
      * rewrite Hsk, Hs in H. discriminate.
      * rewrite (Hma H) in Hf. discriminate.
    + apply (IH _ _ _ _ Hrest). apply Hstep. right. symmetry. exact Hf.
Qed.

Lemma patterns_selected_ok g w r p left_ :
  fst (first_match g w patterns r) = Some (p, left_) -> row_ok p = true.
Proof.
  apply (rows_ok_selected g w patterns [] r p left_ patterns_ok).
  intros q [].
Qed.

(** ** Independence of the replacements left behind *)


Lemma form_stale animate isUpper exception p prefix r r' k :
  substitute 0 r (at_ p k) = substitute 0 r' (at_ p k) ->
  form animate isUpper exception p prefix r k
  = form animate isUpper exception p prefix r' k.
Proof. unfold form. intros ->. reflexivity. Qed.

Lemma inflect_word_alike animate a b word :
  alike a b ->
  match inflect_word animate a word, inflect_word animate b word with
  | Returned a', Returned b' => alike a' b'
  | Threw e, Threw e' => e = e'
  | _, _ => False
  end.
Proof.
  intros (Hg & Hi & Ha & Hb). unfold inflect_word.
  destruct word as [|c0 word]; [reflexivity|].
  rewrite <- Hg, <- Hi.
  set (w := breakAccents (c0 :: word)).
  set (g := force (gender a) (toLowerCase w)).
  set (e := find_exception (toLowerCase w)).
  set (base := match e with Some e0 => at_ e0 1 | None => w end).
  pose proof (first_match_fst g base patterns (reps a) (reps b)) as Hfst.
  pose proof (first_match_snd g base patterns (reps a)) as Hsa.
  pose proof (first_match_snd g base patterns (reps b)) as Hsb.
  pose proof (first_match_sound g base patterns (reps a)) as Hsound.
  pose proof (patterns_selected_ok g base (reps a)) as Hok.
  pose proof (first_match_fst g base patterns (reps a) fresh) as Hfr.
  destruct (first_match g base patterns (reps a)) as [[[p l]|] ra];
    destruct (first_match g base patterns (reps b)) as [[[p' l']|] rb];
    cbn [fst snd] in *; try discriminate.
  - injection Hfst as <- <-.
    destruct (Hsound p l eq_refl) as (_ & _ & Hm).
    specialize (Hok p l eq_refl).
    assert (Hma : fst (match_ (reps a) (at_ p 1) base) = Some l)
      by (rewrite (match_fst _ fresh); exact Hm).
    assert (Hmb : fst (match_ (reps b) (at_ p 1) base) = Some l)
      by (rewrite (match_fst _ fresh); exact Hm).
    destruct (match_stale p base (reps a) l Hok Ha Hma) as [Hla Hta].
    destruct (match_stale p base (reps b) l Hok Hb Hmb) as [Hlb Htb].
    rewrite <- Hsa in Hla, Hta. rewrite <- Hsb in Hlb, Htb.
    assert (Hforms :
      map (fun caseIndex => Some (form animate (eqs [c0] (toUpperCase [c0]))
                                    e p (slice_to l base) ra caseIndex))
          (seq 2 13)
      = map (fun caseIndex => Some (form animate (eqs [c0] (toUpperCase [c0]))
                                      e p (slice_to l base) rb caseIndex))
            (seq 2 13)).
    { apply map_ext. intros k. f_equal. apply form_stale.
      rewrite Hta, Htb. reflexivity. }
    rewrite Hforms. repeat split; assumption.
  - subst ra rb. repeat split; assumption.
Qed.


(** The loop over the words from two states that are alike: the same
    outcome up to the replacements, which stay short. *)
Lemma inflect_words_alike animate words : forall a b,
  alike a b ->
  match inflect_words animate words a, inflect_words animate words b with
  | (Returned a', ra), (Returned b', rb) =>
    inflected a' = inflected b' /\ length ra <= 2 /\ length rb <= 2
  | (Threw e, ra), (Threw e', rb) =>
    e = e' /\ length ra <= 2 /\ length rb <= 2
  | _, _ => False
  end.
Proof.
  induction words as [|w words IH]; intros a b Hab; simpl.
  - destruct Hab as (_ & Hi & Ha & Hb). auto.
  - pose proof (inflect_word_alike animate a b w Hab) as Hw.
    destruct (inflect_word animate a w) as [a'|e],
             (inflect_word animate b w) as [b'|e']; try contradiction.
    + exact (IH a' b' Hw).
    + destruct Hab as (_ & _ & Ha & Hb). auto.
Qed.

Lemma inflect_on_stale r text animate :
  length r <= 2 ->
  fst (inflect_on r text animate) = inflect text animate
  /\ length (snd (inflect_on r text animate)) <= 2.
Proof.
  intros Hr. unfold inflect, inflect_on.
  set (words := rev (split (ch " ") text)).
  pose proof (inflect_words_alike animate words
                {| gender := None; inflected := []; reps := r |}
                {| gender := None; inflected := []; reps := fresh |}) as H.
  destruct (inflect_words animate words {| gender := None; inflected := []; reps := r |})
    as [[a'|e] ra],
    (inflect_words animate words {| gender := None; inflected := []; reps := fresh |})
    as [[b'|e'] rb]; cbn [fst snd];
    (assert (Hab : alike {| gender := None; inflected := []; reps := r |}
                     {| gender := None; inflected := []; reps := fresh |})
      by (repeat split; [exact Hr | apply Nat.le_0_l]));
    specialize (H Hab); try contradiction.
  - destruct H as (-> & Hra & _). auto.
  - destruct H as (-> & Hra & _). auto.
Qed.

Lemma instance_after_short history :
  length (instance_after history) <= 2.
Proof.
  unfold instance_after.
  assert (H : forall r, length r <= 2 ->
            length (fold_left (fun r call =>
                                 snd (inflect_on r (fst call) (snd call)))
                              history r) <= 2).
  { induction history as [|call history IH]; intros r Hr; simpl;
      [exact Hr|].
    apply IH, inflect_on_stale, Hr. }
  apply H, Nat.le_0_l.
Qed.

(** C9: a call of [inflect] on an instance that has served any earlier
    calls has the same outcome, the same 14 forms or the same exception, as
    the call on a fresh instance: the replacements left behind by earlier
    calls change nothing. *)
Theorem C9_inflect_self_contained history text animate :
  fst (inflect_on (instance_after history) text animate)
  = inflect text animate.
Proof.
  apply inflect_on_stale, instance_after_short.
Qed.

(* ================================================================= *)
(** * The engine and the caption, function by function *)

Import Pairs Run Caption Court Popup Agreement.

(** ** Replacing pairs of letters *)

(** Induction two letters at a time, as [replace_pairs] recurses. *)
Lemma pairs_ind (P : jsstring -> Prop) :
  P [] -> (forall c, P [c]) ->
  (forall c1 c2 rest, P rest -> P (c2 :: rest) -> P (c1 :: c2 :: rest)) ->
  forall s, P s.
Proof.
  intros H0 H1 H2 s.
  assert (H : P s /\ forall c, P (c :: s)).
  { induction s as [|x s [IHs IHc]]; [split; [exact H0 | exact H1]|].
    split; [apply IHc|]. intros c. apply H2; [exact IHs | apply IHc]. }
  exact (proj1 H).
Qed.

Lemma is_key_find table c1 c2 :
  is_key table c1 c2 = false <->
  find (fun kv => eqs (fst kv) [c1; c2]) table = None.
Proof.
  unfold is_key. induction table as [|kv table IH]; simpl; [tauto|].
  destruct (eqs (fst kv) [c1; c2]); simpl; [split; discriminate | exact IH].
Qed.

Lemma is_key_letters table c1 c2 :
  is_key table c1 c2 = true -> opens table c1 = true /\ closes table c2 = true.
Proof.
  unfold is_key, opens, closes. rewrite !existsb_exists.
  intros (kv & Hin & He). apply eqs_eq in He.
  destruct kv as [k v]. cbn [fst] in He. subst k.
  split; exists ([c1; c2], v); (split; [exact Hin|]); apply N.eqb_refl.
Qed.

Lemma has_substring_pair c1 c2 s :
  has_substring [c1; c2] s
  = match s with
    | x :: (y :: _) as tl =>
      (c1 =? x)%N && (c2 =? y)%N || has_substring [c1; c2] tl
    | _ => false
    end.
Proof.
  destruct s as [|x [|y s]]; simpl; rewrite ?andb_false_r, ?andb_true_r;
    reflexivity.
Qed.

Lemma forallb_negb_orb {A} (f g : A -> bool) l :
  forallb (fun m => negb (f m || g m)) l
  = negb (existsb f l) && forallb (fun m => negb (g m)) l.
Proof.
  induction l as [|x l IH]; [reflexivity|]. cbn [forallb existsb].
  rewrite IH. destruct (f x), (g x), (existsb f l); reflexivity.
Qed.

Lemma forallb_ext_in {A} (f g : A -> bool) l :
  (forall x, In x l -> f x = g x) -> forallb f l = forallb g l.
Proof.
  induction l as [|x l IH]; [reflexivity|]. intros H. cbn [forallb].
  rewrite (H x (or_introl eq_refl)), IH; [reflexivity|].
  intros y Hy. apply H. right. exact Hy.
Qed.

Lemma has_substring_two m c1 c2 rest :
  length m = 2 ->
  has_substring m (c1 :: c2 :: rest)
  = eqs m [c1; c2] || has_substring m (c2 :: rest).
Proof.
  destruct m as [|a [|b [|? ?]]]; try discriminate. intros _.
  cbn [has_substring startsWith eqs]. rewrite !andb_true_r. reflexivity.
Qed.

Lemma free_of_two table c1 c2 rest :
  free_of table (c1 :: c2 :: rest)
  = negb (is_key table c1 c2) && free_of table (c2 :: rest).
Proof. reflexivity. Qed.

Lemma has_substring_one m c :
  length m = 2 -> has_substring m [c] = false.
Proof.
  destruct m as [|a [|b [|? ?]]]; try discriminate. intros _.
  cbn [has_substring startsWith]. rewrite andb_false_r. reflexivity.
Qed.

Lemma has_substring_none m :
  length m = 2 -> has_substring m [] = false.
Proof. destruct m as [|a [|b [|? ?]]]; try discriminate. reflexivity. Qed.

Lemma forallb_true {A} (l : list A) : forallb (fun _ => true) l = true.
Proof. induction l; [reflexivity | assumption]. Qed.

Lemma replace_pairs_two table c1 c2 rest :
  replace_pairs table (c1 :: c2 :: rest)
  = match find (fun kv => eqs (fst kv) [c1; c2]) table with
    | Some kv => snd kv ++ replace_pairs table rest
    | None => c1 :: replace_pairs table (c2 :: rest)
    end.
Proof. reflexivity. Qed.

Section Tables.

Variable table : list (jsstring * jsstring).

Hypothesis keys_two : forall kv, In kv table -> length (fst kv) = 2.

(** [avoids] says that no two neighbouring letters are a key. *)
Lemma avoids_pairs s : avoids table s = free_of table s.
Proof.
  revert s. apply pairs_ind.
  { unfold avoids.
    rewrite (forallb_ext_in _ (fun _ => true)); [apply forallb_true|].
    intros kv Hin. rewrite (has_substring_none _ (keys_two kv Hin)).
    reflexivity. }
  { intros c. unfold avoids.
    rewrite (forallb_ext_in _ (fun _ => true)); [apply forallb_true|].
    intros kv Hin. rewrite (has_substring_one _ c (keys_two kv Hin)).
    reflexivity. }
  intros c1 c2 rest _ IH.
  rewrite free_of_two, <- IH. unfold avoids.
  rewrite (forallb_ext_in _
             (fun kv => negb (eqs (fst kv) [c1; c2]
                              || has_substring (fst kv) (c2 :: rest)))).
  - rewrite forallb_negb_orb. reflexivity.
  - intros kv Hin. rewrite has_substring_two; [reflexivity|].
    exact (keys_two kv Hin).
Qed.

Hypothesis values_two : forall kv, In kv table -> length (snd kv) = 2.

(** The first letter of the result: that of the word, or the first letter
    of a value of the table. *)
Lemma replace_pairs_head c s :
  exists h t,
    replace_pairs table (c :: s) = h :: t
    /\ (h = c \/ exists kv y, In kv table /\ snd kv = [h; y]).
Proof.
  destruct s as [|c2 rest]; [exists c, []; auto|].
  rewrite replace_pairs_two.
  destruct (find _ table) as [kv|] eqn:Hf.
  - apply find_some in Hf. destruct Hf as [Hin _].
    pose proof (values_two kv Hin) as Hl.
    destruct kv as [k v]. cbn [fst snd] in *.
    destruct v as [|h [|y [|? ?]]]; try discriminate.
    exists h, (y :: replace_pairs table rest).
    split; [reflexivity|]. right. exists (k, [h; y]), y. auto.
  - eexists _, _. split; [reflexivity | left; reflexivity].
Qed.

(** What [replace_pairs] writes contains no key, when the values of the
    table are [inert]. *)
Lemma replace_pairs_free s :
  inert table = true -> free_of table (replace_pairs table s) = true.
Proof.
  intros Hi. unfold inert in Hi. rewrite forallb_forall in Hi.
  revert s. apply pairs_ind; [reflexivity | reflexivity |].
  intros c1 c2 rest IH1 IH2. rewrite replace_pairs_two.
  destruct (find _ table) as [kv|] eqn:Hf.
  - apply find_some in Hf. destruct Hf as [Hin _].
    specialize (Hi kv Hin). destruct kv as [k v]. cbn [fst snd] in *.
    destruct k as [|? [|? [|? ?]]]; try discriminate.
    destruct v as [|x [|y [|? ?]]]; try discriminate.
    apply andb_true_iff in Hi. destruct Hi as [Hi Hcx].
    apply andb_true_iff in Hi. destruct Hi as [Hox Hoy].
    apply negb_true_iff in Hox, Hoy, Hcx.
    cbn [app]. rewrite free_of_two.
    assert (Hxy : is_key table x y = false).
    { destruct (is_key table x y) eqn:Hk; [|reflexivity].
      apply is_key_letters in Hk. destruct Hk as [Hk _]. congruence. }
    rewrite Hxy. cbn [negb andb].
    destruct (replace_pairs table rest) as [|h t] eqn:Hr; [reflexivity|].
    rewrite free_of_two, IH1.
    destruct (is_key table y h) eqn:Hk; [|reflexivity].
    apply is_key_letters in Hk. destruct Hk as [Hk _]. congruence.
  - destruct (replace_pairs_head c2 rest) as (h & t & Hr & Hh).
    rewrite Hr in IH2 |- *. rewrite free_of_two, IH2, andb_true_r.
    apply negb_true_iff.
    destruct Hh as [->|(kv & y & Hin & Hv)];
      [apply is_key_find; exact Hf|].
    specialize (Hi kv Hin). destruct kv as [k v]. cbn [fst snd] in *.
    subst v. destruct k as [|? [|? [|? ?]]]; try discriminate.
    apply andb_true_iff in Hi. destruct Hi as [_ Hch].
    apply negb_true_iff in Hch.
    destruct (is_key table c1 h) eqn:Hk; [|reflexivity].
    apply is_key_letters in Hk. destruct Hk as [_ Hk]. congruence.
Qed.

Variable back : list (jsstring * jsstring).

(** [back] undoes [table] on every word that contains no key of [back]. *)
Lemma replace_pairs_undone s :
  undoes back table = true -> apart back table = true ->
  free_of back s = true ->
  replace_pairs back (replace_pairs table s) = s.
Proof.
  intros Hu Ha. unfold undoes, apart in *.
  rewrite forallb_forall in Hu, Ha.
  revert s.
  apply (pairs_ind (fun s => free_of back s = true ->
                             replace_pairs back (replace_pairs table s) = s));
    [reflexivity | reflexivity |].
  intros c1 c2 rest IH1 IH2. rewrite free_of_two, andb_true_iff.
  intros [Hk Hfree]. apply negb_true_iff in Hk.
  assert (Hrest : free_of back rest = true).
  { destruct rest as [|c3 rest]; [reflexivity|].
    rewrite free_of_two, andb_true_iff in Hfree. tauto. }
  rewrite replace_pairs_two.
  destruct (find _ table) as [kv|] eqn:Hf.
  - apply find_some in Hf. destruct Hf as [Hin He]. apply eqs_eq in He.
    specialize (Hu kv Hin). specialize (Ha kv Hin).
    destruct kv as [k v]. cbn [fst snd] in *. subst k.
    destruct v as [|x [|y [|? ?]]]; try discriminate.
    cbn [app]. rewrite replace_pairs_two.
    destruct (find _ back) as [vk|]; [|discriminate].
    apply eqs_eq in Hu. rewrite Hu, (IH1 Hrest). reflexivity.
  - destruct (replace_pairs_head c2 rest) as (h & t & Hr & Hh).
    specialize (IH2 Hfree). rewrite Hr in IH2 |- *.
    rewrite replace_pairs_two.
    assert (Hn : is_key back c1 h = false).
    { destruct Hh as [->|(kv & y & Hin & Hv)]; [exact Hk|].
      specialize (Ha kv Hin). destruct kv as [k v]. cbn [fst snd] in *.
      subst v. destruct k as [|? [|? [|? ?]]]; try discriminate.
      apply negb_true_iff in Ha.
      destruct (is_key back c1 h) eqn:Hkey; [|reflexivity].
      apply is_key_letters in Hkey. destruct Hkey as [_ Hkey]. congruence. }
    apply is_key_find in Hn. rewrite Hn, IH2. reflexivity.
Qed.

End Tables.


(** ** Accents *)

Lemma broken_two :
  forall kv, In kv broken -> length (fst kv) = 2 /\ length (snd kv) = 2.
Proof. apply Forall_forall. repeat constructor. Qed.

Lemma fixed_two :
  forall kv, In kv fixed -> length (fst kv) = 2 /\ length (snd kv) = 2.
Proof. apply Forall_forall. repeat constructor. Qed.

Lemma marker_free_avoids s : marker_free s = avoids fixed s.
Proof. reflexivity. Qed.

Lemma fixAccents_marker_free word : marker_free (fixAccents word) = true.
Proof.
  rewrite marker_free_avoids.
  rewrite (avoids_pairs fixed (fun kv H => proj1 (fixed_two kv H))).
  apply (replace_pairs_free fixed (fun kv H => proj2 (fixed_two kv H))).
  reflexivity.
Qed.

(** Whatever the word, [fixAccents] leaves none of the six markers in it,
    and [breakAccents] leaves none of the six pairs it replaces. *)
Theorem fixAccents_leaves_no_marker word :
  marker_free (fixAccents word) = true
  /\ avoids broken (breakAccents word) = true.
Proof.
  split; [apply fixAccents_marker_free|].
  rewrite (avoids_pairs broken (fun kv H => proj1 (broken_two kv H))).
  apply (replace_pairs_free broken (fun kv H => proj2 (broken_two kv H))).
  reflexivity.
Qed.

(** On a word without markers [fixAccents] undoes [breakAccents]. *)
Theorem fixAccents_undoes_breakAccents word :
  marker_free word = true -> fixAccents (breakAccents word) = word.
Proof.
  rewrite marker_free_avoids.
  rewrite (avoids_pairs fixed (fun kv H => proj1 (fixed_two kv H))).
  apply (replace_pairs_undone broken (fun kv H => proj2 (broken_two kv H))
           fixed); reflexivity.
Qed.

(** On a word without the pairs that [breakAccents] replaces,
    [breakAccents] undoes [fixAccents]. *)
Theorem breakAccents_undoes_fixAccents word :
  avoids broken word = true -> breakAccents (fixAccents word) = word.
Proof.
  rewrite (avoids_pairs broken (fun kv H => proj1 (broken_two kv H))).
  apply (replace_pairs_undone fixed (fun kv H => proj2 (fixed_two kv H))
           broken); reflexivity.
Qed.

(** ** Capitals *)

(** A property checked on every code unit of the tabulated range holds
    there. *)
Lemma below_tabulated (P : unit16 -> bool) :
  forallb P (map N.of_nat (seq 0 384)) = true ->
  forall c, (c < 0x180)%N -> P c = true.
Proof.
  intros H c Hc. rewrite forallb_forall in H. apply H.
  apply in_map_iff. exists (N.to_nat c). split; [apply N2Nat.id|].
  apply in_seq. lia.
Qed.

(** Outside the tabulated range [toUpperCase] changes nothing. *)
Lemma upper_unit_high c : (0x180 <= c)%N -> upper_unit c = [c].
Proof.
  intros Hc. unfold upper_unit, latin1_small, ext_a_small.
  repeat match goal with
         | |- context [(c <=? ?k)%N] =>
           replace (c <=? k)%N with false by (symmetry; apply N.leb_gt; lia)
         | |- context [(c =? ?k)%N] =>
           replace (c =? k)%N with false by (symmetry; apply N.eqb_neq; lia)
         end.
  rewrite ?andb_false_r. reflexivity.
Qed.

(** [toUpperCase] of one letter is the letter itself or contains no letter
    that begins a marker. *)
Lemma upper_unit_inert c :
  upper_unit c = [c]
  \/ forallb (fun x => negb (opens fixed x)) (upper_unit c) = true.
Proof.
  destruct (N.ltb_spec c 0x180) as [Hc|Hc];
    [|left; exact (upper_unit_high c Hc)].
  assert (H : (eqs (upper_unit c) [c]
               || forallb (fun x => negb (opens fixed x)) (upper_unit c))
              = true).
  { revert c Hc.
    apply (below_tabulated
             (fun c => eqs (upper_unit c) [c]
                       || forallb (fun x => negb (opens fixed x))
                                  (upper_unit c))).
    vm_compute. reflexivity. }
  apply orb_true_iff in H. destruct H as [H|H]; [left|right; exact H].
  apply eqs_eq. exact H.
Qed.

Lemma free_of_tail table c s :
  free_of table (c :: s) = true -> free_of table s = true.
Proof.
  destruct s as [|c2 s]; [reflexivity|].
  rewrite free_of_two, andb_true_iff. tauto.
Qed.

Lemma free_of_app table a s :
  forallb (fun x => negb (opens table x)) a = true ->
  free_of table s = true -> free_of table (a ++ s) = true.
Proof.
  intros Ha Hs. induction a as [|x a IH]; [exact Hs|].
  cbn [forallb] in Ha. apply andb_true_iff in Ha. destruct Ha as [Hx Ha].
  specialize (IH Ha). cbn [app].
  destruct (a ++ s) as [|y t] eqn:Hat; [reflexivity|].
  rewrite free_of_two, IH, andb_true_r. apply negb_true_iff.
  destruct (is_key table x y) eqn:Hk; [|reflexivity].
  apply is_key_letters in Hk. destruct Hk as [Hk _].
  apply negb_true_iff in Hx. congruence.
Qed.

(** [capitalize] brings no marker into a word that has none. *)
Lemma capitalize_marker_free word :
  marker_free word = true -> marker_free (capitalize word) = true.
Proof.
  rewrite !marker_free_avoids.
  rewrite !(avoids_pairs fixed (fun kv H => proj1 (fixed_two kv H))).
  unfold capitalize, slice_to, slice_from, toUpperCase.
  destruct word as [|c s]; [reflexivity|].
  cbn [firstn skipn flat_map]. rewrite app_nil_r. intros H.
  destruct (upper_unit_inert c) as [->|Hu]; [exact H|].
  apply free_of_app; [exact Hu|]. exact (free_of_tail _ _ _ H).
Qed.

Lemma exceptions_marker_free :
  forallb (fun e => marker_free (capitalize (at_ e 2))) exceptions = true.
Proof. vm_compute. reflexivity. Qed.

Lemma find_exception_in wordLower e :
  find_exception wordLower = Some e -> In e exceptions.
Proof. unfold find_exception. intros H. apply find_some in H. tauto. Qed.

(** Every form the loop over [caseIndex] writes is free of markers. *)
Lemma form_marker_free animate isUpper wordLower pattern prefix r caseIndex :
  marker_free (form animate isUpper (find_exception wordLower) pattern
                 prefix r caseIndex) = true.
Proof.
  unfold form.
  assert (Hreg : forall s,
             marker_free (if isUpper then capitalize (fixAccents s)
                          else fixAccents s) = true).
  { intros s. destruct isUpper; [apply capitalize_marker_free|];
      apply fixAccents_marker_free. }
  destruct (find_exception wordLower) as [e|] eqn:He; [|apply Hreg].
  destruct (caseIndex =? 4); [|apply Hreg].
  apply find_exception_in in He.
  pose proof exceptions_marker_free as H. rewrite forallb_forall in H.
  exact (H e He).
Qed.

Lemma get_inflectedWord (original : jsstring) (f : nat -> jsstring) k :
  2 <= k <= 14 ->
  get (None :: Some original :: map (fun i => Some (f i)) (seq 2 13)) k
  = Some (f k).
Proof.
  intros Hk. unfold get.
  do 15 (destruct k as [|k]; [try reflexivity; lia|]). lia.
Qed.

(** The entry written for a word that a pattern matches. *)
Lemma matched_word_entry animate st word st' :
  inflect_word animate st word = Returned st' ->
  selected (gender st) word <> None ->
  exists (f : nat -> jsstring) rest,
    inflected st'
    = inflected st
      ++ (None :: Some word :: map (fun i => Some (f i)) (seq 2 13)) :: rest
    /\ forall k, marker_free (f k) = true.
Proof.
  unfold inflect_word, selected. destruct word as [|c0 word]; [discriminate|].
  cbv zeta. rewrite (first_match_fst _ _ patterns fresh (reps st)).
  destruct (first_match _ _ patterns (reps st)) as [[[p l]|] r'];
    [|intros _ H; contradiction H; reflexivity].
  intros H _.
  pose proof (f_equal (fun o => match o with
                                | Returned s => inflected s
                                | Threw _ => []
                                end) H) as Hi.
  cbv beta iota in Hi. cbn [inflected] in Hi. rewrite <- Hi. clear H Hi.
  match goal with |- context [truthy ?x] => destruct (truthy x) end;
    eexists _, _; (split; [try rewrite <- app_assoc; reflexivity|]);
    intros k; apply form_marker_free.
Qed.

(** For every word a pattern matches, the entry written for it holds the
    word under key 1 and forms without markers under keys 2 to 14. *)
Theorem matched_word_forms_marker_free animate st word st' :
  inflect_word animate st word = Returned st' ->
  selected (gender st) word <> None ->
  exists entry rest,
    inflected st' = inflected st ++ entry :: rest
    /\ get entry 1 = Some word
    /\ forall k, 2 <= k <= 14 ->
         exists s, get entry k = Some s /\ marker_free s = true.
Proof.
  intros H Hs.
  destruct (matched_word_entry animate st word st' H Hs)
    as (f & rest & Hi & Hf).
  eexists _, rest. split; [exact Hi|]. split; [reflexivity|].
  intros k Hk. rewrite (get_inflectedWord word f k Hk).
  exists (f k). split; [reflexivity | apply Hf].
Qed.

(** ** The split point of a match *)

Lemma match_here_length atoms : forall s caps,
  match_here atoms s = Some caps -> length s = length atoms.
Proof.
  induction atoms as [|a atoms IH]; intros [|c s] caps; simpl;
    try discriminate; [reflexivity|].
  destruct (atom_matches a c); [|discriminate].
  destruct (match_here atoms s) as [caps'|] eqn:Hm; [|discriminate].
  intros _. rewrite (IH _ _ Hm). reflexivity.
Qed.

(** A successful [match] cuts the word in two.  For a regular expression
    the part cut off has one letter for each letter or group of the
    specification and matches it; for a literal pattern the whole word is
    cut off and equals the pattern up to case. *)
Theorem match_splits_word r pattern word left_ :
  fst (match_ r pattern word) = Some left_ ->
  left_ <= length word
  /\ if startsWith (u "-") pattern
     then length word
          = left_ + length (compile None (slice_from 1 pattern))
          /\ match_here (compile None (slice_from 1 pattern))
                        (slice_from left_ word) <> None
     else left_ = 0 /\ toLowerCase pattern = toLowerCase word.
Proof.
  unfold match_. destruct (startsWith (u "-") pattern); cbn [negb].
  - destruct (exec _ word) as [matches|] eqn:He; [|discriminate].
    destruct (exec_sound _ _ _ He) as (pre & s & caps & -> & -> & Hm).
    cbn [fst nth]. intros H; injection H as <-.
    rewrite length_app, (match_here_length _ _ _ Hm).
    replace (length pre + length (compile None (slice_from 1 pattern))
             - length (compile None (slice_from 1 pattern)))
      with (length pre) by lia.
    split; [lia|]. split; [reflexivity|].
    change (slice_from (length pre) (pre ++ s))
      with (skipn (length pre) (pre ++ s)).
    rewrite skipn_app, skipn_all, Nat.sub_diag.
    cbn [app skipn]. rewrite Hm. discriminate.
  - destruct (eqs (toLowerCase pattern) (toLowerCase word)) eqn:He;
      [|discriminate].
    cbn [fst]. intros H; injection H as <-. apply eqs_eq in He.
    split; [lia|]. split; [reflexivity | exact He].
Qed.

Lemma match_splits_word_witness :
  fst (match_ fresh (u "-([k])") (u "Novák")) = Some 4
  /\ 4 <= length (u "Novák")
  /\ length (u "Novák") = 4 + length (compile None (slice_from 1 (u "-([k])")))
  /\ match_here (compile None (slice_from 1 (u "-([k])")))
                (slice_from 4 (u "Novák")) <> None.
Proof.
  assert (H : fst (match_ fresh (u "-([k])") (u "Novák")) = Some 4)
    by (vm_compute; reflexivity).
  split; [exact H|].
  exact (match_splits_word fresh (u "-([k])") (u "Novák") 4 H).
Defined.

(** ** Priority of the patterns *)

(** The search returns the first pattern of the table that is not passed
    over and matches; when it returns none, every pattern is passed over or
    fails to match. *)
Theorem first_match_is_first g baseWord ps r :
  match fst (first_match g baseWord ps r) with
  | Some (p, left_) =>
    exists before after,
      ps = before ++ p :: after
      /\ (forall q, In q before ->
            skipped g q = true
            \/ fst (match_ fresh (at_ q 1) baseWord) = None)
      /\ skipped g p = false
      /\ fst (match_ fresh (at_ p 1) baseWord) = Some left_
  | None =>
    forall q, In q ps ->
      skipped g q = true \/ fst (match_ fresh (at_ q 1) baseWord) = None
  end.
Proof.
  revert r. induction ps as [|q ps IH]; intros r; simpl; [intros ? []|].
  destruct (skipped g q) eqn:Hs.
  - specialize (IH r).
    destruct (fst (first_match g baseWord ps r)) as [[p l]|].
    + destruct IH as (before & after & -> & Hb & Hp).
      exists (q :: before), after. split; [reflexivity|].
      split; [|exact Hp]. intros x [<-|Hx]; [left; exact Hs | exact (Hb x Hx)].
    + intros x [<-|Hx]; [left; exact Hs | exact (IH x Hx)].
  - pose proof (match_fst r fresh (at_ q 1) baseWord) as Hf.
    pose proof (match_failed r (at_ q 1) baseWord) as Hfail.
    destruct (match_ r (at_ q 1) baseWord) as [[l|] r1]; cbn [fst snd] in *.
    + exists [], ps. split; [reflexivity|]. split; [intros ? []|].
      split; [exact Hs | symmetry; exact Hf].
    + specialize (IH r1).
      destruct (fst (first_match g baseWord ps r1)) as [[p l]|].
      * destruct IH as (before & after & -> & Hb & Hp).
        exists (q :: before), after. split; [reflexivity|].
        split; [|exact Hp].
        intros x [<-|Hx]; [right; symmetry; exact Hf | exact (Hb x Hx)].
      * intros x [<-|Hx]; [right; symmetry; exact Hf | exact (IH x Hx)].
Qed.

(** ** Declension under a gender *)

(** With a gender set, the search of the pattern loop is the search among
    the patterns of that gender. *)
Lemma first_match_of_gender (g baseWord : jsstring) ps : forall r,
  g <> [] ->
  fst (first_match (Some g) baseWord ps r) = first_of_gender g baseWord ps.
Proof.
  intros r Hg. revert r.
  induction ps as [|p ps IH]; intros r; cbn [first_match first_of_gender];
    [reflexivity|].
  assert (Hs : skipped (Some g) p = negb (eqs (at_ p 0) g)).
  { unfold skipped, truthy. destruct g as [|c g]; [contradiction|].
    reflexivity. }
  rewrite Hs. destruct (eqs (at_ p 0) g); cbn [negb]; [|apply IH].
  pose proof (match_fst r fresh (at_ p 1) baseWord) as Hf.
  pose proof (match_failed r (at_ p 1) baseWord) as Hfail.
  destruct (match_ r (at_ p 1) baseWord) as [[l|] r1]; cbn [fst snd] in *.
  - rewrite <- Hf. reflexivity.
  - rewrite <- Hf. apply IH.
Qed.

Lemma first_of_gender_sound (g baseWord : jsstring) ps p left_ :
  first_of_gender g baseWord ps = Some (p, left_) ->
  In p ps /\ at_ p 0 = g
  /\ fst (match_ fresh (at_ p 1) baseWord) = Some left_.
Proof.
  induction ps as [|q ps IH]; cbn [first_of_gender]; [discriminate|].
  destruct (eqs (at_ q 0) g) eqn:Hq.
  - destruct (fst (match_ fresh (at_ q 1) baseWord)) as [l|] eqn:Hm.
    + intros H. injection H as <- <-. apply eqs_eq in Hq.
      split; [left; reflexivity | auto].
    + intros H. destruct (IH H) as (? & ? & ?). split; [right|]; auto.
  - intros H. destruct (IH H) as (? & ? & ?). split; [right|]; auto.
Qed.

(** The loop body under the gender [g], whether [g] was held by the gender
    variable or has just been taken from a lexicon: the gender afterwards
    is [g] and what is pushed is [pushed_under g]. *)
Lemma inflect_word_under animate st word st' (g : jsstring) :
  force (gender st) (toLowerCase (breakAccents word)) = Some g -> g <> [] ->
  inflect_word animate st word = Returned st' ->
  gender st' = Some g
  /\ inflected st' = inflected st ++ pushed_under animate (reps st) g word.
Proof.
  intros Hf Hne. unfold inflect_word, pushed_under, declined_by, base_of.
  destruct word as [|c0 word]; [discriminate|].
  cbv zeta. rewrite Hf.
  set (w := breakAccents (c0 :: word)).
  set (e := find_exception (toLowerCase w)).
  set (base := match e with Some e0 => at_ e0 1 | None => w end).
  pose proof (first_match_of_gender g base patterns (reps st) Hne) as Hfst.
  pose proof (first_match_snd (Some g) base patterns (reps st)) as Hsnd.
  pose proof (first_match_sound (Some g) base patterns (reps st)) as Hsound.
  destruct (first_match (Some g) base patterns (reps st)) as [[[p l]|] r'];
    cbn [fst snd] in *.
  - destruct (Hsound p l eq_refl) as (_ & Hs & _).
    rewrite <- Hfst. rewrite (skipped_established g p Hne Hs). subst r'.
    cbn [slice_to firstn].
    intros H.
    pose proof (f_equal (fun o => match o with
                                  | Returned s => (gender s, inflected s)
                                  | Threw _ => (None, [])
                                  end) H) as Hi.
    cbv beta iota in Hi. cbn [gender inflected] in Hi.
    pose proof (f_equal fst Hi) as H1. pose proof (f_equal snd Hi) as H2.
    cbn [fst snd] in H1, H2. rewrite <- H1, <- H2. clear H Hi H1 H2.
    split; [reflexivity|].
    match goal with |- context [truthy ?x] => destruct (truthy x) end;
      [reflexivity|].
    rewrite <- app_assoc. reflexivity.
  - rewrite <- Hfst. intros H.
    pose proof (f_equal (fun o => match o with
                                  | Returned s => (gender s, inflected s)
                                  | Threw _ => (None, [])
                                  end) H) as Hi.
    cbv beta iota in Hi. cbn [gender inflected] in Hi.
    pose proof (f_equal fst Hi) as H1. pose proof (f_equal snd Hi) as H2.
    cbn [fst snd] in H1, H2. rewrite <- H1, <- H2. clear H Hi H1 H2.
    split; reflexivity.
Qed.

(** ** The lexicons *)



(** ** Splitting and joining *)

Lemma split_nonempty sep s : split sep s <> [].
Proof.
  destruct s as [|c s]; simpl; [discriminate|].
  destruct (c =? sep)%N; [discriminate|].
  destruct (split sep s); discriminate.
Qed.

Lemma split_one sep w :
  has_unit sep w = false -> split sep w = [w].
Proof.
  induction w as [|c w IH]; [reflexivity|].
  unfold has_unit. cbn [existsb split]. intros H.
  apply orb_false_iff in H. destruct H as [Hc Hw].
  rewrite N.eqb_sym, Hc, (IH Hw). reflexivity.
Qed.

(** [split] distributes over a separator. *)
Lemma split_app sep a b :
  split sep (a ++ sep :: b) = split sep a ++ split sep b.
Proof.
  induction a as [|c a IH]; cbn [app split].
  - rewrite N.eqb_refl. reflexivity.
  - rewrite IH. destruct (c =? sep)%N; [reflexivity|].
    pose proof (split_nonempty sep a) as Hne.
    destruct (split sep a) as [|w ws]; [contradiction|]. reflexivity.
Qed.

Lemma join_cons sep p q rest :
  join sep (p :: q :: rest)
  = match p with Some s => s | None => [] end ++ sep :: join sep (q :: rest).
Proof. reflexivity. Qed.

Lemma join_app sep a b :
  a <> [] -> b <> [] ->
  join sep (a ++ b) = join sep a ++ sep :: join sep b.
Proof.
  intros Ha Hb. induction a as [|p a IH]; [contradiction|].
  destruct a as [|q a].
  - destruct b as [|q b]; [contradiction|]. reflexivity.
  - cbn [app] in *. rewrite !join_cons, IH by discriminate.
    rewrite <- app_assoc. reflexivity.
Qed.

(** Joining the words of a text gives the text back. *)
Lemma join_split sep s : join sep (map Some (split sep s)) = s.
Proof.
  induction s as [|c s IH]; [reflexivity|]. cbn [split].
  destruct (c =? sep)%N eqn:Hc.
  - apply N.eqb_eq in Hc. subst c.
    pose proof (split_nonempty sep s) as Hne.
    destruct (split sep s) as [|w ws]; [contradiction|].
    cbn [map] in *. rewrite join_cons, IH. reflexivity.
  - pose proof (split_nonempty sep s) as Hne.
    destruct (split sep s) as [|w ws]; [contradiction|].
    destruct ws as [|w2 ws]; cbn [map join] in *; rewrite <- IH; reflexivity.
Qed.

(** ** The entries of a word *)

(** The entries a word adds do not depend on the entries before it. *)
Lemma inflect_word_frame animate g i r word :
  inflect_word animate {| gender := g; inflected := i; reps := r |} word
  = match inflect_word animate
            {| gender := g; inflected := []; reps := r |} word with
    | Returned s =>
      Returned {| gender := gender s; inflected := i ++ inflected s;
                  reps := reps s |}
    | Threw e => Threw e
    end.
Proof.
  unfold inflect_word. destruct word as [|c0 word]; [reflexivity|].
  cbn [gender reps inflected]. cbv zeta.
  destruct (first_match _ _ patterns r) as [[[p l]|] r']; [|reflexivity].
  destruct (truthy _); cbn [gender reps inflected app];
    rewrite <- ?app_assoc; reflexivity.
Qed.

(** A word adds at least one entry. *)
Lemma inflect_word_adds animate st word st' :
  inflect_word animate st word = Returned st' ->
  exists new, new <> [] /\ inflected st' = inflected st ++ new.
Proof.
  unfold inflect_word. destruct word as [|c0 word]; [discriminate|].
  cbv zeta.
  destruct (first_match _ _ patterns (reps st)) as [[[p l]|] r'];
    intros H;
    pose proof (f_equal (fun o => match o with
                                  | Returned s => inflected s
                                  | Threw _ => []
                                  end) H) as Hi;
    cbv beta iota in Hi; cbn [inflected] in Hi; rewrite <- Hi; clear H Hi.
  - match goal with |- context [truthy ?x] => destruct (truthy x) end.
    + eexists. split; [|reflexivity]. discriminate.
    + eexists. split; [|rewrite <- app_assoc; reflexivity]. discriminate.
  - eexists. split; [|reflexivity]. discriminate.
Qed.

Lemma inflect_words_add animate words : forall st st' r,
  inflect_words animate words st = (Returned st', r) ->
  exists new, (words <> [] -> new <> [])
              /\ inflected st' = inflected st ++ new.
Proof.
  induction words as [|w words IH]; intros st st' r; cbn [inflect_words].
  - intros H; injection H as <- _. exists []. split; [tauto|].
    rewrite app_nil_r. reflexivity.
  - destruct (inflect_word animate st w) as [st1|e] eqn:Hw; [|discriminate].
    intros H. destruct (inflect_word_adds _ _ _ _ Hw) as (n1 & Hn1 & H1).
    destruct (IH _ _ _ H) as (n2 & _ & H2).
    exists (n1 ++ n2). split.
    + intros _ Hnil. apply app_eq_nil in Hnil. tauto.
    + rewrite H2, H1, app_assoc. reflexivity.
Qed.

(** ** Words that match no pattern *)

Lemma unmatched_word_entry animate st word :
  word <> [] ->
  selected (gender st) word = None ->
  exists g r,
    inflect_word animate st word
    = Returned {| gender := g;
                  inflected := inflected st ++ [passthrough (breakAccents word)];
                  reps := r |}.
Proof.
  destruct word as [|c0 word]; [contradiction|]. intros _.
  unfold inflect_word, selected. cbv zeta.
  rewrite (first_match_fst _ _ patterns fresh (reps st)).
  destruct (first_match _ _ patterns (reps st)) as [[[p l]|] r'];
    [discriminate|].
  intros _. eexists _, _. reflexivity.
Qed.

Lemma assemble_passthrough bw :
  assemble [passthrough bw] = None :: repeat (Some bw) 13 ++ [Some []].
Proof. reflexivity. Qed.

(** A one-word text whose word matches no pattern: slots 1 to 13 hold the
    accent-broken word and slot 14 holds the empty string. *)
Theorem unmatched_word_forms word animate :
  word <> [] -> has_unit (ch " ") word = false ->
  selected None word = None ->
  inflect word animate
  = Returned (None :: repeat (Some (breakAccents word)) 13 ++ [Some []]).
Proof.
  intros Hne Hsp Hsel. unfold inflect, inflect_on.
  rewrite (split_one _ _ Hsp). cbn [rev app inflect_words].
  destruct (unmatched_word_entry animate
              {| gender := None; inflected := []; reps := fresh |}
              word Hne Hsel) as (g & r & ->).
  cbn [fst inflected app]. rewrite assemble_passthrough. reflexivity.
Qed.

Lemma unmatched_word_forms_witness :
  u "Billy" <> [] /\ has_unit (ch " ") (u "Billy") = false
  /\ selected None (u "Billy") = None
  /\ inflect (u "Billy") false
     = Returned (None :: repeat (Some (breakAccents (u "Billy"))) 13
                   ++ [Some []]).
Proof.
  assert (H1 : u "Billy" <> []) by (vm_compute; discriminate).
  assert (H2 : has_unit (ch " ") (u "Billy") = false)
    by (vm_compute; reflexivity).
  assert (H3 : selected None (u "Billy") = None) by (vm_compute; reflexivity).
  split; [exact H1|]. split; [exact H2|]. split; [exact H3|].
  exact (unmatched_word_forms (u "Billy") false H1 H2 H3).
Defined.

(** ** The rightmost word *)

Lemma inflect_on_returned r text animate forms :
  fst (inflect_on r text animate) = Returned forms ->
  exists st r',
    inflect_words animate (rev (split (ch " ") text)) (start r)
    = (Returned st, r')
    /\ forms = assemble (inflected st).
Proof.
  unfold inflect_on. fold (start r).
  destruct (inflect_words _ _ (start r)) as [[st|e] r']; cbn [fst];
    [|discriminate].
  intros H; injection H as <-. eauto.
Qed.

(** The last word of a text is inflected as it is alone, and its forms end
    the forms of the text. *)
Theorem rightmost_word_alone before word animate forms :
  has_unit (ch " ") word = false ->
  inflect (before ++ ch " " :: word) animate = Returned forms ->
  exists forms_word,
    inflect word animate = Returned forms_word
    /\ forall k, 1 <= k <= 14 ->
         exists rest s,
           get forms_word k = Some s
           /\ get forms k = Some (rest ++ ch " " :: s).
Proof.
  intros Hsp Hret. unfold inflect in *.
  destruct (inflect_on_returned _ _ _ _ Hret) as (st2 & r2 & Hrun & ->).
  rewrite split_app, (split_one _ _ Hsp), rev_app_distr in Hrun.
  cbn [rev app inflect_words] in Hrun.
  unfold inflect_on. rewrite (split_one _ _ Hsp).
  cbn [rev app inflect_words]. fold (start fresh).
  destruct (inflect_word animate (start fresh) word) as [st1|e] eqn:Hw;
    [|discriminate Hrun].
  cbn [fst]. eexists. split; [reflexivity|]. intros k Hk.
  destruct (inflect_word_adds _ _ _ _ Hw) as (n1 & Hn1 & H1).
  cbn [start inflected app] in H1.
  destruct (inflect_words_add _ _ _ _ _ Hrun) as (n2 & Hn2 & H2).
  assert (Hne2 : n2 <> []).
  { apply Hn2. intros Hnil. apply (f_equal (@rev _)) in Hnil.
    rewrite rev_involutive in Hnil. exact (split_nonempty _ _ Hnil). }
  rewrite !assemble_get by exact Hk. rewrite H2, H1, rev_app_distr, map_app.
  rewrite join_app.
  - eexists _, _. split; reflexivity.
  - intros Hnil. apply map_eq_nil in Hnil. apply (f_equal (@rev _)) in Hnil.
    rewrite rev_involutive in Hnil. exact (Hne2 Hnil).
  - intros Hnil. apply map_eq_nil in Hnil. apply (f_equal (@rev _)) in Hnil.
    rewrite rev_involutive in Hnil. exact (Hn1 Hnil).
Qed.

Lemma rightmost_word_alone_witness :
  has_unit (ch " ") (u "Nováková") = false
  /\ exists forms,
       inflect (u "Jana" ++ ch " " :: u "Nováková") false = Returned forms
       /\ exists forms_word,
            inflect (u "Nováková") false = Returned forms_word
            /\ forall k, 1 <= k <= 14 ->
                 exists rest s,
                   get forms_word k = Some s
                   /\ get forms k = Some (rest ++ ch " " :: s).
Proof.
  assert (H1 : has_unit (ch " ") (u "Nováková") = false)
    by (vm_compute; reflexivity).
  split; [exact H1|].
  pose (o := inflect (u "Jana" ++ ch " " :: u "Nováková") false).
  exists (match o with Returned f => f | Threw _ => [] end).
  assert (H2 : inflect (u "Jana" ++ ch " " :: u "Nováková") false
               = Returned (match o with Returned f => f | Threw _ => [] end))
    by (vm_compute; reflexivity).
  split; [exact H2|].
  exact (rightmost_word_alone (u "Jana") (u "Nováková") false _ H1 H2).
Defined.

(** ** The nominative *)

Lemma all_declined_nominatives animate words : forall st,
  all_declined animate words st = true ->
  exists st' r,
    inflect_words animate words st = (Returned st', r)
    /\ map (fun e => get e 1) (inflected st')
       = map (fun e => get e 1) (inflected st) ++ map Some words.
Proof.
  induction words as [|w words IH]; intros st; cbn [all_declined inflect_words].
  - intros _. eexists _, _. split; [reflexivity|].
    rewrite app_nil_r. reflexivity.
  - destruct (inflect_word animate st w) as [st1|e] eqn:Hw; [|discriminate].
    rewrite !andb_true_iff. intros [[Hsel Hlen] Hrest].
    destruct (IH st1 Hrest) as (st' & r & Hrun & Hmap).
    exists st', r. split; [exact Hrun|]. rewrite Hmap.
    assert (Hs : selected (gender st) w <> None)
      by (destruct (selected (gender st) w); [discriminate|discriminate Hsel]).
    destruct (matched_word_entry animate st w st1 Hw Hs)
      as (f & rest & Hi & _).
    apply Nat.eqb_eq in Hlen. rewrite Hi, length_app in Hlen.
    cbn [length] in Hlen.
    destruct rest as [|? ?]; [|cbn [length] in Hlen; lia].
    rewrite Hi, map_app. cbn [map get nth]. rewrite <- app_assoc.
    reflexivity.
Qed.

(** When every word of a text is declined by a pattern and adds one entry,
    slot 1 of the result is the text itself. *)
Theorem declined_text_keeps_nominative text animate :
  all_declined animate (rev (split (ch " ") text)) (start fresh) = true ->
  slot (inflect text animate) 1 = Some text.
Proof.
  intros H. destruct (all_declined_nominatives _ _ _ H) as (st & r & Hrun & Hm).
  unfold inflect, inflect_on. fold (start fresh). rewrite Hrun.
  cbn [fst slot]. rewrite assemble_get by lia.
  rewrite map_rev, Hm. cbn [start inflected map app].
  rewrite <- map_rev, rev_involutive, join_split. reflexivity.
Qed.

Lemma declined_text_keeps_nominative_witness :
  all_declined false (rev (split (ch " ") (u "Jan Novák"))) (start fresh)
  = true
  /\ slot (inflect (u "Jan Novák") false) 1 = Some (u "Jan Novák").
Proof.
  assert (H : all_declined false (rev (split (ch " ") (u "Jan Novák")))
                (start fresh) = true) by (vm_compute; reflexivity).
  split; [exact H|].
  exact (declined_text_keeps_nominative (u "Jan Novák") false H).
Defined.

(** ** The choice of the alternative *)

Lemma indexOf_app c a b :
  has_unit c a = false -> indexOf c (a ++ c :: b) = Some (length a).
Proof.
  induction a as [|x a IH]; simpl.
  - rewrite N.eqb_refl. reflexivity.
  - unfold has_unit. cbn [existsb]. intros H.
    apply orb_false_iff in H. destruct H as [Hx Ha].
    rewrite N.eqb_sym, Hx. unfold has_unit in IH. rewrite (IH Ha).
    reflexivity.
Qed.

Lemma indexOf_none c a : has_unit c a = false -> indexOf c a = None.
Proof.
  induction a as [|x a IH]; [reflexivity|].
  unfold has_unit. cbn [existsb indexOf]. intros H.
  apply orb_false_iff in H. destruct H as [Hx Ha].
  rewrite N.eqb_sym, Hx. unfold has_unit in IH. rewrite (IH Ha).
  reflexivity.
Qed.

(** The part before the first marker is chosen for [animate = false], all
    that follows it for [animate = true]; a template without marker is
    taken whole. *)
Theorem alternative_chooses_at_first_slash a b :
  has_unit (ch "/") a = false ->
  alternative false (a ++ ch "/" :: b) = a
  /\ alternative true (a ++ ch "/" :: b) = b
  /\ forall animate, alternative animate a = a.
Proof.
  intros Ha. unfold alternative.
  rewrite (indexOf_app _ _ b Ha), (indexOf_none _ _ Ha).
  unfold slice_to, slice_from.
  repeat split.
  - rewrite firstn_app, firstn_all, Nat.sub_diag. simpl. apply app_nil_r.
  - rewrite Nat.add_1_r.
    change (a ++ ch "/" :: b) with (a ++ [ch "/"] ++ b).
    rewrite app_assoc.
    replace (S (length a)) with (length (a ++ [ch "/"]))
      by (rewrite length_app; simpl; lia).
    rewrite skipn_app, skipn_all, Nat.sub_diag. reflexivity.
Qed.

(** ** [trim] *)

Lemma trimStart_head s :
  match trimStart s with
  | [] => True
  | c :: _ => is_space c = false
  end.
Proof.
  induction s as [|c s IH]; [exact I|]. cbn [trimStart].
  destruct (is_space c) eqn:Hc; [exact IH | exact Hc].
Qed.

(** [trimStart] drops a run of white space. *)
Lemma trimStart_suffix s :
  exists pre, s = pre ++ trimStart s /\ forallb is_space pre = true.
Proof.
  induction s as [|c s (pre & IH & Hpre)]; [exists []; auto|].
  cbn [trimStart]. destruct (is_space c) eqn:Hc.
  - exists (c :: pre). cbn [app forallb]. rewrite Hc, Hpre, <- IH. auto.
  - exists []. auto.
Qed.

Lemma trimStart_fixed c s : is_space c = false -> trimStart (c :: s) = c :: s.
Proof. intros H. cbn [trimStart]. rewrite H. reflexivity. Qed.

Lemma last_rev_head (c d : unit16) s : last (rev (c :: s)) d = c.
Proof. cbn [rev]. apply last_last. Qed.

Lemma trim_tidy s : tidy (trim s).
Proof.
  unfold trim, trimEnd.
  pose proof (trimStart_head s) as Hh.
  destruct (trimStart_suffix (rev (trimStart s))) as (pre & Heq & Hpre).
  pose proof (trimStart_head (rev (trimStart s))) as Ht.
  destruct (trimStart (rev (trimStart s))) as [|c t] eqn:Hts; [exact I|].
  apply (f_equal (@rev _)) in Heq. rewrite rev_involutive, rev_app_distr in Heq.
  unfold tidy. destruct (rev (c :: t)) as [|x y] eqn:Hr.
  { apply (f_equal (@length _)) in Hr. rewrite length_rev in Hr.
    discriminate Hr. }
  rewrite <- Hr at 1. rewrite last_rev_head. split; [|exact Ht].
  rewrite Heq in Hh. cbn [app] in Hh. exact Hh.
Qed.

Lemma tidy_fixed s : tidy s -> trim s = s.
Proof.
  unfold tidy, trim, trimEnd. destruct s as [|c s]; [reflexivity|].
  intros [Hc Hl]. rewrite (trimStart_fixed c s Hc).
  destruct (rev (c :: s)) as [|x y] eqn:Hr.
  { apply (f_equal (@length _)) in Hr. rewrite length_rev in Hr.
    discriminate Hr. }
  assert (Hx : x = last (c :: s) c).
  { apply (f_equal (@rev _)) in Hr. rewrite rev_involutive in Hr.
    rewrite Hr. cbn [rev]. rewrite last_last. reflexivity. }
  rewrite <- Hx in Hl. rewrite (trimStart_fixed x y Hl), <- Hr.
  apply rev_involutive.
Qed.

Lemma trim_idempotent s : trim (trim s) = trim s.
Proof. apply tidy_fixed, trim_tidy. Qed.

(** ** Labels *)

Lemma endsWith_last c s d :
  s <> [] -> endsWith c s = (last s d =? c)%N.
Proof.
  intros Hne. unfold endsWith.
  destruct (rev s) as [|x y] eqn:Hr.
  - apply (f_equal (@length _)) in Hr. rewrite length_rev in Hr.
    destruct s; [contradiction | discriminate Hr].
  - apply (f_equal (@rev _)) in Hr. rewrite rev_involutive in Hr.
    rewrite Hr. cbn [rev]. rewrite last_last. reflexivity.
Qed.

(** The label of a person is empty or ends with a closing parenthesis,
    has no white space at its ends, and formatting it again changes
    nothing. *)
Theorem formatPersonLabel_closed innerText :
  (formatPersonLabel innerText = []
   \/ endsWith (ch ")") (formatPersonLabel innerText) = true)
  /\ trim (formatPersonLabel innerText) = formatPersonLabel innerText
  /\ formatPersonLabel (formatPersonLabel innerText)
     = formatPersonLabel innerText.
Proof.
  assert (Hfix : forall l, tidy l ->
            (l = [] \/ endsWith (ch ")") l = true) ->
            formatPersonLabel l = l).
  { intros l Ht Hl. unfold formatPersonLabel. rewrite (tidy_fixed l Ht).
    destruct Hl as [-> | ->]; [reflexivity|]. rewrite andb_false_r.
    reflexivity. }
  assert (H : (formatPersonLabel innerText = []
               \/ endsWith (ch ")") (formatPersonLabel innerText) = true)
              /\ tidy (formatPersonLabel innerText)).
  { unfold formatPersonLabel. pose proof (trim_tidy innerText) as Ht.
    destruct (trim innerText) as [|c s] eqn:Hl; [split; [left; reflexivity | exact I]|].
    cbn [truthy andb].
    destruct (endsWith (ch ")") (c :: s)) eqn:He; cbn [negb];
      [split; [right; exact He | exact Ht]|].
    split.
    - right. unfold endsWith. rewrite rev_app_distr. cbn [rev app].
      apply N.eqb_refl.
    - destruct Ht as [Hc _]. cbn [app tidy]. split; [exact Hc|].
      change (c :: s ++ u ")") with ((c :: s) ++ [ch ")"]).
      rewrite last_last. reflexivity. }
  destruct H as [Hend Ht]. split; [exact Hend|].
  split; [apply tidy_fixed; exact Ht | apply Hfix; assumption].
Qed.

(** ** The attorney *)

Lemma has_empty_word t :
  existsb (fun w => match w with [] => true | _ :: _ => false end)
          (split (ch " ") t) = true
  <-> In [] (split (ch " ") t).
Proof.
  rewrite existsb_exists. split.
  - intros ([|? ?] & Hin & H); [exact Hin | discriminate].
  - intros H. exists []. auto.
Qed.

(** The outcome of a call on an instance that holds at most two
    replacements: that of a fresh instance, an exception exactly for an
    unusable text. *)
Lemma inflect_value_outcome r text :
  length r <= 2 ->
  length (snd (inflect_value r text)) <= 2
  /\ fst (inflect_value r text)
     = match text with
       | Some t => inflect t false
       | None => Threw TypeError
       end
  /\ if unusable text then fst (inflect_value r text) = Threw TypeError
     else exists forms, fst (inflect_value r text) = Returned forms.
Proof.
  intros Hr. destruct text as [t|]; cbn [inflect_value fst snd];
    [|cbn [unusable]; auto].
  destruct (inflect_on_stale r t false Hr) as [Hfst Hlen].
  split; [exact Hlen|]. split; [exact Hfst|].
  destruct (unusable (Some t)) eqn:He; cbn [unusable] in He.
  - apply has_empty_word in He.
    exact (inflect_throws_on_empty_word r t false He).
  - assert (Hne : ~ In [] (split (ch " ") t)).
    { intros Hin. apply has_empty_word in Hin. congruence. }
    unfold inflect_on.
    destruct (inflect_words_returns false (rev (split (ch " ") t)))
      with (st := {| gender := None; inflected := []; reps := r |})
      as [st' Hst'].
    { rewrite <- in_rev. exact Hne. }
    destruct (inflect_words _ _ _) as [o r']. cbn [fst] in Hst'. subst o.
    eexists. reflexivity.
Qed.

(** [formatAttorneyText] treats each name as a fresh instance would: with
    inflection on, the names are replaced by slot 7 of their own results,
    and the call raises when a name is missing or [inflect] raises on
    it. *)
Theorem formatAttorneyText_names inflectText attorney :
  formatAttorneyText inflectText attorney
  = if inflectText then
      match firstName attorney, lastName attorney with
      | Some first, Some last =>
        match inflect first false, inflect last false with
        | Returned inflectedFirstName, Returned inflectedLastName =>
          Normal (attorney_text attorney (get inflectedFirstName 7)
                    (get inflectedLastName 7))
        | _, _ => Throw TypeErr
        end
      | _, _ => Throw TypeErr
      end
    else Normal (attorney_text attorney (firstName attorney)
                   (lastName attorney)).
Proof.
  unfold formatAttorneyText. destruct inflectText; [|reflexivity].
  destruct (inflect_value_outcome fresh (firstName attorney) (Nat.le_0_l 2))
    as (Hlen & Hfst & _).
  destruct (inflect_value fresh (firstName attorney)) as [o1 r1].
  cbn [fst snd] in *. subst o1.
  destruct (inflect_value_outcome r1 (lastName attorney) Hlen)
    as (_ & Hfst2 & _).
  destruct (inflect_value r1 (lastName attorney)) as [o2 r2].
  cbn [fst] in Hfst2. subst o2.
  destruct (firstName attorney) as [first|];
    [destruct (inflect first false)|];
    (destruct (lastName attorney) as [last|];
     [destruct (inflect last false)|]); reflexivity.
Qed.

(** [formatAttorneyText] raises exactly when inflection is on and a name
    is [undefined] or has an empty word (an empty name, a doubled, leading
    or trailing space); what it raises is a [TypeError]. *)
Theorem formatAttorneyText_raises inflectText attorney :
  (exists e, formatAttorneyText inflectText attorney = Throw e)
  <-> inflectText = true
      /\ unusable (firstName attorney) || unusable (lastName attorney) = true.
Proof.
  unfold formatAttorneyText. destruct inflectText.
  2:{ split; [intros [e H]; discriminate H | intros [H _]; discriminate H]. }
  destruct (inflect_value_outcome fresh (firstName attorney) (Nat.le_0_l 2))
    as (Hlen & _ & H1).
  destruct (inflect_value fresh (firstName attorney)) as [o1 r1].
  cbn [fst snd] in *.
  destruct (unusable (firstName attorney)).
  { subst o1. cbn [orb]. split; [auto | intros _; eexists; reflexivity]. }
  destruct H1 as [f1 ->]. cbn [orb].
  destruct (inflect_value_outcome r1 (lastName attorney) Hlen)
    as (_ & _ & H2).
  destruct (inflect_value r1 (lastName attorney)) as [o2 r2].
  cbn [fst] in H2.
  destruct (unusable (lastName attorney)).
  { subst o2. split; [auto | intros _; eexists; reflexivity]. }
  destruct H2 as [f2 ->].
  split; [intros [e H]; discriminate H | intros [_ H]; discriminate H].
Qed.

Lemma formatAttorneyText_type_error inflectText attorney e :
  formatAttorneyText inflectText attorney = Throw e -> e = TypeErr.
Proof.
  unfold formatAttorneyText. destruct inflectText; [|discriminate].
  destruct (inflect_value fresh (firstName attorney)) as [[f1|e1] r1];
    [|intros H; injection H as <-; reflexivity].
  destruct (inflect_value r1 (lastName attorney)) as [[f2|e2] r2];
    [discriminate | intros H; injection H as <-; reflexivity].
Qed.

(** ** The one-person authority *)

Lemma with_attorney_type_error inflectText no_common p text e :
  with_attorney inflectText no_common p text = Throw e -> e = TypeErr.
Proof.
  unfold with_attorney. destruct (_ && _); [|discriminate].
  destruct (formatAttorneyText inflectText (attorney p)) as [a|e'] eqn:Ha;
    [discriminate|].
  intros H; injection H as <-.
  exact (formatAttorneyText_type_error _ _ _ Ha).
Qed.

(** For a one-person authority [formatPersonText] raises a
    [ReferenceError] exactly when the authority has a state of
    registration other than "Česká republika". *)
Theorem onepersonauthority_reference_error inflectText calculateAge p
    commonAttributes :
  finalType (own p) = Some (u "onepersonauthority") ->
  formatPersonText inflectText calculateAge p commonAttributes
  = Throw ReferenceErr
  <-> truthy (registrationState (own p))
      && differs (registrationState (own p)) "Česká republika" = true.
Proof.
  intros Ht. unfold formatPersonText. rewrite Ht.
  replace (same (Some (u "onepersonauthority")) (Some (u "physical")))
    with false by (vm_compute; reflexivity).
  replace (same (Some (u "onepersonauthority")) (Some (u "legal")))
    with false by (vm_compute; reflexivity).
  replace (same (Some (u "onepersonauthority"))
             (Some (u "onepersonauthority")))
    with true by (vm_compute; reflexivity).
  unfold formatOnePersonAuthorityText.
  destruct (truthy (registrationState (own p))
            && differs (registrationState (own p)) "Česká republika").
  - split; reflexivity.
  - split; [|discriminate]. unfold append.
    destruct (with_attorney _ _ _ _) as [v|e] eqn:Hw; [discriminate|].
    apply with_attorney_type_error in Hw. subst e. discriminate.
Qed.

(** ** Decisions of the defendants *)

Lemma formatDefendantDecisions_cases defendantDecisions defendants
    prefixFormat :
  match formatDefendantDecisions defendantDecisions defendants
          prefixFormat with
  | Throw e =>
    e = TypeErr
    /\ exists d,
         defendantDecisions = [d] /\ 1 < length defendants
         /\ forallb (fun p => negb (same (name (own p))
                                         (Some (defendant d))))
                    defendants = true
  | Normal _ =>
    forall d, defendantDecisions = [d] -> 1 < length defendants ->
      existsb (fun p => same (name (own p)) (Some (defendant d)))
              defendants = true
  end.
Proof.
  unfold formatDefendantDecisions.
  destruct defendantDecisions as [|d [|d' rest]];
    [intros ? H; discriminate H | | intros ? H; discriminate H].
  unfold defendant_label.
  destruct (1 <? length defendants) eqn:Hn.
  2:{ apply Nat.ltb_ge in Hn.
      destruct (has_substring _ _); [|destruct (has_substring _ _)];
        intros ? _ H; lia. }
  apply Nat.ltb_lt in Hn.
  destruct (find _ defendants) as [p|] eqn:Hf.
  - apply find_some in Hf.
    assert (Hex : existsb (fun p => same (name (own p)) (Some (defendant d)))
                    defendants = true).
    { apply existsb_exists. exists p. exact Hf. }
    destruct (has_substring _ _); [|destruct (has_substring _ _)];
      intros ? H _; injection H as <-; exact Hex.
  - split; [reflexivity|]. exists d. split; [reflexivity|].
    split; [exact Hn|]. apply forallb_forall. intros p Hp.
    rewrite (find_none _ _ Hf p Hp). reflexivity.
Qed.

(** [formatDefendantDecisions] raises exactly when there is one decision,
    more than one defendant, and no defendant is named as the decision
    names its defendant. *)
Theorem formatDefendantDecisions_raises defendantDecisions defendants
    prefixFormat :
  (exists e, formatDefendantDecisions defendantDecisions defendants
               prefixFormat = Throw e)
  <-> exists d,
        defendantDecisions = [d] /\ 1 < length defendants
        /\ forallb (fun p => negb (same (name (own p))
                                        (Some (defendant d))))
                   defendants = true.
Proof.
  pose proof (formatDefendantDecisions_cases defendantDecisions defendants
                prefixFormat) as H.
  destruct (formatDefendantDecisions _ _ _) as [t|e].
  - split; [intros [e He]; discriminate He|].
    intros (d & Hd & Hn & Hall). specialize (H d Hd Hn).
    apply existsb_exists in H. destruct H as (p & Hp & Hs).
    rewrite forallb_forall in Hall. specialize (Hall p Hp).
    rewrite Hs in Hall. discriminate Hall.
  - split; [intros _; exact (proj2 H) | intros _; exists e; reflexivity].
Qed.

Lemma filter_matched defendants who defendantDecisions :
  In who defendants ->
  filter (fun d => same (Some (defendant d)) (name (own who)))
         (filter (matched defendants) defendantDecisions)
  = filter (fun d => same (Some (defendant d)) (name (own who)))
           defendantDecisions.
Proof.
  intros Hin. induction defendantDecisions as [|d ds IH]; [reflexivity|].
  cbn [filter].
  destruct (same (Some (defendant d)) (name (own who))) eqn:Hs.
  - assert (Hm : matched defendants d = true).
    { apply existsb_exists. exists who. split; assumption. }
    rewrite Hm. cbn [filter]. rewrite Hs, IH. reflexivity.
  - destruct (matched defendants d); [cbn [filter]; rewrite Hs|]; exact IH.
Qed.

(** A decision whose defendant is the name of no defendant is in no group:
    the text for several decisions is the same with and without it. *)
Theorem unmatched_decisions_dropped defendantDecisions defendants
    prefixFormat :
  groupDecisionsByDefendant (filter (matched defendants) defendantDecisions)
                            defendants
  = groupDecisionsByDefendant defendantDecisions defendants
  /\ formatMultipleDefendantDecisions
       (filter (matched defendants) defendantDecisions) defendants
       prefixFormat
     = formatMultipleDefendantDecisions defendantDecisions defendants
         prefixFormat.
Proof.
  assert (H : groupDecisionsByDefendant
                (filter (matched defendants) defendantDecisions) defendants
              = groupDecisionsByDefendant defendantDecisions defendants).
  { unfold groupDecisionsByDefendant. apply map_ext_in. intros who Hin.
    rewrite (filter_matched defendants who defendantDecisions Hin).
    reflexivity. }
  split; [exact H|]. unfold formatMultipleDefendantDecisions.
  rewrite H. reflexivity.
Qed.

(** ** The complainants *)

Lemma filter_all {A} (f : A -> bool) l :
  (forall x, In x l -> f x = true) -> filter f l = l.
Proof.
  induction l as [|x l IH]; intros H; [reflexivity|]. cbn [filter].
  rewrite (H x (or_introl eq_refl)), IH; [reflexivity|].
  intros y Hy. apply H. right. exact Hy.
Qed.

(** Persons without a [name] are told apart by nothing: when a complainant
    has none, every plaintiff without a name counts as a complainant.  With
    two or more plaintiffs, all without a name, the role is that of all
    plaintiffs, whoever complained. *)
Theorem unnamed_complainant_counts_all c complainants plaintiffs defendants
    interestedParties useNavrhovatel :
  In c complainants -> name (own c) = None ->
  (forall p, In p plaintiffs -> name (own p) = None) ->
  2 <= length plaintiffs ->
  getComplainantRole complainants plaintiffs defendants interestedParties
    useNavrhovatel
  = if useNavrhovatel then u "navrhovatelů" else u "žalobců".
Proof.
  intros Hc Hn Hp Hlen. unfold getComplainantRole.
  rewrite (filter_all _ plaintiffs).
  2:{ intros p Hin. unfold is_complainant. apply existsb_exists.
      exists None. split.
      - apply in_map_iff. exists c. split; assumption.
      - rewrite (Hp p Hin). reflexivity. }
  destruct plaintiffs as [|p1 [|p2 rest]]; cbn [length] in Hlen; [lia | lia|].
  cbn [length Nat.ltb Nat.leb]. unfold formatComplainants.
  rewrite Nat.eqb_refl.
  destruct useNavrhovatel; vm_compute; reflexivity.
Qed.

(** ** Dates *)

Lemma digit_cases c :
  (48 <=? c)%N && (c <=? 57)%N = true ->
  c = 48%N \/ c = 49%N \/ c = 50%N \/ c = 51%N \/ c = 52%N \/ c = 53%N
  \/ c = 54%N \/ c = 55%N \/ c = 56%N \/ c = 57%N.
Proof.
  intros H. apply andb_true_iff in H. destruct H as [H1 H2].
  apply N.leb_le in H1, H2. lia.
Qed.

Lemma digit_not_space c :
  (48 <=? c)%N && (c <=? 57)%N = true ->
  is_space c = false /\ (c =? ch "+")%N = false /\ (c =? ch "-")%N = false
  /\ (c =? ch "x")%N = false /\ (c =? ch "X")%N = false.
Proof.
  intros H. apply digit_cases in H.
  repeat (destruct H as [-> | H]; [vm_compute; auto|]). subst c.
  vm_compute. auto.
Qed.

(** The digits read back are the digits written. *)
Lemma units_of_decimal_prefix s :
  all_digits s = true ->
  units_of_uint (decimal_prefix s) = s
  /\ Decimal.nb_digits (decimal_prefix s) = length s.
Proof.
  induction s as [|c s IH]; [auto|]. cbn [all_digits forallb].
  intros H. apply andb_true_iff in H. destruct H as [Hc Hs].
  destruct (IH Hs) as [IH1 IH2]. apply digit_cases in Hc.
  cbn [decimal_prefix length].
  repeat (destruct Hc as [-> | Hc];
          [cbn [decimal_digit N.eqb Pos.eqb units_of_uint Decimal.nb_digits];
           rewrite IH1, IH2; auto|]).
  subst c. cbn [decimal_digit N.eqb Pos.eqb units_of_uint Decimal.nb_digits].
  rewrite IH1, IH2. auto.
Qed.

Lemma decimal_prefix_not_nil c s :
  (48 <=? c)%N && (c <=? 57)%N = true ->
  decimal_prefix (c :: s) <> Decimal.Nil.
Proof.
  intros Hc. apply digit_cases in Hc. cbn [decimal_prefix].
  repeat (destruct Hc as [-> | Hc]; [discriminate|]). subst c. discriminate.
Qed.

(** Leading zeros are not written back. *)
Lemma units_of_unorm s :
  all_digits s = true -> s <> [] ->
  units_of_uint (Decimal.unorm (decimal_prefix s)) = strip_zeros s.
Proof.
  induction s as [|c s IH]; [contradiction|]. intros H _.
  cbn [all_digits forallb] in H. apply andb_true_iff in H.
  destruct H as [Hc Hs]. fold (all_digits s) in Hs.
  destruct (units_of_decimal_prefix s Hs) as [Hu _].
  apply digit_cases in Hc. destruct Hc as [-> | Hc].
  - cbn [decimal_prefix decimal_digit N.eqb Pos.eqb].
    destruct s as [|c' s'].
    + reflexivity.
    + change (Decimal.unorm (Decimal.D0 (decimal_prefix (c' :: s'))))
        with (Decimal.unorm (decimal_prefix (c' :: s'))).
      rewrite (IH Hs); [|discriminate]. reflexivity.
  - assert (Hz : (c =? 48)%N = false) by (apply N.eqb_neq; lia).
    assert (Hst : strip_zeros (c :: s) = c :: s).
    { cbn [strip_zeros]. rewrite Hz. destruct s; reflexivity. }
    rewrite Hst. rewrite <- Hu at 2. clear Hz Hst.
    cbn [decimal_prefix].
    repeat (destruct Hc as [-> | Hc]; [reflexivity|]). subst c. reflexivity.
Qed.

Lemma of_uint_acc_bound d : forall acc,
  (N.pos (Pos.of_uint_acc d acc) + 1
   <= (N.pos acc + 1) * 10 ^ N.of_nat (Decimal.nb_digits d))%N.
Proof.
  induction d; intros acc; cbn [Pos.of_uint_acc Decimal.nb_digits];
    [rewrite N.pow_0_r; lia | ..];
    rewrite Nat2N.inj_succ, N.pow_succ_r';
    (etransitivity; [apply IHd|]);
    assert (0 < 10 ^ N.of_nat (Decimal.nb_digits d))%N
      by (apply N.neq_0_lt_0, N.pow_nonzero; discriminate);
    nia.
Qed.

Lemma of_uint_bound d :
  (N.of_uint d < 10 ^ N.of_nat (Decimal.nb_digits d))%N.
Proof.
  unfold N.of_uint.
  induction d; cbn [Pos.of_uint Decimal.nb_digits];
    [rewrite N.pow_0_r; reflexivity | ..];
    rewrite Nat2N.inj_succ, N.pow_succ_r';
    assert (Hp : (0 < 10 ^ N.of_nat (Decimal.nb_digits d))%N)
      by (apply N.neq_0_lt_0, N.pow_nonzero; discriminate);
    [lia | ..];
    match goal with
    | |- (N.pos (Pos.of_uint_acc _ ?a) < _)%N =>
      pose proof (of_uint_acc_bound d a) as Hb
    end;
    lia.
Qed.

(** [parseInt] on a run of at most 15 digits, and the text of what it
    returns. *)
Lemma number_text_digits s :
  all_digits s = true -> s <> [] -> length s <= 15 ->
  number_text (parseInt (Some s)) = Some (strip_zeros s).
Proof.
  intros Hd Hne Hlen.
  assert (Hp : parseInt (Some s)
               = Int false (N.of_uint (decimal_prefix s))).
  { unfold parseInt. cbn [str].
    destruct s as [|c0 s]; [contradiction|].
    pose proof Hd as Hd'. cbn [all_digits forallb] in Hd'.
    apply andb_true_iff in Hd'. destruct Hd' as [Hc0 Hs].
    destruct (digit_not_space c0 Hc0) as (Hsp & Hplus & Hminus & _).
    rewrite (trimStart_fixed c0 s Hsp), Hplus, Hminus. cbn [orb].
    pose proof (decimal_prefix_not_nil c0 s Hc0) as Hnil.
    destruct s as [|c1 s].
    - destruct (decimal_prefix [c0]) eqn:Hdp;
        [exfalso; exact (Hnil Hdp) | reflexivity ..].
    - cbn [forallb] in Hs. apply andb_true_iff in Hs. destruct Hs as [Hc1 _].
      destruct (digit_not_space c1 Hc1) as (_ & _ & _ & Hx & HX).
      rewrite Hx, HX, andb_false_r.
      destruct (decimal_prefix (c0 :: c1 :: s)) eqn:Hdp;
        [exfalso; exact (Hnil Hdp) | reflexivity ..]. }
  rewrite Hp. unfold number_text. cbn [andb].
  destruct (units_of_decimal_prefix s Hd) as [_ Hnb].
  pose proof (of_uint_bound (decimal_prefix s)) as Hb. rewrite Hnb in Hb.
  assert (Hlt : (N.of_uint (decimal_prefix s) <? 2 ^ 53)%N = true).
  { apply N.ltb_lt.
    assert (10 ^ N.of_nat (length s) <= 10 ^ 15)%N
      by (apply N.pow_le_mono_r; [discriminate | lia]).
    assert (10 ^ 15 < 2 ^ 53)%N by (vm_compute; reflexivity).
    lia. }
  rewrite Hlt. cbn [app].
  rewrite DecimalN.Unsigned.to_of.
  rewrite (units_of_unorm s Hd Hne). reflexivity.
Qed.

(** [formatDate] on a day and a month of digits (at most 15 each) and a
    year without a full stop: the leading zeros of day and month are
    dropped, the year is copied. *)
Theorem formatDate_drops_leading_zeros day month year :
  all_digits day = true -> day <> [] -> length day <= 15 ->
  all_digits month = true -> month <> [] -> length month <= 15 ->
  has_unit (ch ".") year = false ->
  formatDate (day ++ ch "." :: month ++ ch "." :: year)
  = Some (strip_zeros day ++ u ". " ++ strip_zeros month ++ u ". " ++ year).
Proof.
  intros Hd Hdn Hdl Hm Hmn Hml Hy. unfold formatDate.
  assert (Hdot : forall s, all_digits s = true -> has_unit (ch ".") s = false).
  { intros s Hs. unfold has_unit. apply not_true_is_false. intros Hex.
    apply existsb_exists in Hex. destruct Hex as (c & Hin & Hc).
    apply N.eqb_eq in Hc. subst c. unfold all_digits in Hs.
    rewrite forallb_forall in Hs. specialize (Hs _ Hin).
    vm_compute in Hs. discriminate Hs. }
  rewrite !split_app, (split_one _ day (Hdot day Hd)),
    (split_one _ month (Hdot month Hm)), (split_one _ year Hy).
  cbn [app nth_error].
  rewrite (number_text_digits day Hd Hdn Hdl),
    (number_text_digits month Hm Hmn Hml).
  reflexivity.
Qed.

Lemma formatDate_drops_leading_zeros_witness :
  formatDate (u "05.03.2021") = Some (u "5. 3. 2021").
Proof.
  refine (formatDate_drops_leading_zeros (u "05") (u "03") (u "2021")
            _ _ _ _ _ _ _);
    first [ reflexivity | discriminate | vm_compute; lia ].
Defined.

(** ** The caption is produced *)

Lemma formatAttorneyText_cases inflectText attorney :
  match formatAttorneyText inflectText attorney with
  | Throw e =>
    e = TypeErr /\ inflectText = true
    /\ unusable (firstName attorney) || unusable (lastName attorney) = true
  | Normal _ =>
    inflectText = false
    \/ unusable (firstName attorney) || unusable (lastName attorney) = false
  end.
Proof.
  unfold formatAttorneyText. destruct inflectText; [|left; reflexivity].
  destruct (inflect_value_outcome fresh (firstName attorney) (Nat.le_0_l 2))
    as (Hlen & _ & H1).
  destruct (inflect_value fresh (firstName attorney)) as [o1 r1].
  cbn [fst snd] in *.
  destruct (unusable (firstName attorney)); [subst o1; auto|].
  destruct H1 as [f1 ->]. cbn [orb].
  destruct (inflect_value_outcome r1 (lastName attorney) Hlen)
    as (_ & _ & H2).
  destruct (inflect_value r1 (lastName attorney)) as [o2 r2].
  cbn [fst] in H2.
  destruct (unusable (lastName attorney)); [subst o2; auto|].
  destruct H2 as [f2 ->]. right. reflexivity.
Qed.

Lemma formatAttorneyText_normal inflectText a :
  declinable inflectText a = true -> differs (firstName a) String.EmptyString = true ->
  exists text, formatAttorneyText inflectText a = Normal text.
Proof.
  intros Hd Hf. pose proof (formatAttorneyText_cases inflectText a) as H.
  destruct (formatAttorneyText inflectText a) as [t|e]; [exists t; reflexivity|].
  destruct H as (_ & -> & Hu). unfold declinable in Hd.
  rewrite Hu in Hd. clear Hu.
  destruct (firstName a) as [[|c s]|]; vm_compute in Hf, Hd; discriminate.
Qed.

Lemma truthy_differs v : truthy v = true -> differs v String.EmptyString = true.
Proof. destruct v as [[|c s]|]; [discriminate | reflexivity | discriminate]. Qed.

Lemma with_attorney_normal inflectText no_common p text :
  declinable inflectText (attorney p) = true ->
  exists v, with_attorney inflectText no_common p text = Normal v.
Proof.
  intros Hd. unfold with_attorney.
  destruct (no_common && truthy (firstName (attorney p))) eqn:Hc;
    [|eexists; reflexivity].
  apply andb_true_iff in Hc. destruct Hc as [_ Ht].
  destruct (formatAttorneyText_normal inflectText (attorney p) Hd
              (truthy_differs _ Ht)) as [t ->].
  eexists; reflexivity.
Qed.

Lemma formatPersonText_normal inflectText calculateAge p commonAttributes :
  printable inflectText p = true ->
  exists text,
    formatPersonText inflectText calculateAge p commonAttributes
    = Normal text.
Proof.
  unfold printable, foreign_authority. intros H.
  apply andb_true_iff in H. destruct H as [Hf Hd].
  unfold formatPersonText.
  destruct (same (finalType (own p)) (Some (u "physical"))).
  { unfold formatPhysicalPersonText. cbv zeta.
    match goal with
    | |- context [with_attorney ?i ?n ?q ?t] =>
      destruct (with_attorney_normal i n q t Hd) as [v ->]
    end. eexists; reflexivity. }
  destruct (same (finalType (own p)) (Some (u "legal"))).
  { unfold formatLegalPersonText. cbv zeta.
    match goal with
    | |- context [with_attorney ?i ?n ?q ?t] =>
      destruct (with_attorney_normal i n q t Hd) as [v ->]
    end. eexists; reflexivity. }
  destruct (same (finalType (own p)) (Some (u "onepersonauthority")));
    [|eexists; reflexivity].
  unfold formatOnePersonAuthorityText. cbn [andb] in Hf.
  apply negb_true_iff in Hf. rewrite Hf.
  match goal with
  | |- context [with_attorney ?i ?n ?q ?t] =>
    destruct (with_attorney_normal i n q t Hd) as [v ->]
  end. eexists; reflexivity.
Qed.

Lemma list_parties_normal inflectText calculateAge commonAttributes count
    parties :
  forallb (printable inflectText) parties = true ->
  forall index result,
  exists text,
    list_parties inflectText calculateAge commonAttributes count index
      parties result = Normal text.
Proof.
  induction parties as [|p parties IH]; intros H index result;
    cbn [list_parties]; [eexists; reflexivity|].
  cbn [forallb] in H. apply andb_true_iff in H. destruct H as [Hp Hrest].
  destruct (formatPersonText_normal inflectText calculateAge p
              commonAttributes Hp) as [t ->].
  apply (IH Hrest).
Qed.

Lemma formatCommonAttributes_normal inflectText commonAttributes partyCount :
  (forall a, commonAttorney commonAttributes = Some a ->
     declinable inflectText a = true) ->
  exists text,
    formatCommonAttributes inflectText commonAttributes partyCount
    = Normal text.
Proof.
  intros H. unfold formatCommonAttributes.
  destruct (commonAttorney commonAttributes) as [a|];
    [|eexists; reflexivity].
  destruct (differs (firstName a) String.EmptyString) eqn:Hdf; [|eexists; reflexivity].
  destruct (formatAttorneyText_normal inflectText a (H a eq_refl) Hdf)
    as [t ->].
  eexists; reflexivity.
Qed.

Lemma formatMultipleParties_normal inflectText calculateAge parties role :
  parties <> [] ->
  forallb (printable inflectText) parties = true ->
  exists text,
    formatMultipleParties inflectText calculateAge parties role
    = Normal text.
Proof.
  intros Hne H. unfold formatMultipleParties, getCommonAttributes.
  destruct parties as [|first rest]; [contradiction|].
  match goal with
  | |- context [list_parties ?i ?a ?c ?n ?x ?l ?r] =>
    destruct (list_parties_normal i a c n l H x r) as [t ->]
  end.
  match goal with
  | |- context [formatCommonAttributes ?i ?c ?n] =>
    destruct (formatCommonAttributes_normal i c n) as [t' ->];
      [|eexists; reflexivity]
  end.
  cbn [commonAttorney]. intros a Ha.
  destruct (forallb _ (first :: rest)) in Ha; [|discriminate Ha].
  injection Ha as <-.
  cbn [forallb] in H. apply andb_true_iff in H. destruct H as [Hp _].
  unfold printable in Hp. apply andb_true_iff in Hp. exact (proj2 Hp).
Qed.

Lemma formatParties_normal inflectText calculateAge parties pluralRole
    singularRole :
  parties <> [] ->
  forallb (printable inflectText) parties = true ->
  exists text,
    formatParties inflectText calculateAge parties pluralRole singularRole
    = Normal text.
Proof.
  intros Hne H. unfold formatParties.
  destruct (1 <? length parties);
    [exact (formatMultipleParties_normal _ _ _ _ Hne H)|].
  destruct parties as [|p rest]; [contradiction|].
  cbn [hd_error formatSingleParty].
  cbn [forallb] in H. apply andb_true_iff in H. destruct H as [Hp _].
  destruct (formatPersonText_normal inflectText calculateAge p no_common Hp)
    as [t ->].
  eexists; reflexivity.
Qed.

Lemma formatParties_empty inflectText calculateAge pluralRole singularRole :
  formatParties inflectText calculateAge [] pluralRole singularRole
  = Throw TypeErr.
Proof. reflexivity. Qed.

Lemma formatInterestedParties_normal inflectText calculateAge
    interestedParties :
  forallb (printable inflectText) interestedParties = true ->
  exists text,
    formatInterestedParties inflectText calculateAge interestedParties
    = Normal text.
Proof.
  intros H. unfold formatInterestedParties.
  assert (Ht : exists texts,
            interested_texts inflectText calculateAge interestedParties
            = Normal texts).
  { induction interestedParties as [|p rest IH]; cbn [interested_texts];
      [eexists; reflexivity|].
    cbn [forallb] in H. apply andb_true_iff in H. destruct H as [Hp Hrest].
    destruct (formatPersonText_normal inflectText calculateAge p no_common
                Hp) as [t ->].
    destruct (IH Hrest) as [ts ->]. eexists; reflexivity. }
  destruct Ht as [texts ->]. eexists; reflexivity.
Qed.

(** [formatInformation] returns a caption when there is a plaintiff and a
    defendant, no party is a one-person authority registered abroad, the
    names of every attorney can be inflected when inflection is on, and a
    single decision names one of several defendants. *)
Theorem formatInformation_returns inflectText calculateAge courtDecision ps
    defendantDecisions includeVRizeni prefixFormat useNavrhovatel :
  plaintiffs ps <> [] -> defendants ps <> [] ->
  forallb (printable inflectText)
          (plaintiffs ps ++ defendants ps ++ interestedParties ps) = true ->
  (forall d, defendantDecisions = [d] -> 1 < length (defendants ps) ->
     existsb (fun p => same (name (own p)) (Some (defendant d)))
             (defendants ps) = true) ->
  exists text,
    formatInformation inflectText calculateAge courtDecision ps
      defendantDecisions includeVRizeni prefixFormat useNavrhovatel
    = Normal text.
Proof.
  intros Hp Hd Hall Hdec. rewrite !forallb_app in Hall.
  apply andb_true_iff in Hall. destruct Hall as [Hap Hall].
  apply andb_true_iff in Hall. destruct Hall as [Had Hai].
  unfold formatInformation. cbv zeta.
  match goal with
  | |- context [formatParties ?i ?a (plaintiffs ps) ?x ?y] =>
    destruct (formatParties_normal i a (plaintiffs ps) x y Hp Hap) as [t1 ->]
  end.
  match goal with
  | |- context [formatParties ?i ?a (defendants ps) ?x ?y] =>
    destruct (formatParties_normal i a (defendants ps) x y Hd Had) as [t2 ->]
  end.
  destruct (formatInterestedParties_normal inflectText calculateAge
              (interestedParties ps) Hai) as [t3 ->].
  pose proof (formatDefendantDecisions_cases defendantDecisions
                (defendants ps) prefixFormat) as Hc.
  destruct (formatDefendantDecisions defendantDecisions (defendants ps)
              prefixFormat) as [t4|e].
  - destruct (0 <? length (interestedParties ps)); eexists; reflexivity.
  - exfalso. destruct Hc as (_ & d & Hds & Hn & Hnone).
    specialize (Hdec d Hds Hn). apply existsb_exists in Hdec.
    destruct Hdec as (p & Hin & Hs). rewrite forallb_forall in Hnone.
    specialize (Hnone p Hin). rewrite Hs in Hnone. discriminate Hnone.
Qed.

(** [formatInformation] returns no caption for a case without a plaintiff
    or without a defendant: it raises. *)
Theorem formatInformation_needs_parties inflectText calculateAge
    courtDecision ps defendantDecisions includeVRizeni prefixFormat
    useNavrhovatel :
  plaintiffs ps = [] \/ defendants ps = [] ->
  exists e,
    formatInformation inflectText calculateAge courtDecision ps
      defendantDecisions includeVRizeni prefixFormat useNavrhovatel
    = Throw e.
Proof.
  intros H. unfold formatInformation. cbv zeta.
  destruct (formatParties inflectText calculateAge (plaintiffs ps) _ _)
    as [t1|e1] eqn:H1; [|eexists; reflexivity].
  destruct H as [H|H].
  - rewrite H, formatParties_empty in H1. discriminate H1.
  - rewrite H, formatParties_empty. eexists; reflexivity.
Qed.

(** ** Versions *)

Lemma or_zero_numeric current i : or_zero (map Some current) i = nth i current 0%N.
Proof.
  unfold or_zero. revert i.
  induction current as [|c current IH]; intros [|i]; cbn [map nth_error nth];
    try reflexivity. apply IH.
Qed.

Lemma newer_from_numeric current : forall rest i,
  newer_from (map Some current) i (map Some rest) = true
  <-> exists k,
        k < length rest
        /\ (forall j, j < k -> nth j rest 0%N = nth (i + j) current 0%N)
        /\ (nth (i + k) current 0 < nth k rest 0)%N.
Proof.
  induction rest as [|l rest IH]; intros i; cbn [map newer_from length].
  - split; [discriminate | intros (k & Hk & _); lia].
  - rewrite or_zero_numeric.
    destruct (nth i current 0 <? l)%N eqn:Hlt.
    + apply N.ltb_lt in Hlt. split; [intros _|reflexivity].
      exists 0. rewrite Nat.add_0_r. cbn [nth].
      split; [lia|]. split; [intros j Hj; lia | exact Hlt].
    + apply N.ltb_ge in Hlt.
      destruct (l <? nth i current 0)%N eqn:Hgt.
      * apply N.ltb_lt in Hgt. split; [discriminate|].
        intros ([|k] & Hk & Heq & Hk').
        -- rewrite Nat.add_0_r in Hk'. cbn [nth] in Hk'. lia.
        -- specialize (Heq 0 (Nat.lt_0_succ k)).
           rewrite Nat.add_0_r in Heq. cbn [nth] in Heq. lia.
      * apply N.ltb_ge in Hgt. rewrite (IH (S i)). split.
        -- intros (k & Hk & Heq & Hk'). exists (S k).
           split; [lia|]. rewrite Nat.add_succ_r. cbn [nth].
           split; [|exact Hk'].
           intros [|j] Hj; cbn [nth].
           ++ rewrite Nat.add_0_r. lia.
           ++ rewrite Nat.add_succ_r. apply Heq. lia.
        -- intros ([|k] & Hk & Heq & Hk').
           ++ rewrite Nat.add_0_r in Hk'. cbn [nth] in Hk'. lia.
           ++ exists k. split; [lia|].
              rewrite Nat.add_succ_r in Hk'. cbn [nth] in Hk'.
              split; [|exact Hk'].
              intros j Hj. specialize (Heq (S j) (proj1 (Nat.succ_lt_mono _ _) Hj)).
              rewrite Nat.add_succ_r in Heq. cbn [nth] in Heq. exact Heq.
Qed.

(** For versions whose parts are all numbers, [isNewerVersion] holds
    exactly when, at the first index where the latest version differs from
    the current one read with zeros for its missing parts, the latest is
    larger.  Parts of the current version beyond the length of the latest
    are not looked at. *)
Theorem isNewerVersion_first_difference current latest :
  isNewerVersion (map Some current) (map Some latest) = true
  <-> exists i,
        i < length latest
        /\ (forall j, j < i -> nth j latest 0%N = nth j current 0%N)
        /\ (nth i current 0 < nth i latest 0)%N.
Proof. exact (newer_from_numeric current latest 0). Qed.

Lemma newer_from_same before : forall rest,
  newer_from (before ++ rest) (length before) rest = false.
Proof.
  intros rest. revert before.
  induction rest as [|l rest IH]; intros before; [reflexivity|].
  cbn [newer_from].
  assert (Hnext : newer_from (before ++ l :: rest) (S (length before)) rest
                  = false).
  { specialize (IH (before ++ [l])). rewrite <- app_assoc, length_app in IH.
    cbn [app length] in IH. rewrite Nat.add_1_r in IH. exact IH. }
  destruct l as [l|]; [|exact Hnext].
  unfold or_zero. rewrite nth_error_app2, Nat.sub_diag by lia.
  cbn [nth_error]. rewrite N.ltb_irrefl. exact Hnext.
Qed.

(** A version is never newer than itself, whatever its parts, [NaN]
    included. *)
Theorem isNewerVersion_irreflexive parts :
  isNewerVersion parts parts = false.
Proof. exact (newer_from_same [] parts). Qed.

(** Of two versions whose parts are all numbers, at most one is newer than
    the other. *)
Theorem isNewerVersion_asymmetric a b :
  isNewerVersion (map Some a) (map Some b) = true ->
  isNewerVersion (map Some b) (map Some a) = false.
Proof.
  intros H. apply (proj1 (newer_from_numeric a b 0)) in H.
  destruct H as (i & Hi & Heq & Hlt). cbn [Nat.add] in Heq, Hlt.
  apply not_true_is_false. intros H'.
  apply (proj1 (newer_from_numeric b a 0)) in H'.
  destruct H' as (k & Hk & Heq' & Hlt'). cbn [Nat.add] in Heq', Hlt'.
  destruct (Nat.lt_trichotomy i k) as [Hik | [-> | Hki]].
  - specialize (Heq' i Hik). lia.
  - lia.
  - specialize (Heq k Hki). lia.
Qed.

Lemma isNewerVersion_asymmetric_witness :
  isNewerVersion (map Some [1; 9; 3]%N) (map Some [1; 10]%N) = true
  /\ isNewerVersion (map Some [1; 10]%N) (map Some [1; 9; 3]%N) = false.
Proof.
  assert (H : isNewerVersion (map Some [1; 9; 3]%N) (map Some [1; 10]%N)
              = true) by reflexivity.
  split; [exact H|].
  exact (isNewerVersion_asymmetric [1; 9; 3]%N [1; 10]%N H).
Defined.

(** ** The name of the lower court *)

Lemma startsWith_app key s : startsWith key (key ++ s) = true.
Proof.
  induction key as [|k key IH]; [reflexivity|]. cbn [app startsWith].
  rewrite N.eqb_refl. exact IH.
Qed.

Lemma has_substring_at_head key s : has_substring key (key ++ s) = true.
Proof.
  destruct key as [|k key]; [destruct s; reflexivity|].
  cbn [app has_substring]. fold (app key s).
  change (k :: key ++ s) with ((k :: key) ++ s).
  rewrite startsWith_app. reflexivity.
Qed.

Lemma replace_first_at_head key by_ s :
  replace_first key by_ (key ++ s) = by_ ++ s.
Proof.
  destruct key as [|k key]; [destruct s; reflexivity|].
  cbn [app replace_first]. change (k :: key ++ s) with ((k :: key) ++ s).
  rewrite startsWith_app. cbn [app length skipn].
  rewrite skipn_app, skipn_all, Nat.sub_diag. reflexivity.
Qed.

(** A key is not found where its first letter does not occur. *)
Lemma has_substring_past key k key' pre s :
  key = k :: key' -> has_unit k pre = false ->
  has_substring key (pre ++ s) = has_substring key s.
Proof.
  intros -> Hpre. induction pre as [|c pre IH]; [reflexivity|].
  unfold has_unit in Hpre. cbn [existsb] in Hpre.
  apply orb_false_iff in Hpre. destruct Hpre as [Hc Hpre].
  cbn [app has_substring startsWith]. rewrite Hc. cbn [andb orb].
  apply IH. exact Hpre.
Qed.

Lemma replace_first_past key k key' by_ pre s :
  key = k :: key' -> has_unit k pre = false ->
  replace_first key by_ (pre ++ s) = pre ++ replace_first key by_ s.
Proof.
  intros -> Hpre. induction pre as [|c pre IH]; [reflexivity|].
  unfold has_unit in Hpre. cbn [existsb] in Hpre.
  apply orb_false_iff in Hpre. destruct Hpre as [Hc Hpre].
  cbn [app replace_first startsWith]. rewrite Hc. cbn [andb].
  rewrite (IH Hpre). reflexivity.
Qed.

Lemma last_app_nonempty (a b : jsstring) d d' :
  b <> [] -> last (a ++ b) d = last b d'.
Proof.
  intros Hb. destruct (exists_last Hb) as (b' & x & ->).
  rewrite app_assoc, !last_last. reflexivity.
Qed.

Lemma trim_between pre rest :
  is_space (hd (ch " ") pre) = false ->
  rest <> [] -> is_space (last rest 0%N) = false ->
  trim (pre ++ rest) = pre ++ rest.
Proof.
  intros Hc Hne Hl. apply tidy_fixed.
  destruct pre as [|c pre]; [discriminate Hc|]. cbn [hd] in Hc.
  cbn [app tidy]. split; [exact Hc|].
  change (c :: pre ++ rest) with ((c :: pre) ++ rest).
  rewrite (last_app_nonempty (c :: pre) rest c 0%N Hne). exact Hl.
Qed.

(** The declension of " soud " after an adjective in the genitive. *)
Lemma court_declined genitive rest :
  has_unit (ch " ") genitive = false ->
  has_substring (u " soud ") (genitive ++ u " soud " ++ rest) = true
  /\ replace_first (u " soud ") (u " soudu ") (genitive ++ u " soud " ++ rest)
     = genitive ++ u " soudu " ++ rest.
Proof.
  intros Hg.
  assert (Hkey : u " soud " = ch " " :: tl (u " soud ")) by reflexivity.
  rewrite (has_substring_past _ _ _ genitive _ Hkey Hg),
    (replace_first_past _ _ _ _ genitive _ Hkey Hg),
    has_substring_at_head, replace_first_at_head.
  split; reflexivity.
Qed.

(** The name of a regional, municipal or district court, written as the
    adjective, " soud " and a rest that names none of the three adjectives,
    is put in the genitive: the adjective and "soud" are declined, the rest
    is kept. *)
Theorem courtName_genitive adjective rest :
  In adjective adjectives ->
  rest <> [] -> is_space (last rest 0%N) = false ->
  forallb (fun a => negb (has_substring (fst a) rest)) adjectives = true ->
  courtName (fst adjective ++ u " soud " ++ rest)
  = snd adjective ++ u " soudu " ++ rest.
Proof.
  intros Hin Hne Hl Hrest. cbn [forallb adjectives fst] in Hrest.
  rewrite !andb_true_iff, !negb_true_iff in Hrest.
  destruct Hrest as (HK & HM & HO & _).
  assert (Hsoud : forall key k key', key = k :: key' ->
            has_unit k (u " soud ") = false ->
            has_substring key (u " soud " ++ rest) = has_substring key rest).
  { intros key k key' Hkey Hk.
    exact (has_substring_past key k key' (u " soud ") rest Hkey Hk). }
  assert (HKkey : u "Krajský" = ch "K" :: tl (u "Krajský")) by reflexivity.
  assert (HMkey : u "Městský" = ch "M" :: tl (u "Městský")) by reflexivity.
  assert (Htrim : forall pre, is_space (hd (ch " ") pre) = false ->
            trim (pre ++ u " soud " ++ rest) = pre ++ u " soud " ++ rest).
  { intros pre Hpre. apply (trim_between pre _ Hpre).
    - destruct rest; [contradiction | discriminate].
    - exact (eq_trans
               (f_equal is_space
                  (last_app_nonempty (u " soud ") rest 0%N 0%N Hne)) Hl). }
  unfold courtName.
  destruct Hin as [<- | [<- | [<- | []]]]; cbn [fst snd].
  - rewrite (Htrim (u "Krajský") eq_refl).
    rewrite has_substring_at_head, replace_first_at_head.
    destruct (court_declined (u "Krajského") rest eq_refl) as [-> ->].
    reflexivity.
  - rewrite (Htrim (u "Městský") eq_refl).
    rewrite (has_substring_past _ _ _ (u "Městský") _ HKkey eq_refl),
      (Hsoud _ _ _ HKkey eq_refl), HK.
    rewrite has_substring_at_head, replace_first_at_head.
    destruct (court_declined (u "Městského") rest eq_refl) as [-> ->].
    reflexivity.
  - rewrite (Htrim (u "Okresní") eq_refl).
    rewrite (has_substring_past _ _ _ (u "Okresní") _ HKkey eq_refl),
      (Hsoud _ _ _ HKkey eq_refl), HK.
    rewrite (has_substring_past _ _ _ (u "Okresní") _ HMkey eq_refl),
      (Hsoud _ _ _ HMkey eq_refl), HM.
    rewrite has_substring_at_head, replace_first_at_head.
    destruct (court_declined (u "Okresního") rest eq_refl) as [-> ->].
    reflexivity.
Qed.

Lemma courtName_genitive_witness :
  courtName (u "Městský soud v Praze") = u "Městského soudu v Praze".
Proof.
  refine (courtName_genitive (u "Městský", u "Městského") (u "v Praze")
            _ _ _ _).
  - right. left. reflexivity.
  - discriminate.
  - reflexivity.
  - reflexivity.
Defined.

(** ** One-person authorities among several parties *)

Lemma same_eq (a b : value) : same a b = true -> a = b.
Proof.
  destruct a as [x|], b as [y|]; cbn [same]; try discriminate;
    [|reflexivity].
  intros H. apply eqs_eq in H. subst y. reflexivity.
Qed.

(** Among several parties the text of a one-person authority without a
    nationality is what it is alone: the common attributes do not reach
    it.  Its second parameter receives the common nationality, which such
    a party keeps empty, so its attorney is printed with it also when the
    attorney is common and printed once more after the parties. *)
Theorem authority_ignores_common_attributes inflectText calculateAge p
    parties commonAttributes :
  In p parties ->
  finalType (own p) = Some (u "onepersonauthority") ->
  truthy (nationality (own p)) = false ->
  getCommonAttributes parties = Normal commonAttributes ->
  formatPersonText inflectText calculateAge p commonAttributes
  = formatPersonText inflectText calculateAge p no_common.
Proof.
  intros Hin Ht Hn Hc.
  assert (Hcn : truthy (commonNationality commonAttributes) = false).
  { unfold getCommonAttributes in Hc.
    destruct parties as [|first rest]; [discriminate Hc|].
    pose proof (f_equal (fun c => match c with
                                  | Normal a => commonNationality a
                                  | Throw _ => None
                                  end) Hc) as Hv.
    cbv beta iota in Hv. cbn [commonNationality] in Hv. rewrite <- Hv.
    destruct (forallb _ (first :: rest)) eqn:Hall; [|reflexivity].
    rewrite forallb_forall in Hall. apply Hall, same_eq in Hin.
    rewrite <- Hin. exact Hn. }
  unfold formatPersonText. rewrite Ht.
  replace (same (Some (u "onepersonauthority")) (Some (u "physical")))
    with false by (vm_compute; reflexivity).
  replace (same (Some (u "onepersonauthority")) (Some (u "legal")))
    with false by (vm_compute; reflexivity).
  replace (same (Some (u "onepersonauthority"))
             (Some (u "onepersonauthority")))
    with true by (vm_compute; reflexivity).
  unfold formatOnePersonAuthorityText. rewrite Hcn. reflexivity.
Qed.

Lemma authority_ignores_common_attributes_witness :
  let shared :=
    {| commonNationality := None;
       commonAttorney := Some Sample.advocate |} in
  getCommonAttributes [Sample.jan; Sample.mayor] = Normal shared
  /\ formatPersonText false Sample.age Sample.mayor shared
     = formatPersonText false Sample.age Sample.mayor no_common.
Proof.
  intros shared.
  assert (Hc : getCommonAttributes [Sample.jan; Sample.mayor] = Normal shared)
    by (vm_compute; reflexivity).
  split; [exact Hc|].
  refine (authority_ignores_common_attributes false Sample.age Sample.mayor
            [Sample.jan; Sample.mayor] shared _ eq_refl eq_refl Hc).
  right. left. reflexivity.
Defined.

(** The attorney of the two parties is printed twice. *)
Example attorney_printed_twice :
  formatMultipleParties false Sample.age [Sample.jan; Sample.mayor]
    (u "žalobců")
  = Normal (u "žalobců: a) Jan Novák, bytem Praha, b) starosta obce Lhota, se sídlem Lhota 1, zast. Mgr. Petr Svoboda, advokátem se sídlem Brno, oba zast. Mgr. Petr Svoboda, advokátem se sídlem Brno").
Proof. vm_compute. reflexivity. Qed.

(** ** Instances *)

Lemma fixAccents_undoes_breakAccents_witness :
  marker_free (u "Martin Hnědý") = true
  /\ breakAccents (u "Martin Hnědý") = u "Marťin Hňedý"
  /\ fixAccents (breakAccents (u "Martin Hnědý")) = u "Martin Hnědý".
Proof.
  assert (H : marker_free (u "Martin Hnědý") = true)
    by (vm_compute; reflexivity).
  split; [exact H|]. split; [vm_compute; reflexivity|].
  exact (fixAccents_undoes_breakAccents (u "Martin Hnědý") H).
Defined.

Lemma breakAccents_undoes_fixAccents_witness :
  avoids broken (u "ďeťi") = true
  /\ breakAccents (fixAccents (u "ďeťi")) = u "ďeťi".
Proof.
  assert (H : avoids broken (u "ďeťi") = true) by (vm_compute; reflexivity).
  split; [exact H|].
  exact (breakAccents_undoes_fixAccents (u "ďeťi") H).
Defined.

Lemma matched_word_forms_marker_free_witness :
  exists st',
    breakAccents (u "Martin") = u "Marťin"
    /\ inflect_word false (start fresh) (u "Martin") = Returned st'
    /\ selected (gender (start fresh)) (u "Martin") <> None
    /\ exists entry rest,
         inflected st' = inflected (start fresh) ++ entry :: rest
         /\ get entry 1 = Some (u "Martin")
         /\ forall k, 2 <= k <= 14 ->
              exists s, get entry k = Some s /\ marker_free s = true.
Proof.
  pose (st' := match inflect_word false (start fresh) (u "Martin") with
               | Returned s => s
               | Threw _ => start fresh
               end).
  assert (H : inflect_word false (start fresh) (u "Martin") = Returned st')
    by (vm_compute; reflexivity).
  assert (Hs : selected (gender (start fresh)) (u "Martin") <> None)
    by (vm_compute; discriminate).
  exists st'. split; [vm_compute; reflexivity|].
  split; [exact H|]. split; [exact Hs|].
  exact (matched_word_forms_marker_free false (start fresh) (u "Martin") st'
           H Hs).
Defined.


Lemma alternative_chooses_at_first_slash_witness :
  has_unit (ch "/") (u "y") = false
  /\ alternative false (u "y/ové") = u "y"
  /\ alternative true (u "y/ové") = u "ové".
Proof.
  assert (H : has_unit (ch "/") (u "y") = false) by (vm_compute; reflexivity).
  split; [exact H|].
  destruct (alternative_chooses_at_first_slash (u "y") (u "ové") H)
    as (H1 & H2 & _).
  split; [exact H1 | exact H2].
Defined.

Lemma onepersonauthority_reference_error_witness :
  finalType (own Sample.minister) = Some (u "onepersonauthority")
  /\ formatPersonText false Sample.age Sample.minister no_common
     = Throw ReferenceErr.
Proof.
  split; [reflexivity|].
  apply (proj2 (onepersonauthority_reference_error false Sample.age
                  Sample.minister no_common eq_refl)).
  vm_compute. reflexivity.
Defined.

Lemma unnamed_complainant_counts_all_witness :
  In Sample.eva [Sample.eva] /\ name (own Sample.eva) = None
  /\ getComplainantRole [Sample.eva] [Sample.jan; Sample.eva] [] [] false
     = u "žalobců".
Proof.
  assert (Hin : In Sample.eva [Sample.eva]) by (left; reflexivity).
  split; [exact Hin|]. split; [reflexivity|].
  refine (unnamed_complainant_counts_all Sample.eva [Sample.eva]
            [Sample.jan; Sample.eva] [] [] false Hin eq_refl _ _).
  - intros p [<- | [<- | []]]; reflexivity.
  - cbn [length]. lia.
Defined.

Lemma formatInformation_returns_witness :
  forallb (printable true)
    (plaintiffs Sample.case ++ defendants Sample.case
     ++ interestedParties Sample.case) = true
  /\ exists text,
       formatInformation true Sample.age Sample.courtDecision Sample.case
         [Sample.decided] false (u "č. j.") false = Normal text.
Proof.
  assert (H : forallb (printable true)
                (plaintiffs Sample.case ++ defendants Sample.case
                 ++ interestedParties Sample.case) = true)
    by (vm_compute; reflexivity).
  split; [exact H|].
  refine (formatInformation_returns true Sample.age Sample.courtDecision
            Sample.case [Sample.decided] false (u "č. j.") false _ _ H _).
  - discriminate.
  - discriminate.
  - intros d' _ Hn. cbn [Sample.case defendants length] in Hn. lia.
Defined.

Lemma formatInformation_needs_parties_witness :
  let nobody_sued :=
    {| plaintiffs := [Sample.jan]; defendants := [];
       complainants := [Sample.jan]; interestedParties := [] |} in
  defendants nobody_sued = []
  /\ exists e,
       formatInformation false Sample.age Sample.courtDecision nobody_sued
         [] false (u "č. j.") false = Throw e.
Proof.
  intros nobody_sued. split; [reflexivity|].
  exact (formatInformation_needs_parties false Sample.age
           Sample.courtDecision nobody_sued [] false (u "č. j.") false
           (or_intror eq_refl)).
Defined.

(** The caption of the case, in full, with inflection on. *)
Example caption_of_the_case :
  formatInformation true Sample.age Sample.courtDecision Sample.case
    [Sample.decided] false (u "č. j.") false
  = Normal (u "v právní věci žalobce: Jan Novák, bytem Praha, zast. Mgr. Petrem Svobodou, advokátem se sídlem Brno, proti žalovanému: Ministerstvo vnitra, se sídlem Praha 7, proti rozhodnutí žalovaného ze dne 1. 2. 2020, č. j. MV-1/2020, o kasační stížnosti žalobce proti rozsudku Městského soudu v Praze ze dne 5. 3. 2021, č. j. 10 A 1/2020 - 30,").
Proof. vm_compute. reflexivity. Qed.

(** ** Agreement in gender *)

Lemma inflect_word_short animate st word st' :
  length (reps st) <= 2 ->
  inflect_word animate st word = Returned st' ->
  length (reps st') <= 2.
Proof.
  intros Hr Hw.
  pose proof (inflect_word_alike animate st st word
                (conj eq_refl (conj eq_refl (conj Hr Hr)))) as H.
  rewrite Hw in H. destruct H as (_ & _ & H & _). exact H.
Qed.

(** The replacements have no part in what is pushed, as long as they are
    the at most two that a match leaves behind. *)
Lemma pushed_under_stale animate r (g : jsstring) word :
  g <> [] -> length r <= 2 ->
  pushed_under animate r g word = pushed_under animate fresh g word.
Proof.
  intros Hne Hr. unfold pushed_under.
  destruct (first_of_gender g (base_of word) patterns) as [[p l]|] eqn:Hfo;
    [|reflexivity].
  assert (Hsel : fst (first_match (Some g) (base_of word) patterns r)
                 = Some (p, l)).
  { rewrite (first_match_of_gender g (base_of word) patterns r Hne).
    exact Hfo. }
  pose proof (patterns_selected_ok (Some g) (base_of word) r p l Hsel) as Hok.
  destruct (first_of_gender_sound g (base_of word) patterns p l Hfo)
    as (_ & _ & Hm).
  assert (Hmr : fst (match_ r (at_ p 1) (base_of word)) = Some l)
    by (rewrite (match_fst r fresh); exact Hm).
  destruct (match_stale p (base_of word) r l Hok Hr Hmr) as [_ Hsub].
  assert (He : declined_by animate r word p l
               = declined_by animate fresh word p l).
  { unfold declined_by. cbv zeta. do 2 f_equal. apply map_ext. intros k.
    f_equal. apply form_stale. exact (Hsub k). }
  cbv zeta. rewrite He. reflexivity.
Qed.

Lemma inflect_words_under animate (g : jsstring) :
  g <> [] ->
  forall remaining st st' r,
    gender st = Some g -> length (reps st) <= 2 ->
    inflect_words animate remaining st = (Returned st', r) ->
    gender st' = Some g
    /\ inflected st'
       = inflected st ++ flat_map (pushed_under animate fresh g) remaining.
Proof.
  intros Hne.
  induction remaining as [|w remaining IH]; intros st st' r Hg Hr;
    cbn [inflect_words flat_map].
  - intros H.
    pose proof (f_equal (fun x => match fst x with
                                  | Returned s => Some s
                                  | Threw _ => None
                                  end) H) as Hs.
    cbv beta iota in Hs. cbn [fst] in Hs. injection Hs as <-.
    rewrite app_nil_r. split; [exact Hg | reflexivity].
  - destruct (inflect_word animate st w) as [st1|e] eqn:Hw; [|discriminate].
    assert (Hf : force (gender st) (toLowerCase (breakAccents w)) = Some g)
      by (rewrite Hg; reflexivity).
    destruct (inflect_word_under animate st w st1 g Hf Hne Hw) as [Hg1 Hi1].
    pose proof (inflect_word_short animate st w st1 Hr Hw) as Hr1.
    intros Hrun. destruct (IH st1 st' r Hg1 Hr1 Hrun) as [Hg' Hi'].
    split; [exact Hg'|].
    rewrite Hi', Hi1, (pushed_under_stale animate (reps st) g w Hne Hr).
    rewrite <- app_assoc. reflexivity.
Qed.

Lemma inflect_words_app animate a : forall b st,
  inflect_words animate (a ++ b) st
  = match inflect_words animate a st with
    | (Returned st1, _) => inflect_words animate b st1
    | (Threw e, r) => (Threw e, r)
    end.
Proof.
  induction a as [|w a IH]; intros b st; cbn [app inflect_words];
    [reflexivity|].
  destruct (inflect_word animate st w) as [st1|e]; [apply IH | reflexivity].
Qed.

Lemma inflect_words_short animate words : forall st st' r,
  length (reps st) <= 2 ->
  inflect_words animate words st = (Returned st', r) ->
  length (reps st') <= 2.
Proof.
  induction words as [|w words IH]; intros st st' r Hr; cbn [inflect_words].
  - intros H.
    pose proof (f_equal (fun x => match fst x with
                                  | Returned s => Some s
                                  | Threw _ => None
                                  end) H) as Hs.
    cbv beta iota in Hs. cbn [fst] in Hs. injection Hs as <-. exact Hr.
  - destruct (inflect_word animate st w) as [st1|e] eqn:Hw; [|discriminate].
    apply IH. exact (inflect_word_short animate st w st1 Hr Hw).
Qed.

(** C6: once the words further right have left a gender [g] in the gender
    variable, [inflect] returns, for every remaining word, the forms of
    the first pattern of gender [g] that matches the word, or the fallback
    entry when no pattern of gender [g] matches: no remaining word is
    declined by a pattern of another gender.  ([rightward] are the words
    processed before the gender is looked at, [remaining] the words to
    their left; the empty tag of the two plural-only patterns is falsy and
    is no gender.) *)
Theorem C6_gender_governs_remaining_forms animate text rightward remaining
    st r (g : jsstring) :
  rev (split (ch " ") text) = rightward ++ remaining ->
  inflect_words animate rightward
    {| gender := None; inflected := []; reps := fresh |} = (Returned st, r) ->
  gender st = Some g -> g <> [] ->
  ~ In [] remaining ->
  inflect text animate
  = Returned (assemble (inflected st
                        ++ flat_map (pushed_under animate fresh g) remaining))
  /\ forall word pattern left_,
       In word remaining ->
       first_of_gender g (base_of word) patterns = Some (pattern, left_) ->
       at_ pattern 0 = g.
Proof.
  intros Hsplit Hrun Hg Hne Hwords. split.
  - unfold inflect, inflect_on. rewrite Hsplit, inflect_words_app, Hrun.
    assert (Hr : length (reps st) <= 2).
    { apply (inflect_words_short animate rightward
               {| gender := None; inflected := []; reps := fresh |} st r);
        [apply Nat.le_0_l | exact Hrun]. }
    destruct (inflect_words_returns animate remaining Hwords st)
      as [st' Hst'].
    destruct (inflect_words animate remaining st) as [o r'] eqn:Hrem.
    cbn [fst] in Hst'. subst o.
    destruct (inflect_words_under animate g Hne remaining st st' r' Hg Hr
                Hrem) as [_ Hi].
    cbn [fst]. rewrite Hi. reflexivity.
  - intros word pattern left_ _ Hfo.
    exact (proj1 (proj2 (first_of_gender_sound g (base_of word) patterns
                           pattern left_ Hfo))).
Qed.

(** "Jiří" alone is masculine, by the lexicon, and its instrumental is
    "Jiřím".  In "Jiří Nováková" the word "Nováková" is processed first
    and leaves the gender "f"; "Jiří" is then declined by the feminine
    pattern "-í" and the instrumental of the name is "Jiří Novákovou".
    That of "Jana Nováková" is "Janou Novákovou". *)
Lemma C6_witness_Jiri_Novakova :
  let init := {| gender := None; inflected := []; reps := fresh |} in
  exists st r,
    rev (split (ch " ") (u "Jiří Nováková")) = [u "Nováková"] ++ [u "Jiří"]
    /\ inflect_words false [u "Nováková"] init = (Returned st, r)
    /\ gender st = Some (u "f")
    /\ inflect (u "Jiří Nováková") false
       = Returned (assemble (inflected st
                             ++ flat_map (pushed_under false fresh (u "f"))
                                  [u "Jiří"]))
    /\ option_map (fun pl => (at_ (fst pl) 0, at_ (fst pl) 1))
         (first_of_gender (u "f") (base_of (u "Jiří")) patterns)
       = Some (u "f", u "-í")
    /\ option_map (fun p => (at_ p 0, at_ p 1)) (selected None (u "Jiří"))
       = Some (u "m", u "-í")
    /\ slot (inflect (u "Jiří Nováková") false) 7 = Some (u "Jiří Novákovou")
    /\ slot (inflect (u "Jiří") false) 7 = Some (u "Jiřím")
    /\ slot (inflect (u "Jana Nováková") false) 7
       = Some (u "Janou Novákovou").
Proof.
  intros init.
  pose (run := inflect_words false [u "Nováková"] init).
  pose (st := match fst run with Returned st => st | Threw _ => init end).
  assert (Hsplit : rev (split (ch " ") (u "Jiří Nováková"))
                   = [u "Nováková"] ++ [u "Jiří"])
    by (vm_compute; reflexivity).
  assert (Hrun : inflect_words false [u "Nováková"] init
                 = (Returned st, snd run)) by (vm_compute; reflexivity).
  assert (Hg : gender st = Some (u "f")) by (vm_compute; reflexivity).
  assert (Hne : u "f" <> []) by (vm_compute; discriminate).
  assert (Hwords : ~ In [] [u "Jiří"]).
  { vm_compute. intros [H|[]]. discriminate H. }
  exists st, (snd run).
  split; [exact Hsplit|]. split; [exact Hrun|]. split; [exact Hg|].
  split.
  - exact (proj1 (C6_gender_governs_remaining_forms false (u "Jiří Nováková")
                    [u "Nováková"] [u "Jiří"] st (snd run) (u "f")
                    Hsplit Hrun Hg Hne Hwords)).
  - repeat split; vm_compute; reflexivity.
Defined.

(** ** The empty word *)

(** C2: a text with an empty word, which is the empty string or a text
    with a leading, a trailing or a doubled space, makes [inflect] raise a
    [TypeError]: [word[0]] is [undefined] and [word[0].toUpperCase()]
    raises at the top of the loop body, before the pattern loop and the
    fallback are reached.  The empty word matches no pattern, so the
    fallback is what would have handled it.  Every other text returns.
    The caller meets the exception: for an attorney without a last name
    [formatAttorneyText] raises when inflection is on and returns when it
    is off. *)
Theorem C2_empty_word_raises_before_fallback :
  inflect [] false = Threw TypeError
  /\ inflect (u " ") false = Threw TypeError
  /\ inflect (u "Jan ") false = Threw TypeError
  /\ inflect (u "Jan  Novák") false = Threw TypeError
  /\ selected None [] = None
  /\ (forall text animate,
        inflect text animate = Threw TypeError
        <-> In [] (split (ch " ") text))
  /\ (forall text animate,
        (exists forms, inflect text animate = Returned forms)
        <-> ~ In [] (split (ch " ") text))
  /\ attorney_names (u "Jan") [] = Threw TypeError
  /\ (let attorney :=
        {| firstName := Some (u "Jan"); lastName := Some [];
           formattedBirthdate := None; nationality := Some [];
           address := Some (u "Brno"); titlesBefore := Some [];
           titlesAfter := Some []; name := None; registrationState := None;
           finalType := Some (u "physical") |} in
      formatAttorneyText true attorney = Throw TypeErr
      /\ formatAttorneyText false attorney
         = Normal (u "Jan , advokátem se sídlem Brno")).
Proof.
  assert (Hdec : forall text,
            In [] (split (ch " ") text) \/ ~ In [] (split (ch " ") text)).
  { intros text.
    destruct (in_dec (list_eq_dec N.eq_dec) [] (split (ch " ") text));
      [left | right]; assumption. }
  assert (Hthrows : forall text animate,
            In [] (split (ch " ") text) ->
            inflect text animate = Threw TypeError).
  { intros text animate Hin.
    exact (inflect_throws_on_empty_word fresh text animate Hin). }
  assert (Hreturns : forall text animate,
            ~ In [] (split (ch " ") text) ->
            exists forms, inflect text animate = Returned forms).
  { intros text animate Hne. unfold inflect, inflect_on.
    destruct (inflect_words_returns animate (rev (split (ch " ") text)))
      with (st := {| gender := None; inflected := []; reps := fresh |})
      as [st' Hst'].
    { rewrite <- in_rev. exact Hne. }
    destruct (inflect_words _ _ _) as [o r']. cbn [fst] in Hst'. subst o.
    eexists. reflexivity. }
  split; [vm_compute; reflexivity|].
  split; [vm_compute; reflexivity|].
  split; [vm_compute; reflexivity|].
  split; [vm_compute; reflexivity|].
  split; [vm_compute; reflexivity|].
  split.
  { intros text animate. split; [|apply Hthrows].
    intros H. destruct (Hdec text) as [Hin|Hne]; [exact Hin|].
    destruct (Hreturns text animate Hne) as [forms Hf].
    rewrite Hf in H. discriminate H. }
  split.
  { intros text animate. split; [|apply Hreturns].
    intros [forms Hf] Hin. rewrite (Hthrows text animate Hin) in Hf.
    discriminate Hf. }
  split; [vm_compute; reflexivity|].
  cbv zeta. split; vm_compute; reflexivity.
Qed.
